(** * Document extraction pipeline (documents.js): a shallow embedding

    The development follows the module [lib/documents.js] of the
    application.

    Conventions of the embedding.
    - A JavaScript string is the list of its UTF-16 code units ([jsstring]);
      regular-expression character classes without the [u] flag and
      [split('')] both work on code units.
    - A JavaScript number is an IEEE 754 binary64 value.  A finite one is
      modelled by its exact value, a rational ([Qc], canonical fractions, so
      that equal numbers are equal terms), and every arithmetic operation of
      the source rounds its exact result to the nearest binary64 number,
      ties to the even one ([double]).  A decimal literal of the source is
      the binary64 number nearest to it ([js]); a number that enters the
      module from outside (a coordinate of a block, a page width) is a
      binary64 number as well, so an input written in decimal is given as
      [js].  Comparisons are exact.  The infinities, NaN and the sign of
      zero are not modelled; the value [-Infinity] that the scoring
      functions return for empty text is kept as a constructor of its own.
      Counts and lengths are [nat]; as numbers they are exact (a length is
      below 2^53).
    - Platform services the module calls but does not define (FileReader,
      TextDecoder, pdf.js, Tesseract, fetch) are parameters: each run of
      [readFileContent] is a function of a record of their outcomes.
    - The trace is threaded explicitly; the clock field [at] of a trace
      entry is not modelled. *)

From Stdlib Require Import QArith Qcanon Qround Qpower Lqa.
From Stdlib Require Import Ascii String.
From Stdlib Require Import Sorting.Sorted.
From Stdlib Require SpecFloat.
From stdpp Require Import base numbers list sorting strings gmap.

#[local] Open Scope Z_scope.
#[local] Open Scope nat_scope.

(** ** JavaScript strings *)

Module JsString.

Definition char := N.
Definition jsstring := list char.

(** Code units matched by the regular expression class [\s]; the same set is
    stripped by [String.prototype.trim]. *)
Definition isSpace (c : char) : bool :=
  ((9 <=? c) && (c <=? 13) || (c =? 32) || (c =? 160) || (c =? 0x1680)
   || (0x2000 <=? c) && (c <=? 0x200a)
   || (c =? 0x2028) || (c =? 0x2029) || (c =? 0x202f) || (c =? 0x205f)
   || (c =? 0x3000) || (c =? 0xfeff))%N.

(** [/[А-Яа-яЁё]/]: U+0410..U+042F, U+0430..U+044F, U+0401, U+0451. *)
Definition isCyrillic (c : char) : bool :=
  ((0x410 <=? c) && (c <=? 0x42f) || (0x430 <=? c) && (c <=? 0x44f)
   || (c =? 0x401) || (c =? 0x451))%N.

(** [/\d/] *)
Definition isDigit (c : char) : bool := ((48 <=? c) && (c <=? 57))%N.

(** [/[ÃÂÐÑÒÓÝæ]/] *)
Definition isMojibake (c : char) : bool :=
  ((c =? 0xc3) || (c =? 0xc2) || (c =? 0xd0) || (c =? 0xd1) || (c =? 0xd2)
   || (c =? 0xd3) || (c =? 0xdd) || (c =? 0xe6))%N.

(** [/[\u0000-\u0008\u000B\u000C\u000E-\u001F]/] *)
Definition isControl (c : char) : bool :=
  ((c <=? 8) || (c =? 0xb) || (c =? 0xc) || (0xe <=? c) && (c <=? 0x1f))%N.

(** [(s.match(/[class]/g) || []).length] *)
Definition countMatches (p : char -> bool) (s : jsstring) : nat :=
  length (List.filter p s).

Definition SPACE : char := 32%N.
Definition NEWLINE : char := 10%N.

(** [s.replace(/\s+/g, ' ')]: every maximal run of white space becomes one
    space.  The flag records that the previous code unit was white space. *)
Fixpoint collapseFrom (inRun : bool) (s : jsstring) : jsstring :=
  match s with
  | [] => []
  | c :: rest =>
      if isSpace c
      then (if inRun then collapseFrom true rest
            else SPACE :: collapseFrom true rest)
      else c :: collapseFrom false rest
  end.

Definition collapseWhitespace (s : jsstring) : jsstring := collapseFrom false s.

Fixpoint trimStart (s : jsstring) : jsstring :=
  match s with
  | [] => []
  | c :: rest => if isSpace c then trimStart rest else s
  end.

Definition trimEnd (s : jsstring) : jsstring := rev (trimStart (rev s)).

(** [s.trim()] *)
Definition trim (s : jsstring) : jsstring := trimEnd (trimStart s).

(** Truthiness of a string: non-empty. *)
Definition truthy (s : jsstring) : bool :=
  match s with [] => false | _ => true end.

(** [parts.join(sep)] *)
Fixpoint join (sep : jsstring) (parts : list jsstring) : jsstring :=
  match parts with
  | [] => []
  | [p] => p
  | p :: rest => p ++ sep ++ join sep rest
  end.

(** [new Set(s.split('')).size]: the number of distinct code units. *)
Definition uniqueChars (s : jsstring) : nat := size (list_to_set s : gset N).

(** An ASCII literal as a JavaScript string. *)
Fixpoint lit (s : string) : jsstring :=
  match s with
  | EmptyString => []
  | String a rest => N_of_ascii a :: lit rest
  end.

(** Decimal digits of a number, as [String(n)] prints a non-negative
    integer. *)
Definition digitChar (d : nat) : char := (48 + N.of_nat d)%N.

Fixpoint decimalFuel (fuel n : nat) (acc : jsstring) : jsstring :=
  match fuel with
  | O => acc
  | S fuel' =>
      let acc' := digitChar (n mod 10) :: acc in
      if n / 10 =? 0 then acc' else decimalFuel fuel' (n / 10) acc'
  end.

Definition decimal (n : nat) : jsstring := decimalFuel (S n) n [].

End JsString.
Import JsString.

(** ** Numbers *)

Module JsNum.

Definition num := Qc.

Definition ofNat (n : nat) : num := Q2Qc (inject_Z (Z.of_nat n)).
Definition ofZ (z : Z) : num := Q2Qc (inject_Z z).

(** *** Rounding to binary64 *)

(** The integer nearest to [q], the even one of two that are equally near. *)
Definition roundHalfEven (q : Q) : Z :=
  let f := Qfloor q in
  match (q - inject_Z f ?= 1 # 2)%Q with
  | Lt => f
  | Gt => (f + 1)%Z
  | Eq => if Z.even f then f else (f + 1)%Z
  end.

(** The floor of the binary logarithm of a positive rational [n / d]: it is
    [log2 n - log2 d] or one less. *)
Definition log2floor (q : Q) : Z :=
  let k := (Z.log2 (Qnum q) - Z.log2 (Z.pos (Qden q)))%Z in
  if Qle_bool (2 ^ k) q then k else (k - 1)%Z.

(** The unit in the last place of the binary64 numbers around a positive
    [q]: 53 significant bits, and no exponent below -1074 (the subnormal
    numbers). *)
Definition ulp (q : Q) : Q := (2 ^ Z.max (log2floor q - 52) (-1074))%Q.

(** The binary64 number nearest to a positive [q]. *)
Definition roundMagnitude (q : Q) : Q :=
  (inject_Z (roundHalfEven (q / ulp q)) * ulp q)%Q.

(** Rounding to nearest, ties to even, is symmetric: the magnitude is
    rounded and the sign kept. *)
Definition roundQ (q : Q) : Q :=
  match (q ?= 0)%Q with
  | Eq => 0%Q
  | Gt => roundMagnitude q
  | Lt => (- roundMagnitude (- q))%Q
  end.

(** The binary64 number nearest to [x].  (A result of magnitude 2^1024 or
    more is an infinity in JavaScript; see the conventions.) *)
Definition double (x : num) : num := Q2Qc (roundQ x).

(** The value of the decimal literal [q] of the source. *)
Definition js (q : Q) : num := double (Q2Qc q).

(** The operators [+], [-], [*] and [/] of JavaScript on numbers. *)
Definition fadd (a b : num) : num := double (a + b)%Qc.
Definition fsub (a b : num) : num := double (a - b)%Qc.
Definition fmul (a b : num) : num := double (a * b)%Qc.
Definition fdiv (a b : num) : num := double (a / b)%Qc.

Declare Scope js_scope.
Delimit Scope js_scope with js.
Notation "a + b" := (fadd a b) : js_scope.
Notation "a - b" := (fsub a b) : js_scope.
Notation "a * b" := (fmul a b) : js_scope.
Notation "a / b" := (fdiv a b) : js_scope.

Definition ltb (a b : num) : bool := bool_decide (a < b)%Qc.
Definition leb (a b : num) : bool := bool_decide (a <= b)%Qc.
Definition gtb (a b : num) : bool := ltb b a.
Definition geb (a b : num) : bool := leb b a.

(** [Math.max(a, b)] and [Math.min(a, b)] on finite numbers. *)
Definition max2 (a b : num) : num := if leb a b then b else a.
Definition min2 (a b : num) : num := if leb a b then a else b.

(** [Math.round(x)]: the integer nearest to [x], halves rounded up. *)
Definition round (x : num) : Z := Qfloor (x + Q2Qc (1 # 2))%Qc.

(** A score that may be [-Infinity]. *)
Inductive score := NegInfinity | Finite (q : num).

(** [a > b] on scores. *)
Definition scoreGt (a b : score) : bool :=
  match a, b with
  | NegInfinity, _ => false
  | Finite _, NegInfinity => true
  | Finite x, Finite y => gtb x y
  end.

End JsNum.
Import JsNum.

(** ** Quality Assessor *)

Definition MIN_USEFUL_TEXT_LENGTH : nat := 200.

Record Assessment := mkAssessment {
  readable : bool;
  reason : string;
  score_of : score;
  cleaned_text : jsstring
}.

(** [evaluateSoftPdfAcceptance(assessment, text)]; the first argument is not
    read by the function. *)
Definition evaluateSoftPdfAcceptance (text : jsstring) : Assessment :=
  let cleaned := trim (collapseWhitespace text) in
  if negb (truthy cleaned)
  then mkAssessment false "empty" NegInfinity []
  else
    let length := List.length cleaned in
    let cyrillic := countMatches isCyrillic cleaned in
    let digits := countMatches isDigit cleaned in
    let uniqueChars := uniqueChars cleaned in
    let score :=
      (ofNat length / ofNat 80 + ofNat cyrillic * js 0.4
       + ofNat digits * js 0.05 + ofNat uniqueChars * js 0.1)%js in
    let readable :=
      (MIN_USEFUL_TEXT_LENGTH <=? length)
      || ((120 <=? length) && (40 <? cyrillic))
      || ((120 <=? length) && (30 <? digits))
      || ((70 <=? length) && (20 <=? cyrillic) && (2 <=? digits))
      || geb score (ofNat 12) in
    mkAssessment readable (if readable then "accepted" else "too-short")
                 (Finite score) cleaned.

(** ** Kind Detector *)

(** The kind tags ['pdf'], ['docx'], ['text'], ['image'], ['binary'] and the
    ['unknown'] of a missing file. *)
Inductive Kind := Kpdf | Kdocx | Ktext | Kimage | Kbinary | Kunknown.

(** The part of a [File] the module reads: [file.name] and [file.type]. *)
Record File := mkFile {
  file_name : jsstring;
  file_type : jsstring
}.

(** A byte buffer; every element is below 256. *)
Definition buffer := list N.

(** [toLowerCase] on the ASCII letters.  The patterns below are lower-case
    ASCII, and no code unit outside ASCII lower-cases to a sequence that
    completes one of them, so the outcome of every test is the one of the
    full Unicode mapping. *)
Definition lowerChar (c : char) : char :=
  if ((65 <=? c) && (c <=? 90))%N then (c + 32)%N else c.

Definition toLowerCase (s : jsstring) : jsstring := map lowerChar s.

(** [s.startsWith(p)] *)
Fixpoint startsWith (s p : jsstring) : bool :=
  match p, s with
  | [], _ => true
  | _ :: _, [] => false
  | a :: p', b :: s' => (a =? b)%N && startsWith s' p'
  end.

(** [s.endsWith(p)] *)
Definition endsWith (s p : jsstring) : bool := startsWith (rev s) (rev p).

(** [s.includes(p)] *)
Fixpoint includes (s p : jsstring) : bool :=
  startsWith s p ||
  match s with
  | [] => false
  | _ :: s' => includes s' p
  end.

(** [name.match(/\.(txt|md|csv|json|log)$/)] as a truth value. *)
Definition hasTextExtension (name : jsstring) : bool :=
  existsb (fun ext => endsWith name (lit ext))
          [".txt"; ".md"; ".csv"; ".json"; ".log"]%string.

(** [view[i] === b] for [view = new Uint8Array(buffer.slice(0, 8))]; reading
    past the end gives [undefined], which equals no byte. *)
Definition byteIs (view : buffer) (i : nat) (b : N) : bool :=
  match view !! i with
  | Some x => (x =? b)%N
  | None => false
  end.

Definition detectFileKind (file : option File) (buf : buffer) : Kind :=
  let name := toLowerCase (from_option file_name [] file) in
  let type := toLowerCase (from_option file_type [] file) in
  let view := take 8 buf in
  if includes type (lit "pdf") || endsWith name (lit ".pdf")
     || (byteIs view 0 0x25 && byteIs view 1 0x50)
  then Kpdf
  else if endsWith name (lit ".docx") || includes type (lit "wordprocessingml")
          || (byteIs view 0 0x50 && byteIs view 1 0x4b)
  then Kdocx
  else if startsWith type (lit "text/") || hasTextExtension name
  then Ktext
  else if startsWith type (lit "image/")
  then Kimage
  else Kbinary.

(** ** Text Decoder *)

(** The platform's [TextDecoder]: [decoder label fatal bytes] is the decoded
    string, or [None] when no decoder can be built for the label or when
    [decode] throws (a malformed sequence under [fatal: true]). *)
Definition TextDecoder := string -> bool -> buffer -> option jsstring.

(** [decodeUsing(buffer, encoding, options)]: every failure becomes the empty
    string. *)
Definition decodeUsing (decoder : TextDecoder) (buf : buffer)
    (encoding : string) (fatal : bool) : jsstring :=
  match decoder encoding fatal buf with
  | Some t => t
  | None => []
  end.

Definition scoreTextCandidate (text : jsstring) : score :=
  if negb (truthy text) then NegInfinity
  else
    let cleaned := collapseWhitespace text in
    let length := List.length cleaned in
    if (length =? 0) then NegInfinity
    else
      let cyrillic := countMatches isCyrillic cleaned in
      let mojibake := countMatches isMojibake cleaned in
      let controls := countMatches isControl cleaned in
      Finite (ofNat length / ofNat 50 + ofNat cyrillic * js 0.6
              - ofNat mojibake * ofNat 4 - ofNat controls * ofNat 6)%js.

Definition candidates : list string :=
  ["utf-8"; "utf-16le"; "utf-16be"; "windows-1251"; "koi8-r"; "ibm866"]%string.

(** The running best candidate of the loop, [{ score, text }]. *)
Definition Best := (score * jsstring)%type.

(** One iteration of [for (const encoding of candidates)]. *)
Definition considerText (best : Best) (text : jsstring) : Best :=
  if negb (truthy text) then best
  else
    let score := scoreTextCandidate text in
    if scoreGt score (fst best) then (score, text) else best.

Definition decodeTextBuffer (decoder : TextDecoder) (buf : option buffer)
    : jsstring :=
  match buf with
  | None => []
  | Some buffer =>
      let strictUtf8 := decodeUsing decoder buffer "utf-8" true in
      if truthy strictUtf8 then strictUtf8
      else
        let best :=
          fold_left
            (fun best encoding =>
               considerText best (decodeUsing decoder buffer encoding false))
            candidates (NegInfinity, []) in
        snd best
  end.

(** ** Layout Reconstructor *)

(** [Array.prototype.sort] with a comparator is stable; [before a b] is the
    comparator's verdict "the result is negative", so [a] is placed ahead of
    [b].  Elements the comparator does not separate keep their input
    order.  The comparators of the module subtract two numbers; the
    difference of two binary64 numbers is negative exactly when the first
    is the smaller one, also after rounding ([comparator_verdict] below), so
    the verdict is written as a comparison. *)
Section Sort.
Context {A : Type} (before : A -> A -> bool).

Fixpoint insertSorted (x : A) (l : list A) : list A :=
  match l with
  | [] => [x]
  | y :: rest => if before y x then y :: insertSorted x rest else x :: l
  end.

Fixpoint sortBy (l : list A) : list A :=
  match l with
  | [] => []
  | x :: rest => insertSorted x (sortBy rest)
  end.

End Sort.

(** [roundCoord(value)]: [Math.round(value * 100) / 100].  [Math.round]
    is exact on the rounded product, and its result, an integer, is a
    number without rounding. *)
Definition roundCoord (value : num) : num :=
  (ofZ (round (value * ofNat 100)%js) / ofNat 100)%js.

(** A positioned text fragment; [bbox] is the array [[x1, y1, x2, y2]]. *)
Record TextBlock := mkBlock {
  block_id : jsstring;
  block_text : jsstring;
  bbox : num * num * num * num
}.

Definition bbox0 (b : TextBlock) : num := let '(a, _, _, _) := bbox b in a.
Definition bbox1 (b : TextBlock) : num := let '(_, a, _, _) := bbox b in a.
Definition bbox2 (b : TextBlock) : num := let '(_, _, a, _) := bbox b in a.

(** The comparator [(a, b) => a.bbox[0] - b.bbox[0]]. *)
Definition byX (a b : TextBlock) : bool := ltb (bbox0 a) (bbox0 b).

(** A line as [groupBlocksIntoLines] builds it; the table detector reads
    [y] and [blocks]. *)
Record Line := mkLine {
  line_id : jsstring;
  line_y : num;
  line_maxY : num;
  line_x1 : num;
  line_x2 : num;
  line_blocks : list TextBlock
}.

Record Column := mkColumn {
  col_id : jsstring;
  col_start : num;
  col_end : num;
  col_center : num;
  blockCount : option nat
}.

Record Cell := mkCell {
  cell_text : jsstring;
  cell_bbox : num * num * num * num
}.

Record TableRow := mkRow {
  row_y : num;
  cells : list Cell
}.

Record TableRegion := mkTable {
  table_id : jsstring;
  rows : list TableRow
}.

(** *** detectColumns *)

(** An entry [{ center, block }] of the [centers] array. *)
Record CenterEntry := mkEntry {
  center : num;
  block : TextBlock
}.

Definition centerOf (b : TextBlock) : CenterEntry :=
  mkEntry ((bbox0 b + bbox2 b) / ofNat 2)%js b.

(** The comparator [(a, b) => a.center - b.center]. *)
Definition byCenter (a b : CenterEntry) : bool := ltb (center a) (center b).

Definition gapThreshold (pageWidth : num) : num :=
  max2 (pageWidth * js 0.08)%js (ofNat 42).

(** The state of the clustering loop: the closed [clusters] and the
    [current] one. *)
Definition ClusterState := (list (list CenterEntry) * list CenterEntry)%type.

(** The body of [centers.forEach((entry, index) => ...)].  [prev] is
    [centers[index - 1]], which exists for every index of the loop but the
    first; the last case of the [match] is never reached. *)
Definition clusterStep (centers : list CenterEntry) (threshold : num)
    (st : ClusterState) (indexed : nat * CenterEntry) : ClusterState :=
  let '(clusters, current) := st in
  let '(index, entry) := indexed in
  if index =? 0 then (clusters, current ++ [entry])
  else
    match centers !! (index - 1) with
    | Some prev =>
        if gtb (center entry - center prev)%js threshold
        then (clusters ++ [current], [entry])
        else (clusters, current ++ [entry])
    | None => (clusters, current ++ [entry])
    end.

Definition indexed {A : Type} (l : list A) : list (nat * A) :=
  imap (fun i x => (i, x)) l.

Definition clusterCenters (centers : list CenterEntry) (threshold : num)
    : list (list CenterEntry) :=
  let '(clusters, current) :=
    fold_left (clusterStep centers threshold) (indexed centers) ([], []) in
  if 0 <? length current then clusters ++ [current] else clusters.

(** [Math.min(...xs)] and [Math.max(...xs)] for a non-empty argument list
    (every cluster has an element; the empty call, which JavaScript answers
    with an infinity, is given 0 here). *)
Definition minOf (xs : list num) : num :=
  match xs with
  | [] => ofNat 0
  | x :: rest => fold_left min2 rest x
  end.

Definition maxOf (xs : list num) : num :=
  match xs with
  | [] => ofNat 0
  | x :: rest => fold_left max2 rest x
  end.

(** [cluster.reduce((sum, item) => sum + item.center, 0)] *)
Definition sumCenters (cluster : list CenterEntry) : num :=
  fold_left (fun sum item => (sum + center item)%js) cluster (ofNat 0).

Definition columnOf (pageWidth : num) (index : nat)
    (cluster : list CenterEntry) : Column :=
  let minX := minOf (map (fun item => bbox0 (block item)) cluster) in
  let maxX := maxOf (map (fun item => bbox2 (block item)) cluster) in
  let center := (sumCenters cluster / ofNat (length cluster))%js in
  mkColumn (lit "col-" ++ decimal index)
           (roundCoord (max2 (ofNat 0) (minX - ofNat 12)%js))
           (roundCoord (min2 pageWidth (maxX + ofNat 12)%js))
           (roundCoord center)
           (Some (length cluster)).

Definition detectColumns (blocks : list TextBlock) (pageWidth : num)
    : list Column :=
  if length blocks =? 0
  then [mkColumn (lit "col-0") (ofNat 0) pageWidth (pageWidth / ofNat 2)%js
                 None]
  else
    let centers := sortBy byCenter (map centerOf blocks) in
    let clusters := clusterCenters centers (gapThreshold pageWidth) in
    imap (columnOf pageWidth) clusters.

(** *** detectTableRows *)

(** [block.text && block.text.trim().length > 0] *)
Definition meaningful (b : TextBlock) : bool :=
  truthy (block_text b) && (0 <? length (trim (block_text b))).

Definition TableState := (list (list Line) * list Line)%type.

(** The body of [lines.forEach((line) => ...)]. *)
Definition tableStep (minColumns : nat) (st : TableState) (line : Line)
    : TableState :=
  let '(tables, current) := st in
  let meaningfulBlocks := List.filter meaningful (line_blocks line) in
  if minColumns <=? length meaningfulBlocks
  then (tables, current ++ [line])
  else if 0 <? length current
  then (tables ++ [current], [])
  else (tables, current).

(** A row of a table.  [row.blocks.sort(...)] sorts the line's own array;
    nothing modelled here reads that array afterwards. *)
Definition rowOf (row : Line) : TableRow :=
  mkRow (roundCoord (line_y row))
        (map (fun b => mkCell (block_text b) (bbox b))
             (sortBy byX (line_blocks row))).

Definition tableOf (index : nat) (rows : list Line) : TableRegion :=
  mkTable (lit "table-" ++ decimal (index + 1)) (map rowOf rows).

Definition detectTableRows (lines : list Line) (minColumns : nat)
    : list TableRegion :=
  let '(tables, current) :=
    fold_left (tableStep minColumns) lines ([], []) in
  let tables := if 0 <? length current then tables ++ [current] else tables in
  imap tableOf tables.

(** ** Results, trace and page metadata *)

(** A value read from parsed JSON.  Of a value that is not a string the
    pipeline observes only that fact and whether the value is truthy. *)
Inductive JsValue :=
| JsStr (s : jsstring)
| JsNonString (isTruthy : bool).

Definition valueTruthy (v : JsValue) : bool :=
  match v with
  | JsStr s => truthy s
  | JsNonString b => b
  end.

(** An extractor tag written as a literal in the source. *)
Definition tag (s : string) : JsValue := JsStr (lit s).

#[global] Instance JsValue_eq_dec : EqDecision JsValue.
Proof. solve_decision. Defined.

(** The [detail] of a trace entry.  The source formats Russian messages; the
    constructors keep the template and its arguments:
    - [FileNotPassed]: 'Файл не передан'
    - [ExtractedChars n]: 'Извлечено символов: n'
    - [EmptyResult]: 'Пустой результат'
    - [PdfjsError m]: 'Ошибка pdf.js: m'
    - [DocumentXmlMissing]: 'Файл word/document.xml не найден'
    - [LinesReceived n]: 'Получено строк: n'
    - [DocxError m]: 'Ошибка чтения DOCX: m'
    - [TesseractUnavailable]: 'Tesseract недоступен'
    - [PageError p m]: 'Страница p: m'
    - [OcrChars n]: 'OCR символов: n'
    - [OcrEmpty]: 'OCR дал пустой ответ'
    - [OcrError m]: 'Ошибка OCR: m'
    - [CanvasUnavailable]: 'Canvas недоступен'
    - [ExtraOcr ps]: 'Дополнительный OCR: ps'
    - [OcrPagesError m]: 'Ошибка OCR страниц: m'
    - [FetchUnavailable]: 'fetch/FormData недоступны'
    - [BackendNotConfigured]: 'Бэкенд не настроен (...)'
    - [ResponseStatus c]: 'Ответ c'
    - [ServerReturnedText]: 'Сервер вернул текст'
    - [ServerWithoutText]: 'Сервер ответил без текста'
    - [RequestError m]: 'Ошибка запроса: m'
    - [PagesReplaced ps]: 'Подменены страницы: ps (порог 0.12)'
    - [UsingLowScoreText n]: 'Используем текст длиной n, несмотря на низкий балл'
    - [TextNotExtracted]: 'Текст не извлечён, возвращаем пустой результат'
    - [TryingTextDecode]: 'Пробуем декодировать текстовый файл'
    - [ImageOcrStart]: 'Запуск OCR для изображения'
    - [UnknownBinary]: 'Неизвестный тип файла, возвращаем base64'
    The entries pushed just before [readFileContent] throws are lost with
    the trace and have no constructor. *)
Inductive Detail :=
| FileNotPassed
| ExtractedChars (n : nat)
| EmptyResult
| PdfjsError (m : jsstring)
| DocumentXmlMissing
| LinesReceived (n : nat)
| DocxError (m : jsstring)
| TesseractUnavailable
| PageError (page : nat) (m : jsstring)
| OcrChars (n : nat)
| OcrEmpty
| OcrError (m : jsstring)
| CanvasUnavailable
| ExtraOcr (pages : list nat)
| OcrPagesError (m : jsstring)
| FetchUnavailable
| BackendNotConfigured
| ResponseStatus (code : nat)
| ServerReturnedText
| ServerWithoutText
| RequestError (m : jsstring)
| PagesReplaced (pages : list nat)
| UsingLowScoreText (n : nat)
| TextNotExtracted
| TryingTextDecode
| ImageOcrStart
| UnknownBinary.

Record TraceEntry := mkTrace {
  step : string;
  detail : Detail;
  status : string
}.

Definition Trace := list TraceEntry.

(** [pushTrace(trace, step, detail, status = 'info')] *)
Definition pushTrace (trace : Trace) (step : string) (detail : Detail)
    (status : string) : Trace :=
  trace ++ [mkTrace step detail status].

Definition OCR_QUALITY_THRESHOLD : num := js 0.12.

(** [Number(x.toFixed(3))] for [x >= 0]: [x.toFixed(3)] writes the decimal
    [n / 1000] nearest to the exact value of [x], the larger one of two that
    are equally near, and [Number] reads it as the binary64 number nearest to
    that decimal. *)
Definition toFixed3 (x : num) : num :=
  double (ofZ (round (x * ofNat 1000)%Qc) / ofNat 1000)%Qc.

Definition computeQuality (text : jsstring) : num :=
  if negb (truthy text) then ofNat 0
  else
    let cleaned := trim (collapseWhitespace text) in
    if negb (truthy cleaned) then ofNat 0
    else
      let cyrillic := countMatches isCyrillic cleaned in
      let lengthScore :=
        min2 (ofNat 1) (ofNat (length cleaned) / ofNat 4000)%js in
      let cyrillicScore :=
        min2 (js 0.6)
             (ofNat cyrillic / ofNat (Nat.max (length cleaned) 1))%js in
      toFixed3 (lengthScore + cyrillicScore)%js.

Definition normalizePageSegments (segments : list JsValue)
    (fallbackText : jsstring) : list jsstring :=
  let cleaned :=
    List.filter truthy
      (map (fun segment =>
              match segment with
              | JsStr s => trim (collapseWhitespace s)
              | JsNonString _ => []
              end) segments) in
  if 0 <? length cleaned then cleaned
  else
    let fallback := trim (collapseWhitespace fallbackText) in
    if truthy fallback then [fallback] else [].

Definition pageTag (index : nat) (pageText : jsstring) : jsstring :=
  lit "<<<PAGE " ++ decimal (index + 1) ++ lit ">>>" ++ [NEWLINE] ++ pageText.

Definition buildPageTaggedText (pages : list jsstring) : jsstring :=
  if length pages =? 0 then []
  else join [NEWLINE; NEWLINE] (imap pageTag pages).

(** [a || b] on numbers used as page counts. *)
Definition orElse (a b : nat) : nat := if a =? 0 then b else a.

(** The page fields of the object [buildPageMeta] returns.  [layout] is
    represented by the number of its pages ([None] for a [null] layout); the
    [languages] and [layout] fields of the metadata are not modelled. *)
Record PageMeta := mkPageMeta {
  pm_pages : list jsstring;
  pm_pageCount : nat;
  pm_pageTaggedText : jsstring;
  pm_layoutPageCount : nat;
  pm_ocrPatchedPages : option (list nat)
}.

Definition buildPageMeta (text : jsstring) (pagesInput : list JsValue)
    (layout : option nat) : PageMeta :=
  let layoutPageCount := from_option id 0 layout in
  let pages := normalizePageSegments pagesInput text in
  let effectivePageCount := orElse (length pages) (orElse layoutPageCount 0) in
  mkPageMeta pages effectivePageCount (buildPageTaggedText pages)
             layoutPageCount None.

(** [result.meta]: the fields [buildResponse] sets, followed by the page
    fields spread from [extraMeta] when the caller passed page metadata.
    The file-identity fields of [baseMeta] and [preview] are not modelled. *)
Record Meta := mkMeta {
  extractor : JsValue;
  strategy : string;
  usedOcr : bool;
  quality : num;
  trace : Trace;
  pages : option (list jsstring);
  pageCount : option nat;
  pageTaggedText : option jsstring;
  ocrPatchedPages : option (list nat)
}.

Record Response := mkResponse {
  text : jsstring;
  kind : Kind;
  meta : Meta
}.

Definition buildResponse (trace : Trace) (kind : Kind) (extractor : JsValue)
    (text : jsstring) (usedOcr : bool) (extraMeta : option PageMeta)
    : Response :=
  mkResponse text kind
    (mkMeta extractor "auto" usedOcr (computeQuality text) trace
            (pm_pages <$> extraMeta)
            (pm_pageCount <$> extraMeta)
            (pm_pageTaggedText <$> extraMeta)
            (extraMeta ≫= pm_ocrPatchedPages)).

(** The closure [chooseText] of [readFileContent]. *)
Definition chooseText (trace : Trace) (detectedKind : Kind)
    (text : jsstring) (extractor : JsValue) (extra : option PageMeta)
    : Response :=
  buildResponse trace detectedKind extractor text
                (bool_decide (extractor = tag "pdf-ocr")) extra.

(** ** Platform outcomes

    What the file, the libraries and the remote service answer during one
    run.  The logger callback [onLog] and the Cloudinary uploads write none
    of the fields modelled here and are left out. *)

(** What [readFileContent] may throw.
    - [CorruptedOrUnsupported]: 'Не удалось обработать файл: повреждённое
      содержимое или неподдерживаемый формат.'
    - [ContentUnavailable]: 'Не удалось обработать файл: содержимое
      недоступно.'
    - [SourceDamagedOrEmpty]: 'Не удалось обработать файл: источник повреждён
      или пуст.'
    - [TypeError]: a method called on a value that does not have it.
    - [Rejected m]: a rejected promise nobody caught, with its message. *)
Inductive Thrown :=
| CorruptedOrUnsupported
| ContentUnavailable
| SourceDamagedOrEmpty
| TypeError
| Rejected (m : jsstring).

Inductive Outcome (A : Type) :=
| Returns (a : A)
| Throws (e : Thrown).
Arguments Returns {A} a.
Arguments Throws {A} e.

(** [readAsArrayBuffer(file)] followed by [toArrayBuffer]. *)
Inductive Acquisition :=
| AcquireRejects (message : jsstring)
| AcquireNull
| Acquired (bytes : buffer).

(** [word/document.xml]: for each [w:p] the [textContent] of its [w:t]
    nodes. *)
Inductive DocxOutcome :=
| DocxThrows (m : jsstring)
| DocxNoDocument
| DocxParagraphs (paragraphs : list (list jsstring)).

(** The page loop of [renderPdfWithPdfjs]: for each page the blocks built
    from its non-blank text items (text already trimmed), or an exception
    anywhere in the function. *)
Inductive PdfjsOutcome :=
| PdfjsThrows (m : jsstring)
| PdfjsPages (pageBlocks : list (list TextBlock)).

(** One page under OCR: [getPage] or [render] throws, the canvas has no 2D
    context, [recognize] throws, or [recognize] answers [data?.text]. *)
Inductive OcrPage :=
| PageThrows (m : jsstring)
| NoContext
| RecognizeThrows (m : jsstring)
| Recognized (dataText : option jsstring).

Inductive OcrSetup :=
| LoadPdfjsThrows (m : jsstring)
| GetDocumentThrows (m : jsstring)
| DocumentOpened (doc : list OcrPage).

(** The parsed JSON of the remote service: [payload.text],
    [payload.meta.pages] when it is an array, [payload.meta.extractor].  A
    missing property is the falsy non-string [undefined]. *)
Record Payload := mkPayload {
  payload_text : JsValue;
  payload_pages : option (list JsValue);
  payload_extractor : JsValue
}.

Inductive ServerOutcome :=
| FetchMissing
| BackendMissing
| RequestThrows (m : jsstring)
| ResponseNotOk (statusCode : nat)
| ResponseJson (payload : Payload).

Inductive ImageRecognition :=
| ImageRecognizeThrows (m : jsstring)
| ImageRecognized (dataText : option jsstring).

Record Platform := mkPlatform {
  acquisition : Acquisition;
  base64Throws : bool;
  decoder : TextDecoder;
  docxOutcome : DocxOutcome;
  pdfjsOutcome : PdfjsOutcome;
  canvas : bool;
  tesseractScript : bool;
  ocrSetup : OcrSetup;
  server : ServerOutcome;
  dataUrlRejects : option jsstring;
  imageRecognition : ImageRecognition
}.

(** [loadTesseract()] gives an engine only where a canvas exists. *)
Definition loadTesseract (env : Platform) : bool :=
  canvas env && tesseractScript env.

(** ** Extraction stages *)

(** Of a layout only the number of its pages is modelled. *)
Record Layout := mkLayout { layout_pageCount : nat }.

Record StageResult := mkStage {
  stage_text : jsstring;
  stage_pages : list jsstring;
  stage_layout : option Layout
}.

Definition emptyStage : StageResult := mkStage [] [] None.

Definition layoutCount (layout : option Layout) : option nat :=
  layout_pageCount <$> layout.

(** [buildPlainLayout(pages)] on an array of strings. *)
Definition plainLayout (pages : list jsstring) : Layout :=
  mkLayout (length pages).

Fixpoint allStrings (values : list JsValue) : option (list jsstring) :=
  match values with
  | [] => Some []
  | JsStr s :: rest => cons s <$> allStrings rest
  | JsNonString _ :: _ => None
  end.

(** [buildPlainLayout(pages)] on parsed JSON: [pageText.split(...)] throws on
    the first element that is not a string. *)
Definition buildPlainLayout (pages : list JsValue) : Outcome Layout :=
  match allStrings pages with
  | Some strings => Returns (plainLayout strings)
  | None => Throws TypeError
  end.

(** The comparator [(a, b) => a.bbox[1] - b.bbox[1] || a.bbox[0] - b.bbox[0]]. *)
Definition byYX (a b : TextBlock) : bool :=
  ltb (bbox1 a) (bbox1 b)
  || (bool_decide (bbox1 a = bbox1 b) && ltb (bbox0 a) (bbox0 b)).

Definition pageTextOf (blocks : list TextBlock) : jsstring :=
  trim (collapseWhitespace
          (join [SPACE] (map block_text (sortBy byYX blocks)))).

Definition renderPdfWithPdfjs (outcome : PdfjsOutcome) (trace : Trace)
    : StageResult * Trace :=
  match outcome with
  | PdfjsThrows m =>
      (emptyStage, pushTrace trace "pdfjs" (PdfjsError m) "error")
  | PdfjsPages pageBlocks =>
      let pages := List.filter truthy (map pageTextOf pageBlocks) in
      let combined := trim (join [NEWLINE] pages) in
      let trace :=
        pushTrace trace "pdfjs"
          (if truthy combined then ExtractedChars (length combined)
           else EmptyResult) "info" in
      (mkStage combined pages (Some (mkLayout (length pageBlocks))), trace)
  end.

Definition extractDocx (outcome : DocxOutcome) (trace : Trace)
    : StageResult * Trace :=
  match outcome with
  | DocxThrows m =>
      (emptyStage, pushTrace trace "docx" (DocxError m) "error")
  | DocxNoDocument =>
      (emptyStage, pushTrace trace "docx" DocumentXmlMissing "warn")
  | DocxParagraphs paragraphs =>
      let lines :=
        List.filter truthy
          (map (fun runs => trim (concat runs)) paragraphs) in
      let combined := join [NEWLINE] lines in
      let trace := pushTrace trace "docx" (LinesReceived (length lines)) "info" in
      let pages := [combined] in
      (mkStage combined pages (Some (plainLayout pages)), trace)
  end.

(** [data?.text ? data.text.replace(/\s+/g, ' ').trim() : ''] *)
Definition ocrText (dataText : option jsstring) : jsstring :=
  match dataText with
  | Some s => if truthy s then trim (collapseWhitespace s) else []
  | None => []
  end.

(** The page loop of [ocrPdf]: the texts pushed so far, or the message of an
    exception that leaves the loop. *)
Fixpoint ocrPdfLoop (pageIndex : nat) (doc : list OcrPage)
    (texts : list jsstring) (trace : Trace)
    : (jsstring + list jsstring) * Trace :=
  match doc with
  | [] => (inr texts, trace)
  | PageThrows m :: _ => (inl m, trace)
  | NoContext :: rest => ocrPdfLoop (S pageIndex) rest texts trace
  | RecognizeThrows m :: rest =>
      ocrPdfLoop (S pageIndex) rest (texts ++ [[]])
                 (pushTrace trace "ocr" (PageError pageIndex m) "warn")
  | Recognized dataText :: rest =>
      ocrPdfLoop (S pageIndex) rest (texts ++ [ocrText dataText]) trace
  end.

Definition ocrPdf (env : Platform) (trace : Trace) (pageLimit : nat)
    : StageResult * Trace :=
  match ocrSetup env with
  | LoadPdfjsThrows m =>
      (emptyStage, pushTrace trace "ocr" (OcrError m) "error")
  | setup =>
      if negb (loadTesseract env)
      then (emptyStage, pushTrace trace "ocr" TesseractUnavailable "warn")
      else
        match setup with
        | LoadPdfjsThrows m | GetDocumentThrows m =>
            (emptyStage, pushTrace trace "ocr" (OcrError m) "error")
        | DocumentOpened doc =>
            match ocrPdfLoop 1 (take (Nat.min pageLimit (length doc)) doc)
                             [] trace with
            | (inl m, trace) =>
                (emptyStage, pushTrace trace "ocr" (OcrError m) "error")
            | (inr texts, trace) =>
                let combined := trim (join [NEWLINE] texts) in
                let trace :=
                  pushTrace trace "ocr"
                    (if truthy combined then OcrChars (length combined)
                     else OcrEmpty) "info" in
                let pages := normalizePageSegments (map JsStr texts) combined in
                (mkStage combined pages None, trace)
            end
        end
  end.

(** The result of [ocrPdfPages]: a [Map] from page number to text, in
    insertion order. *)
Definition Patches := list (nat * jsstring).

(** [Array.from(new Set(xs))]: first occurrences, in order. *)
Fixpoint dedupeFrom (seen xs : list nat) : list nat :=
  match xs with
  | [] => []
  | x :: rest =>
      if bool_decide (x ∈ seen) then dedupeFrom seen rest
      else x :: dedupeFrom (x :: seen) rest
  end.

Definition ocrTargets (pagesToProcess : list nat) : list nat :=
  sortBy Nat.ltb
         (dedupeFrom [] (List.filter (fun page => 1 <=? page) pagesToProcess)).

(** The body of [for (const pageNumber of targets)]. *)
Definition ocrPageStep (doc : list OcrPage) (st : Patches * Trace)
    (pageNumber : nat) : Patches * Trace :=
  let '(results, trace) := st in
  if length doc <? pageNumber then st
  else
    match doc !! (pageNumber - 1) with
    | Some (PageThrows m) | Some (RecognizeThrows m) =>
        (results,
         pushTrace trace "ocr-adaptive" (PageError pageNumber m) "warn")
    | Some (Recognized dataText) =>
        let text := ocrText dataText in
        if truthy text then (results ++ [(pageNumber, text)], trace) else st
    | Some NoContext | None => st
    end.

Definition ocrPdfPages (env : Platform) (pagesToProcess : list nat)
    (trace : Trace) : Patches * Trace :=
  if length pagesToProcess =? 0 then ([], trace)
  else if negb (canvas env)
  then ([], pushTrace trace "ocr-adaptive" CanvasUnavailable "warn")
  else
    let targets := ocrTargets pagesToProcess in
    if length targets =? 0 then ([], trace)
    else
      match ocrSetup env with
      | LoadPdfjsThrows m =>
          ([], pushTrace trace "ocr-adaptive" (OcrPagesError m) "error")
      | setup =>
          if negb (loadTesseract env)
          then ([], pushTrace trace "ocr-adaptive" TesseractUnavailable "warn")
          else
            match setup with
            | LoadPdfjsThrows m | GetDocumentThrows m =>
                ([], pushTrace trace "ocr-adaptive" (OcrPagesError m) "error")
            | DocumentOpened doc =>
                let '(results, trace) :=
                  fold_left (ocrPageStep doc) targets ([], trace) in
                let trace :=
                  if 0 <? length results
                  then pushTrace trace "ocr-adaptive"
                                 (ExtraOcr (map fst results)) "info"
                  else trace in
                (results, trace)
            end
      end.

Definition serverExtractText (outcome : ServerOutcome) (trace : Trace)
    : option Payload * Trace :=
  match outcome with
  | FetchMissing =>
      (None, pushTrace trace "server" FetchUnavailable "warn")
  | BackendMissing =>
      (None, pushTrace trace "server" BackendNotConfigured "warn")
  | RequestThrows m =>
      (None, pushTrace trace "server" (RequestError m) "error")
  | ResponseNotOk statusCode =>
      (None,
       pushTrace trace "server" (ResponseStatus statusCode)
                 (if statusCode =? 404 then "error" else "warn"))
  | ResponseJson payload =>
      (Some payload,
       pushTrace trace "server"
         (if valueTruthy (payload_text payload) then ServerReturnedText
          else ServerWithoutText) "info")
  end.

(** ** Extraction Orchestrator *)

(** Page numbers (from 1) of the pages whose quality is below the
    threshold. *)
Definition lowQualityPages (pages : list jsstring) : list nat :=
  let qualityScores := map computeQuality pages in
  map snd
      (List.filter (fun entry => ltb (fst entry) OCR_QUALITY_THRESHOLD)
                   (imap (fun index score => (score, index + 1))
                         qualityScores)).

(** [while (pages.length < pageNumber) pages.push('')] *)
Definition extendTo (pageNumber : nat) (pages : list jsstring)
    : list jsstring :=
  pages ++ replicate (pageNumber - length pages) [].

(** The body of [patches.forEach((text, pageNumber) => ...)] on
    [pdfMeta.pages] and [patchedPages]; [index] is [pageNumber - 1].  For a
    page number 0 the assignment [pages[-1] = normalized] sets a property
    that is not an element of the array. *)
Definition patchStep (st : list jsstring * list nat)
    (patch : nat * jsstring) : list jsstring * list nat :=
  let '(pages, patchedPages) := st in
  let '(pageNumber, text) := patch in
  let normalized := trim (collapseWhitespace text) in
  if negb (truthy normalized) then st
  else
    match pageNumber with
    | 0 => (pages, patchedPages ++ [pageNumber])
    | S index =>
        let pages := extendTo pageNumber pages in
        (<[index := normalized]> pages, patchedPages ++ [pageNumber])
    end.

(** The adaptive patch, from the computation of [lowQualityPages] to the
    end of [if (lowQualityPages.length)]: the updated [pdfMeta], the
    updated [pdfResult.text] and the trace. *)
Definition adaptivePatch (env : Platform) (pdfMeta : PageMeta)
    (pdfText : jsstring) (trace : Trace) : PageMeta * jsstring * Trace :=
  let low := lowQualityPages (pm_pages pdfMeta) in
  if 0 <? length low then
    let '(patches, trace) := ocrPdfPages env low trace in
    let '(pages, patchedPages) :=
      fold_left patchStep patches (pm_pages pdfMeta, []) in
    if 0 <? length patchedPages then
      (mkPageMeta pages
                  (orElse (length pages) (orElse (pm_layoutPageCount pdfMeta) 0))
                  (buildPageTaggedText pages)
                  (pm_layoutPageCount pdfMeta)
                  (Some patchedPages),
       join [NEWLINE] pages,
       pushTrace trace "ocr-adaptive" (PagesReplaced patchedPages) "info")
    else
      (mkPageMeta pages (pm_pageCount pdfMeta) (pm_pageTaggedText pdfMeta)
                  (pm_layoutPageCount pdfMeta) (pm_ocrPatchedPages pdfMeta),
       pdfText, trace)
  else (pdfMeta, pdfText, trace).

(** The end of the PDF branch, from [ocrPdf] on. *)
Definition ocrFallback (env : Platform) (trace : Trace) : Response :=
  let '(ocr, trace) := ocrPdf env trace 10 in
  let ocrText := stage_text ocr in
  if truthy ocrText && (40 <=? length (trim ocrText)) then
    let ocrPages :=
      if 0 <? length (stage_pages ocr) then stage_pages ocr else [ocrText] in
    let ocrLayout := plainLayout ocrPages in
    let meta :=
      buildPageMeta ocrText (map JsStr ocrPages)
                    (layoutCount (Some ocrLayout)) in
    buildResponse trace Kpdf (tag "pdf-ocr") ocrText true (Some meta)
  else
    let trace := pushTrace trace "pdf" TextNotExtracted "warn" in
    chooseText trace Kpdf [] (tag "pdf-unreadable") None.

(** The PDF branch from [serverExtractText] on. *)
Definition serverFallback (env : Platform) (trace : Trace)
    : Outcome Response :=
  let '(serverResult, trace) := serverExtractText (server env) trace in
  match serverResult with
  | Some payload =>
      if valueTruthy (payload_text payload) then
        match payload_text payload with
        | JsNonString _ => Throws TypeError
        | JsStr serverText =>
            if 40 <=? length (trim serverText) then
              let serverPages :=
                match payload_pages payload with
                | Some pages => pages
                | None => [JsStr serverText]
                end in
              match buildPlainLayout serverPages with
              | Throws e => Throws e
              | Returns serverLayout =>
                  let meta :=
                    buildPageMeta serverText serverPages
                                  (layoutCount (Some serverLayout)) in
                  Returns
                    (chooseText trace Kpdf serverText
                       (if valueTruthy (payload_extractor payload)
                        then payload_extractor payload
                        else tag "server-pymupdf")
                       (Some meta))
              end
            else Returns (ocrFallback env trace)
        end
      else Returns (ocrFallback env trace)
  | None => Returns (ocrFallback env trace)
  end.

(** The branch [if (detectedKind === 'pdf')]. *)
Definition readPdf (env : Platform) (trace : Trace) : Outcome Response :=
  let '(pdfResult, trace) := renderPdfWithPdfjs (pdfjsOutcome env) trace in
  let pdfMeta :=
    buildPageMeta (stage_text pdfResult) (map JsStr (stage_pages pdfResult))
                  (layoutCount (stage_layout pdfResult)) in
  let '(pdfMeta, pdfText, trace) :=
    adaptivePatch env pdfMeta (stage_text pdfResult) trace in
  let effectivePdfText := trim pdfText in
  let pdfAssessment := evaluateSoftPdfAcceptance effectivePdfText in
  let trimmedPdfText := effectivePdfText in
  if truthy trimmedPdfText then
    let trace :=
      if negb (readable pdfAssessment)
      then pushTrace trace "pdfjs"
                     (UsingLowScoreText (length trimmedPdfText)) "warn"
      else trace in
    Returns
      (chooseText trace Kpdf trimmedPdfText
                  (if readable pdfAssessment then tag "pdfjs"
                   else tag "pdfjs-soft")
                  (Some pdfMeta))
  else serverFallback env trace.

(** The branch [if (detectedKind === 'image')]. *)
Definition readImage (env : Platform) (trace : Trace) : Outcome Response :=
  let trace := pushTrace trace "image" ImageOcrStart "info" in
  match dataUrlRejects env with
  | Some m => Throws (Rejected m)
  | None =>
      if negb (loadTesseract env) then
        Returns (buildResponse trace Kimage (tag "image-preview") [] false
                               (Some (buildPageMeta [] [] None)))
      else
        match imageRecognition env with
        | ImageRecognized dataText =>
            let recognizedText := from_option id [] dataText in
            let pages := [recognizedText] in
            let layout := plainLayout pages in
            Returns
              (buildResponse trace Kimage (tag "image-ocr") recognizedText true
                 (Some (buildPageMeta recognizedText (map JsStr pages)
                                      (layoutCount (Some layout)))))
        | ImageRecognizeThrows m =>
            let trace := pushTrace trace "image" (OcrError m) "error" in
            Returns (buildResponse trace Kimage (tag "image-preview") [] false
                                   (Some (buildPageMeta [] [] None)))
        end
  end.

Definition readFileContent (env : Platform) (file : option File)
    : Outcome Response :=
  let trace : Trace := [] in
  match file with
  | None =>
      let trace := pushTrace trace "input" FileNotPassed "error" in
      Returns (buildResponse trace Kunknown (tag "none") [] false None)
  | Some _ =>
      match acquisition env with
      | AcquireRejects _ => Throws CorruptedOrUnsupported
      | AcquireNull => Throws ContentUnavailable
      | Acquired arrayBuffer =>
          let detectedKind := detectFileKind file arrayBuffer in
          if base64Throws env then Throws SourceDamagedOrEmpty
          else
            match detectedKind with
            | Kdocx =>
                let '(docx, trace) := extractDocx (docxOutcome env) trace in
                Returns
                  (chooseText trace detectedKind (stage_text docx) (tag "docx")
                     (Some (buildPageMeta (stage_text docx)
                                          (map JsStr (stage_pages docx))
                                          (layoutCount (stage_layout docx)))))
            | Ktext =>
                let trace := pushTrace trace "text" TryingTextDecode "info" in
                let text := decodeTextBuffer (decoder env) (Some arrayBuffer) in
                let pages := [text] in
                let layout := plainLayout pages in
                Returns
                  (chooseText trace detectedKind text (tag "text")
                     (Some (buildPageMeta text (map JsStr pages)
                                          (layoutCount (Some layout)))))
            | Kpdf => readPdf env trace
            | Kimage => readImage env trace
            | Kbinary | Kunknown =>
                let trace := pushTrace trace "binary" UnknownBinary "info" in
                Returns (buildResponse trace Kbinary (tag "binary") [] false None)
            end
      end
  end.

(** ** Snippets and languages *)

(** The character U+2026 that [trimSnippet] appends. *)
Definition ELLIPSIS : char := 0x2026%N.

(** [trimSnippet(text, limit = 2000)], for a limit that is a non-negative
    integer; [text.slice(0, limit)] is then the first [limit] code units. *)
Definition trimSnippet (text : jsstring) (limit : nat) : jsstring :=
  if negb (truthy text) then []
  else if length text <=? limit then text
  else take limit text ++ [ELLIPSIS].

(** The language labels 'unknown', 'ru', 'en' and 'mixed'. *)
Inductive Language := Lunknown | Lru | Len | Lmixed.

(** [/[A-Za-z]/] *)
Definition isLatin (c : char) : bool :=
  ((65 <=? c) && (c <=? 90) || (97 <=? c) && (c <=? 122))%N.

(** [text.replace(/\s+/g, '')] *)
Definition removeWhitespace (text : jsstring) : jsstring :=
  List.filter (fun c => negb (isSpace c)) text.

Definition detectLanguageFromText (text : jsstring) : Language :=
  let cleaned := removeWhitespace text in
  if negb (truthy cleaned) then Lunknown
  else
    let cyrillic := countMatches isCyrillic cleaned in
    let latin := countMatches isLatin cleaned in
    if gtb (ofNat cyrillic) (ofNat latin * js 1.2)%js then Lru
    else if gtb (ofNat latin) (ofNat cyrillic * js 1.2)%js then Len
    else Lmixed.

(** ** groupBlocksIntoLines *)

Definition bbox3 (b : TextBlock) : num := let '(_, _, _, a) := bbox b in a.

(** The comparator [(a, b) => a.bbox[1] - b.bbox[1]]. *)
Definition byY (a b : TextBlock) : bool := ltb (bbox1 a) (bbox1 b).

(** [Math.abs(x)] *)
Definition absNum (x : num) : num := if ltb x (ofNat 0) then (- x)%Qc else x.

Definition LINE_TOLERANCE : num := ofNat 6.

(** [Math.abs(item.y - block.bbox[1]) <= tolerance] *)
Definition nearLine (block : TextBlock) (item : Line) : bool :=
  leb (absNum (line_y item - bbox1 block)%js) LINE_TOLERANCE.

(** The branch [if (line)]: the block is pushed and the extent of the line
    grows. *)
Definition extendLine (line : Line) (block : TextBlock) : Line :=
  mkLine (line_id line)
         (min2 (line_y line) (bbox1 block))
         (max2 (line_maxY line) (bbox3 block))
         (min2 (line_x1 line) (bbox0 block))
         (max2 (line_x2 line) (bbox2 block))
         (line_blocks line ++ [block]).

(** [lines.find(...)] followed by the update of the line found: the first
    line within the tolerance takes the block; [None] when no line is. *)
Fixpoint addToLine (block : TextBlock) (lines : list Line)
    : option (list Line) :=
  match lines with
  | [] => None
  | line :: rest =>
      if nearLine block line then Some (extendLine line block :: rest)
      else cons line <$> addToLine block rest
  end.

(** The body of [sorted.forEach((block) => ...)]. *)
Definition groupStep (lines : list Line) (block : TextBlock) : list Line :=
  match addToLine block lines with
  | Some lines' => lines'
  | None =>
      lines ++ [mkLine (lit "line-" ++ decimal (length lines + 1))
                       (bbox1 block) (bbox3 block) (bbox0 block) (bbox2 block)
                       [block]]
  end.

(** A line with the [text] that the last loop of [groupBlocksIntoLines]
    gives it. *)
Record TextLine := mkTextLine {
  tl_line : Line;
  tl_text : jsstring
}.

(** The body of [lines.forEach((line) => ...)]: [line.blocks] is sorted in
    place and [line.text] joins the texts of the sorted blocks. *)
Definition finishLine (line : Line) : TextLine :=
  let sorted := sortBy byX (line_blocks line) in
  mkTextLine (mkLine (line_id line) (line_y line) (line_maxY line)
                     (line_x1 line) (line_x2 line) sorted)
             (join [SPACE] (map block_text sorted)).

Definition groupBlocksIntoLines (blocks : list TextBlock) : list TextLine :=
  if length blocks =? 0 then []
  else map finishLine (fold_left groupStep (sortBy byY blocks) []).

(** ** sanitizePublicId *)

Definition DASH : char := 45%N.
Definition DOT : char := 46%N.

(** [/[a-zA-Z0-9_-]/] *)
Definition isIdChar (c : char) : bool :=
  ((97 <=? c) && (c <=? 122) || (65 <=? c) && (c <=? 90)
   || (48 <=? c) && (c <=? 57) || (c =? 95) || (c =? 45))%N.

(** The code units before the first dot, and the rest after that dot when
    there is one. *)
Fixpoint untilDot (s : jsstring) : jsstring * option jsstring :=
  match s with
  | [] => ([], None)
  | c :: rest =>
      if (c =? DOT)%N then ([], Some rest)
      else let '(before, after) := untilDot rest in (c :: before, after)
  end.

(** [s.replace(/\.[^.]+$/, '')]: the last dot goes with what follows it,
    when something follows it. *)
Definition stripExtension (s : jsstring) : jsstring :=
  match untilDot (rev s) with
  | (_ :: _, Some before) => rev before
  | _ => s
  end.

(** [s.replace(/[^a-zA-Z0-9_-]+/g, '-')]: every maximal run of other code
    units becomes one dash. *)
Fixpoint dashOthers (inRun : bool) (s : jsstring) : jsstring :=
  match s with
  | [] => []
  | c :: rest =>
      if isIdChar c then c :: dashOthers false rest
      else if inRun then dashOthers true rest
      else DASH :: dashOthers true rest
  end.

(** [s.replace(/-+/g, '-')] *)
Fixpoint squeezeDashes (inRun : bool) (s : jsstring) : jsstring :=
  match s with
  | [] => []
  | c :: rest =>
      if (c =? DASH)%N
      then (if inRun then squeezeDashes true rest
            else DASH :: squeezeDashes true rest)
      else c :: squeezeDashes false rest
  end.

(** The match of [/-$/]: a dash at the end. *)
Fixpoint dropLastDash (s : jsstring) : jsstring :=
  match s with
  | [] => []
  | c :: rest =>
      match rest with
      | [] => if (c =? DASH)%N then [] else [c]
      | _ :: _ => c :: dropLastDash rest
      end
  end.

(** [s.replace(/^-|-$/g, '')]: a dash at the start goes, and a dash at the
    end of what is left. *)
Definition stripEdgeDashes (s : jsstring) : jsstring :=
  match s with
  | [] => []
  | c :: rest => if (c =? DASH)%N then dropLastDash rest else dropLastDash s
  end.

(** [sanitizePublicId(value)]; [now] is the value of [Date.now()]. *)
Definition sanitizePublicId (now : nat) (value : JsValue) : jsstring :=
  let fallback := lit "document-" ++ decimal now in
  match value with
  | JsStr s =>
      if negb (truthy s) then fallback
      else
        let cleaned :=
          stripEdgeDashes
            (squeezeDashes false
               (dashOthers false (stripExtension (trim s)))) in
        if truthy cleaned then cleaned else fallback
  | JsNonString _ => fallback
  end.

(** ** wrapText *)

(** [s.split(/[class]+/)]: the pieces between the maximal runs of code units
    of the class, the empty pieces at both ends included. *)
Fixpoint splitRuns (p : char -> bool) (inRun : bool) (s : jsstring)
    : list jsstring :=
  match s with
  | [] => [[]]
  | c :: rest =>
      if p c
      then (if inRun then splitRuns p true rest
            else [] :: splitRuns p true rest)
      else
        match splitRuns p false rest with
        | piece :: pieces => (c :: piece) :: pieces
        | [] => [[c]]
        end
  end.

(** [paragraph.split(/\s+/).filter(Boolean)] *)
Definition wordsOf (paragraph : jsstring) : list jsstring :=
  List.filter truthy (splitRuns isSpace false paragraph).

(** [text.split(/\n+/)] *)
Definition paragraphsOf (text : jsstring) : list jsstring :=
  splitRuns (fun c => (c =? NEWLINE)%N) false text.

(** The placeholder 'Документ не распознан'. *)
Definition NOT_RECOGNIZED : jsstring :=
  [0x414; 0x43E; 0x43A; 0x443; 0x43C; 0x435; 0x43D; 0x442; 0x20;
   0x43D; 0x435; 0x20;
   0x440; 0x430; 0x441; 0x43F; 0x43E; 0x437; 0x43D; 0x430; 0x43D]%N.

Section WrapText.

(** [context.measureText(s).width] and the width of the box. *)
Context (measure : jsstring -> num) (maxWidth : num).

(** The body of [words.forEach((word) => ...)] on [lines] and [current]. *)
Definition wrapWord (st : list jsstring * jsstring) (word : jsstring)
    : list jsstring * jsstring :=
  let '(lines, current) := st in
  let test := if truthy current then current ++ [SPACE] ++ word else word in
  if gtb (measure test) maxWidth && truthy current
  then (lines ++ [current], word)
  else (lines, test).

(** The body of [paragraphs.forEach((paragraph) => ...)]. *)
Definition wrapParagraph (lines : list jsstring) (paragraph : jsstring)
    : list jsstring :=
  let words := wordsOf paragraph in
  if length words =? 0 then lines ++ [[]]
  else
    let '(lines, current) := fold_left wrapWord words (lines, []) in
    if truthy current then lines ++ [current] else lines.

(** [wrapText(context, text, maxWidth, lineHeight)]; the last argument is
    not read. *)
Definition wrapText (text : jsstring) : list jsstring :=
  if negb (truthy text) then [NOT_RECOGNIZED]
  else
    let lines := fold_left wrapParagraph (paragraphsOf text) [] in
    if 0 <? length lines then lines else [NOT_RECOGNIZED].

End WrapText.

(** ** markHeadings *)

(** [/[\d\s.:-]/] *)
Definition isNumbering (c : char) : bool :=
  (isDigit c || isSpace c || (c =? 46) || (c =? 58) || (c =? 45))%N.

(** [/[A-ZА-ЯЁ]/] *)
Definition isUpper (c : char) : bool :=
  ((65 <=? c) && (c <=? 90) || (0x410 <=? c) && (c <=? 0x42f) || (c =? 0x401))%N.

(** [/[A-Za-zА-Яа-яЁё]/] *)
Definition isLetter (c : char) : bool := isLatin c || isCyrillic c.

(** [/\w/] *)
Definition isWordChar (c : char) : bool :=
  (isLatin c || isDigit c || (c =? 95))%N.

(** The class of the title pattern: [\w], [\s], the two guillemets, the
    double and the single quote, the parentheses and the dash. *)
Definition isTitleChar (c : char) : bool :=
  (isWordChar c || isSpace c || (c =? 0xAB) || (c =? 0xBB) || (c =? 0x22)
   || (c =? 0x27) || (c =? 0x28) || (c =? 0x29) || (c =? 45))%N.

(** [/^\d+(\.\d+)*\s/.test(s)], as the automaton of the expression:
    [afterDigit] says that the code unit before was a digit of the
    numbering. *)
Fixpoint numberingFrom (afterDigit : bool) (s : jsstring) : bool :=
  match s with
  | [] => false
  | c :: rest =>
      if isDigit c then numberingFrom true rest
      else if afterDigit
      then (if isSpace c then true
            else if (c =? 46)%N
            then match rest with
                 | d :: _ => isDigit d && numberingFrom false rest
                 | [] => false
                 end
            else false)
      else false
  end.

Definition startsWithNumbering (s : jsstring) : bool := numberingFrom false s.

(** The title pattern: a capital or a digit, followed by one or more code
    units of the class above, up to the end. *)
Definition looksLikeTitle (s : jsstring) : bool :=
  match s with
  | [] => false
  | c :: rest =>
      (isUpper c || isDigit c) && truthy rest && forallb isTitleChar rest
  end.

(** The predicate of [lines.filter((line) => ...)], on [line.text]. *)
Definition isHeadingText (text : jsstring) : bool :=
  let cleaned := trim (List.filter (fun c => negb (isNumbering c)) text) in
  if negb (truthy cleaned) then false
  else
    let uppercase := countMatches isUpper cleaned in
    let letters := orElse (countMatches isLetter cleaned) 1 in
    let ratio := (ofNat uppercase / ofNat letters)%js in
    if gtb ratio (js 0.65) then true
    else if startsWithNumbering (trim text) then true
    else if (length cleaned <=? 32) && looksLikeTitle cleaned then true
    else false.

Record Heading := mkHeading {
  heading_text : jsstring;
  heading_bbox : num * num * num * num;
  heading_id : jsstring
}.

Definition markHeadings (lines : list TextLine) : list Heading :=
  map (fun line =>
         mkHeading (tl_text line)
                   (roundCoord (line_x1 (tl_line line)),
                    roundCoord (line_y (tl_line line)),
                    roundCoord (line_x2 (tl_line line)),
                    roundCoord (line_maxY (tl_line line)))
                   (line_id (tl_line line)))
      (List.filter (fun line => isHeadingText (tl_text line)) lines).

(** ** Definitions that follow the specification's words

    These are stated from the specification, to be compared with the
    definitions above, which follow the source. *)

Module Spec.

(** Quality Assessor: [score = length/80 + cyrillicCount*0.4 +
    digitCount*0.05 + uniqueCharCount*0.1] over the cleaned text, in the
    arithmetic of the language. *)
Definition qualityScore (cleaned : jsstring) : num :=
  (ofNat (length cleaned) / ofNat 80
   + ofNat (countMatches isCyrillic cleaned) * js 0.4
   + ofNat (countMatches isDigit cleaned) * js 0.05
   + ofNat (uniqueChars cleaned) * js 0.1)%js.

(** Acceptance predicate (any one suffices). *)
Definition acceptance (cleaned : jsstring) : Prop :=
  let len := length cleaned in
  let cyrillicCount := countMatches isCyrillic cleaned in
  let digitCount := countMatches isDigit cleaned in
  200 <= len
  \/ (120 <= len /\ 40 < cyrillicCount)
  \/ (120 <= len /\ 30 < digitCount)
  \/ (70 <= len /\ 20 <= cyrillicCount /\ 2 <= digitCount)
  \/ (ofNat 12 <= qualityScore cleaned)%Qc.

(** The Quality Assessor as the claim words it: the score formula and the
    acceptance predicate hold of the text cleaned by [clean], for every
    text. *)
Definition qualityAssessorOver (clean : jsstring -> jsstring) : Prop :=
  forall text : jsstring,
    score_of (evaluateSoftPdfAcceptance text)
    = Finite (qualityScore (clean text))
    /\ (readable (evaluateSoftPdfAcceptance text) = true
        <-> acceptance (clean text)).

(** Column detection: each block's horizontal center. *)
Definition blockCenter (b : TextBlock) : num :=
  ((bbox0 b + bbox2 b) / ofNat 2)%js.

(** The gap that separates columns, [max(pageWidth*0.08, 42)]. *)
Definition columnGap (pageWidth : num) : num :=
  max2 (pageWidth * js 0.08)%js (ofNat 42).

(** The blocks, in the order of their centers, are split into clusters
    wherever the gap between consecutive centers exceeds the threshold.
    [GapSplit threshold blocks clusters] says that [clusters] is that
    split of [blocks]. *)
Inductive GapSplit (threshold : num)
    : list TextBlock -> list (list TextBlock) -> Prop :=
| gap_split_nil : GapSplit threshold [] []
| gap_split_one a : GapSplit threshold [a] [[a]]
| gap_split_cut a b rest clusters :
    (threshold < (blockCenter b - blockCenter a)%js)%Qc ->
    GapSplit threshold (b :: rest) clusters ->
    GapSplit threshold (a :: b :: rest) ([a] :: clusters)
| gap_split_join a b rest cluster clusters :
    ~ (threshold < (blockCenter b - blockCenter a)%js)%Qc ->
    GapSplit threshold (b :: rest) (cluster :: clusters) ->
    GapSplit threshold (a :: b :: rest) ((a :: cluster) :: clusters).

(** Table detection: a line counts when it has at least [minColumns] blocks
    with non-empty text. *)
Definition tableLine (minColumns : nat) (line : Line) : bool :=
  minColumns <=? length (List.filter meaningful (line_blocks line)).

(** [RunsOf p lines runs]: [runs] are the maximal runs of consecutive lines
    that satisfy [p], in order.  Every run is non-empty and is closed by a
    line that fails [p] or by the end of the list. *)
Inductive RunsOf {A : Type} (p : A -> bool) : list A -> list (list A) -> Prop :=
| runs_nil : RunsOf p [] []
| runs_skip x l runs :
    p x = false -> RunsOf p l runs -> RunsOf p (x :: l) runs
| runs_last run :
    run <> [] -> Forall (fun x => p x = true) run -> RunsOf p run [run]
| runs_then run x l runs :
    run <> [] -> Forall (fun x => p x = true) run -> p x = false ->
    RunsOf p l runs -> RunsOf p (run ++ x :: l) (run :: runs).

(** The table detector as the claim words it: one table for each maximal run
    of at least three table lines, none for a shorter run. *)
Definition tablesOfLongRuns : Prop :=
  forall (lines : list Line) (runs : list (list Line)),
    RunsOf (tableLine 3) lines runs ->
    detectTableRows lines 3
    = imap tableOf (List.filter (fun run => 3 <=? length run) runs).

(** Text Decoder: the score of a candidate text,
    [length/50 + cyrillicCharCount*0.6 - mojibakeCharCount*4 -
    controlCharCount*6] over the text with its white space collapsed. *)
Definition candidateScore (text : jsstring) : num :=
  let cleaned := collapseWhitespace text in
  (ofNat (length cleaned) / ofNat 50
   + ofNat (countMatches isCyrillic cleaned) * js 0.6
   - ofNat (countMatches isMojibake cleaned) * ofNat 4
   - ofNat (countMatches isControl cleaned) * ofNat 6)%js.

(** [best] is the text of the highest-scoring candidate, the earliest one
    when several candidates share the highest score.  The candidates are
    the texts that are not empty. *)
Definition firstBest (texts : list jsstring) (best : jsstring) : Prop :=
  exists i : nat,
    texts !! i = Some best
    /\ best <> []
    /\ (forall t, t ∈ texts -> t <> [] ->
          (candidateScore t <= candidateScore best)%Qc)
    /\ (forall j t, j < i -> texts !! j = Some t -> t <> [] ->
          (candidateScore t < candidateScore best)%Qc).

(** The Text Decoder as the claim words it: whenever strict UTF-8 decoding
    succeeds, its text is returned. *)
Definition strictUtf8First : Prop :=
  forall (decoder : TextDecoder) (bytes : buffer) (t : jsstring),
    decoder "utf-8"%string true bytes = Some t ->
    decodeTextBuffer decoder (Some bytes) = t.

(** Page-tagged text: page [i] contributes ['<<<PAGE i>>>'], a newline and
    the page's text; pages are joined by blank lines; no page gives the
    empty string. *)
Fixpoint pageTaggedFrom (i : nat) (pages : list jsstring) : jsstring :=
  match pages with
  | [] => []
  | page :: rest =>
      lit "<<<PAGE " ++ decimal i ++ lit ">>>" ++ [NEWLINE] ++ page
      ++ match rest with
         | [] => []
         | _ :: _ => [NEWLINE; NEWLINE] ++ pageTaggedFrom (S i) rest
         end
  end.

Definition pageTagged (pages : list jsstring) : jsstring :=
  pageTaggedFrom 1 pages.

(** The orchestrator as the claims word it. *)

(** A PDF whose structural text fails the acceptance predicate makes
    [readFileContent] ask the remote service. *)
Definition rejectedTextAsksServer : Prop :=
  forall (env : Platform) (file : File) (bytes : buffer) (r : Response),
    acquisition env = Acquired bytes ->
    base64Throws env = false ->
    detectFileKind (Some file) bytes = Kpdf ->
    readable (evaluateSoftPdfAcceptance
                (stage_text (fst (renderPdfWithPdfjs (pdfjsOutcome env) []))))
    = false ->
    readFileContent env (Some file) = Returns r ->
    exists entry, entry ∈ trace (meta r) /\ step entry = "server"%string.

(** Every result has [meta.pageTaggedText] equal to the join of
    [meta.pages] (no pages: the empty string). *)
Definition pageTaggedInEveryResult : Prop :=
  forall (env : Platform) (file : option File) (r : Response),
    readFileContent env file = Returns r ->
    pageTaggedText (meta r)
    = Some (pageTagged (from_option id [] (pages (meta r)))).


End Spec.

(** ** Vocabulary of the proofs *)

(** A binary64 number: rounding keeps it. *)
Definition binary64 (x : num) : Prop := double x = x.

(** Order by a numeric key, as a relation and as a comparator verdict. *)
Definition keyLe {A : Type} (key : A -> num) (a b : A) : Prop :=
  (key a <= key b)%Qc.

Definition keyBefore {A : Type} (key : A -> num) (a b : A) : bool :=
  ltb (key a) (key b).

(** The split of the sorted entries at the gaps, as a function. *)
Fixpoint splitAtGaps (threshold : num) (centers : list CenterEntry)
    : list (list CenterEntry) :=
  match centers with
  | [] => []
  | a :: rest =>
      match rest with
      | [] => [[a]]
      | b :: _ =>
          if gtb (center b - center a)%js threshold
          then [a] :: splitAtGaps threshold rest
          else
            match splitAtGaps threshold rest with
            | cluster :: clusters => (a :: cluster) :: clusters
            | [] => [[a]]
            end
      end
  end.

(** The clustering loop after its first iteration, as a recursion on the
    entries still to come: [prev] is the entry handled last and [current]
    the cluster being filled. *)
Fixpoint growCluster (threshold : num) (prev : CenterEntry)
    (current : list CenterEntry) (rest : list CenterEntry)
    : list (list CenterEntry) :=
  match rest with
  | [] => [current]
  | b :: rest' =>
      if gtb (center b - center prev)%js threshold
      then current :: growCluster threshold b [b] rest'
      else growCluster threshold b (current ++ [b]) rest'
  end.

(** Put [pre] in front of the first cluster. *)
Definition prependTo (pre : list CenterEntry)
    (clusters : list (list CenterEntry)) : list (list CenterEntry) :=
  match clusters with
  | [] => [pre]
  | cluster :: clusters' => (pre ++ cluster) :: clusters'
  end.

(** Two clusters with the same entries and the same centers in order. *)
Definition sameEntries (c c' : list CenterEntry) : Prop :=
  Permutation c c' /\ map center c = map center c'.

(** Two sorted lists split into the same clusters up to the order inside
    each cluster, and start at the same center. *)
Definition sameClusters (threshold : num) (l l' : list CenterEntry) : Prop :=
  Forall2 sameEntries (splitAtGaps threshold l) (splitAtGaps threshold l')
  /\ center <$> head l = center <$> head l'.

(** The column of a cluster of blocks, as [detectColumns] computes it. *)
Definition columnOfBlocks (pageWidth : num) (index : nat)
    (cluster : list TextBlock) : Column :=
  mkColumn (lit "col-" ++ decimal index)
           (roundCoord (max2 (ofNat 0) (minOf (map bbox0 cluster) - ofNat 12)%js))
           (roundCoord (min2 pageWidth (maxOf (map bbox2 cluster) + ofNat 12)%js))
           (roundCoord
              (fold_left fadd (map Spec.blockCenter cluster) (ofNat 0)
               / ofNat (length cluster))%js)
           (Some (length cluster)).

(** The table loop as a recursion on the lines still to come, [current]
    being the run that is open. *)
Fixpoint runsFrom {A : Type} (p : A -> bool) (current : list A)
    (lines : list A) : list (list A) :=
  match lines with
  | [] => if 0 <? length current then [current] else []
  | x :: rest =>
      if p x then runsFrom p (current ++ [x]) rest
      else (if 0 <? length current then [current] else [])
           ++ runsFrom p [] rest
  end.

(** The invariant of the loop of [decodeTextBuffer], on the scores that
    [scoreTextCandidate] returns: no text scores higher than [best], and
    [best] scores higher than every text before it. *)
Definition firstBestBy (texts : list jsstring) (best : jsstring) : Prop :=
  exists i : nat,
    texts !! i = Some best
    /\ (forall t, t ∈ texts ->
          scoreGt (scoreTextCandidate t) (scoreTextCandidate best) = false)
    /\ (forall j t, j < i -> texts !! j = Some t ->
          scoreGt (scoreTextCandidate best) (scoreTextCandidate t) = true).

(** The candidate texts of a buffer, in the order of [candidates]. *)
Definition candidateTexts (decoder : TextDecoder) (bytes : buffer)
    : list jsstring :=
  map (fun encoding => decodeUsing decoder bytes encoding false) candidates.

(** A buffer that holds the UTF-8 byte order mark and nothing else, and what
    the platform's decoders answer on it: UTF-8 strips the mark and gives
    the empty string; UTF-16 gives one code unit and the replacement
    character for the odd byte; the single-byte code pages map each byte. *)
Definition bomBuffer : buffer := [0xEF; 0xBB; 0xBF]%N.

Definition bomDecoder : TextDecoder :=
  fun encoding fatal bytes =>
    if negb (bool_decide (bytes = bomBuffer)) then None
    else if String.eqb encoding "utf-8" then Some []
    else if String.eqb encoding "utf-16le" then Some [0xBBEF; 0xFFFD]%N
    else if String.eqb encoding "utf-16be" then Some [0xEFBB; 0xFFFD]%N
    else if String.eqb encoding "windows-1251" then Some [0x43F; 0xBB; 0x457]%N
    else if String.eqb encoding "koi8-r" then Some [0x41E; 0x2569; 0xA9]%N
    else if String.eqb encoding "ibm866" then Some [0x44F; 0x2557; 0x2510]%N
    else None.

(** The return sites of [readFileContent], in the order of the source. *)
Inductive ReturnSite : Response -> Prop :=
| site_no_file trace :
    ReturnSite (buildResponse trace Kunknown (tag "none") [] false None)
| site_docx trace text pagesInput layout :
    ReturnSite (chooseText trace Kdocx text (tag "docx")
                  (Some (buildPageMeta text pagesInput layout)))
| site_text trace text pagesInput layout :
    ReturnSite (chooseText trace Ktext text (tag "text")
                  (Some (buildPageMeta text pagesInput layout)))
| site_pdf_accepted trace text (accepted : bool) pdfMeta :
    pm_pageTaggedText pdfMeta = buildPageTaggedText (pm_pages pdfMeta) ->
    ReturnSite (chooseText trace Kpdf text
                  (if accepted then tag "pdfjs" else tag "pdfjs-soft")
                  (Some pdfMeta))
| site_server trace text label pagesInput layout :
    ReturnSite (chooseText trace Kpdf text label
                  (Some (buildPageMeta text pagesInput layout)))
| site_pdf_ocr trace text pagesInput layout :
    ReturnSite (buildResponse trace Kpdf (tag "pdf-ocr") text true
                  (Some (buildPageMeta text pagesInput layout)))
| site_pdf_unreadable trace :
    ReturnSite (chooseText trace Kpdf [] (tag "pdf-unreadable") None)
| site_image_preview trace :
    ReturnSite (buildResponse trace Kimage (tag "image-preview") [] false
                  (Some (buildPageMeta [] [] None)))
| site_image_ocr trace text pagesInput layout :
    ReturnSite (buildResponse trace Kimage (tag "image-ocr") text true
                  (Some (buildPageMeta text pagesInput layout)))
| site_binary trace :
    ReturnSite (buildResponse trace Kbinary (tag "binary") [] false None).

(** The remote service gave nothing usable: no payload, no text, or a text
    of fewer than 40 characters after trimming. *)
Definition serverUnusable (serverResult : option Payload) : Prop :=
  match serverResult with
  | None => True
  | Some payload =>
      match payload_text payload with
      | JsStr serverText => length (trim serverText) < 40
      | JsNonString isTruthy => isTruthy = false
      end
  end.

(** [ocrText && ocrText.trim().length >= 40] *)
Definition ocrUsable (ocr : StageResult) : bool :=
  truthy (stage_text ocr) && (40 <=? length (trim (stage_text ocr))).

(** Sample inputs. *)
Definition pdfFile : File := mkFile (lit "scan.pdf") (lit "application/pdf").

Definition pdfBytes : buffer := [0x25; 0x50; 0x44; 0x46; 0x2D]%N.

Definition longText : jsstring :=
  lit "The quick brown fox jumps over the lazy dog.".

(** A platform where nothing is available: no decoder, no canvas, no OCR
    engine, no remote service, and a PDF without pages. *)
Definition barePlatform : Platform :=
  mkPlatform (Acquired pdfBytes) false (fun _ _ _ => None) DocxNoDocument
             (PdfjsPages []) false false (DocumentOpened []) BackendMissing
             None (ImageRecognized None).

(** A PDF whose only page reads "abc", with a remote service that would
    answer a long text. *)
Definition shortTextPlatform : Platform :=
  mkPlatform (Acquired pdfBytes) false (fun _ _ _ => None) DocxNoDocument
             (PdfjsPages
                [[mkBlock (lit "pg1-b0") (lit "abc")
                          (ofNat 10, ofNat 10, ofNat 40, ofNat 22)]])
             false false (DocumentOpened [])
             (ResponseJson (mkPayload (JsStr longText) None (JsNonString false)))
             None (ImageRecognized None).

(** A PDF without text layer, with a remote service that answers [text] and
    the extractor label [label]. *)
Definition remotePlatform (pagesField : option (list JsValue))
    (label : JsValue) : Platform :=
  mkPlatform (Acquired pdfBytes) false (fun _ _ _ => None) DocxNoDocument
             (PdfjsPages [[]]) false false (DocumentOpened [])
             (ResponseJson (mkPayload (JsStr longText) pagesField label))
             None (ImageRecognized None).

(** A two-page PDF: page 1 reads "АБВ", page 2 reads "abc"; OCR is available
    and recognizes "scanned words" on page 2. *)
Definition cyrillicPage : jsstring := [0x410; 0x411; 0x412]%N.

Definition patchingPlatform : Platform :=
  mkPlatform (Acquired pdfBytes) false (fun _ _ _ => None) DocxNoDocument
             (PdfjsPages
                [[mkBlock (lit "pg1-b0") cyrillicPage
                          (ofNat 10, ofNat 10, ofNat 40, ofNat 22)];
                 [mkBlock (lit "pg2-b0") (lit "abc")
                          (ofNat 10, ofNat 10, ofNat 40, ofNat 22)]])
             true true
             (DocumentOpened
                [Recognized None; Recognized (Some (lit "scanned  words "))])
             BackendMissing None (ImageRecognized None).

(** An image whose second read, as a data URL, fails. *)
Definition imageFile : File := mkFile (lit "scan.png") (lit "image/png").

Definition pngBytes : buffer := [0x89; 0x50; 0x4E; 0x47]%N.

Definition unreadableImagePlatform : Platform :=
  mkPlatform (Acquired pngBytes) false (fun _ _ _ => None) DocxNoDocument
             (PdfjsPages []) true true (DocumentOpened []) BackendMissing
             (Some (lit "read error")) (ImageRecognized None).

(** Where the page metadata of a result comes from: [buildPageMeta], or
    [buildPageMeta] followed by the adaptive patch. *)
Inductive PageSource : PageMeta -> Prop :=
| pages_built text pagesInput layout :
    PageSource (buildPageMeta text pagesInput layout)
| pages_patched env text pagesInput layout pdfText trace :
    PageSource
      (adaptivePatch env (buildPageMeta text pagesInput layout) pdfText trace).1.1.

(** A result as [buildResponse] makes it, with page metadata of one of the
    two sources, or without page metadata. *)
Definition Built (r : Response) : Prop :=
  exists trace kind extractor text usedOcr extra,
    r = buildResponse trace kind extractor text usedOcr extra
    /\ from_option PageSource True extra.

(** What one recognized page is: its number is a target inside the
    document, its text is not empty and is in cleaned form. *)
Definition goodPatch (doc : list OcrPage) (patch : nat * jsstring) : Prop :=
  1 <= patch.1 <= length doc
  /\ patch.2 <> []
  /\ trim (collapseWhitespace patch.2) = patch.2.


(** The platform [env] with another document under OCR. *)
Definition withOcrDocument (env : Platform) (doc : list OcrPage) : Platform :=
  mkPlatform (acquisition env) (base64Throws env) (decoder env)
             (docxOutcome env) (pdfjsOutcome env) (canvas env)
             (tesseractScript env) (DocumentOpened doc) (server env)
             (dataUrlRejects env) (imageRecognition env).

(** What holds of a line while the blocks are grouped: it has a block; its
    [y] is the [bbox[1]] of one of its blocks; every block of the line
    starts at or below [y], the distance [Math.abs(y - bbox[1])] that the
    code computes is within the tolerance, and the block lies inside the
    extent of the line. *)
Definition lineCovers (line : Line) (b : TextBlock) : Prop :=
  (line_y line <= bbox1 b)%Qc
  /\ (absNum (line_y line - bbox1 b)%js <= LINE_TOLERANCE)%Qc
  /\ (line_x1 line <= bbox0 b)%Qc
  /\ (bbox2 b <= line_x2 line)%Qc
  /\ (bbox3 b <= line_maxY line)%Qc.

Definition lineOk (line : Line) : Prop :=
  Forall (lineCovers line) (line_blocks line)
  /\ exists b, b ∈ line_blocks line /\ bbox1 b = line_y line.

(** The identifiers ['line-1'], ['line-2'], ... of [n] lines. *)
Definition lineIds (n : nat) : list jsstring :=
  map (fun i => lit "line-" ++ decimal (i + 1)) (seq 0 n).

(** Two lines lie more than the tolerance apart, exactly and as the code
    computes the distance. *)
Definition apart (y y' : num) : Prop :=
  (y + LINE_TOLERANCE < y')%Qc
  /\ (LINE_TOLERANCE < absNum (y - y')%js)%Qc.

(** The binary64 number that follows 6: [6 + 2^-50]. *)
Definition AFTER_TOLERANCE : num :=
  (ofNat 6 + Q2Qc (1 # 1125899906842624))%Qc.

(** The state of the grouping loop after the blocks [done]. *)
Definition Grouped (lines : list Line) (done : list TextBlock) : Prop :=
  Permutation (concat (map line_blocks lines)) done
  /\ Forall lineOk lines
  /\ StronglySorted apart (map line_y lines)
  /\ map line_id lines = lineIds (length lines).

(** No two dashes in a row. *)
Fixpoint noDashPair (s : jsstring) : Prop :=
  match s with
  | [] => True
  | c :: rest =>
      (c = DASH -> head rest <> Some DASH) /\ noDashPair rest
  end.

(** A public identifier as [sanitizePublicId] makes it. *)
Definition safeId (s : jsstring) : Prop :=
  s <> []
  /\ Forall (fun c => isIdChar c = true) s
  /\ noDashPair s
  /\ head s <> Some DASH
  /\ last s <> Some DASH.

(** A line that needs no more wrapping: empty, or not wider than the box,
    or a single word. *)
Definition wrapped (measure : jsstring -> num) (maxWidth : num)
    (line : jsstring) : Prop :=
  line = []
  \/ gtb (measure line) maxWidth = false
  \/ Forall (fun c => isSpace c = false) line.

(** Twenty-four different Cyrillic capitals, А to Ч. *)
Definition cyrillicLetters24 : jsstring :=
  map N.of_nat (seq 0x410 24).

(** An empty text file, on a platform whose decoder answers the empty
    string. *)
Definition textFile : File := mkFile (lit "notes.txt") (lit "text/plain").

Definition emptyTextPlatform : Platform :=
  mkPlatform (Acquired []) false (fun _ _ _ => Some []) DocxNoDocument
             (PdfjsPages []) false false (DocumentOpened []) BackendMissing
             None (ImageRecognized None).

(** *** Samples for the arithmetic *)

(** Thirty-six code units: twenty different Cyrillic capitals, nine
    different digits, and seven Latin letters of two kinds. *)
Definition softBoundaryText : jsstring :=
  map N.of_nat (seq 0x410 20) ++ lit "012345678" ++ lit "aaaaabb".

(** A page of 478 Latin letters. *)
Definition latinPage478 : jsstring := repeat 97%N 478.

(** A block that spans [x1 .. x2], and a block whose top is [y]. *)
Definition blockSpanning (x1 x2 : num) : TextBlock :=
  mkBlock (lit "pg1-b0") (lit "text") (x1, ofNat 0, x2, ofNat 10).

Definition blockWithTop (y : num) : TextBlock :=
  mkBlock (lit "pg1-b0") (lit "text") (ofNat 0, y, ofNat 10, (y + ofNat 10)%js).

(** Two readings of the same 123 bytes (32 times B8, 31 times A0, 30 times
    C2 A0): as Windows-1251 they are 32 small letters io, 31 no-break
    spaces and 30 times a capital ve with a no-break space; as IBM866 they
    are 32 box-drawing characters, 31 small letters a and 30 times a
    box-drawing character with a small letter a. *)
Definition windows1251Reading : jsstring :=
  (repeat 0x451 32 ++ repeat 0xA0 31
   ++ concat (repeat [0x412; 0xA0] 30))%N.

Definition ibm866Reading : jsstring :=
  (repeat 0x2555 32 ++ repeat 0x430 31
   ++ concat (repeat [0x252C; 0x430] 30))%N.

(** The value of a finite number of the Standard Library's specification
    of IEEE 754 arithmetic, the binary64 number of an integer there, and the
    binary64 number of the decimal [n / d]. *)
Definition valueOf (f : SpecFloat.spec_float) : num :=
  match f with
  | SpecFloat.S754_finite s m e =>
      Q2Qc ((if s then -1 else 1) * inject_Z (Z.pos m) * 2 ^ e)
  | _ => ofNat 0
  end.

Definition binary64OfZ (z : Z) : SpecFloat.spec_float :=
  SpecFloat.binary_normalize 53 1024 z 0 false.

Definition binary64OfDecimal (n d : Z) : SpecFloat.spec_float :=
  SpecFloat.SFdiv 53 1024 (binary64OfZ n) (binary64OfZ d).

(** Operands: the decimal literals of the module, coordinates with two
    decimals, large and small magnitudes, both signs. *)
Definition sampleOperands : list SpecFloat.spec_float :=
  map (fun '(n, d) => binary64OfDecimal n d)
      [(4, 10); (5, 100); (1, 10); (6, 10); (12, 100); (8, 100); (12, 10);
       (65, 100); (205, 100); (805, 100); (7, 100); (607, 100); (604, 100);
       (1604, 100); (5404, 100); (6404, 100); (1005, 1000); (478, 4000);
       (-274, 100); (2652, 100); (1, 3); (-2, 3); (123456789, 1000);
       (1, 123456789); (9007199254740993, 1); (-1, 1125899906842624)]%Z.

(** The four operations of the model agree with those of the Standard
    Library on two operands. *)
Definition agreesOn (x y : SpecFloat.spec_float) : bool :=
  bool_decide (valueOf (SpecFloat.SFadd 53 1024 x y)
               = (valueOf x + valueOf y)%js)
  && bool_decide (valueOf (SpecFloat.SFsub 53 1024 x y)
                  = (valueOf x - valueOf y)%js)
  && bool_decide (valueOf (SpecFloat.SFmul 53 1024 x y)
                  = (valueOf x * valueOf y)%js)
  && bool_decide (valueOf (SpecFloat.SFdiv 53 1024 x y)
                  = (valueOf x / valueOf y)%js).


(** * Theorems *)

(** ** Numbers and strings *)

Lemma leb_le (a b : num) : leb a b = true <-> (a <= b)%Qc.
Proof. unfold leb. apply bool_decide_eq_true. Qed.

Lemma ltb_lt (a b : num) : ltb a b = true <-> (a < b)%Qc.
Proof. unfold ltb. apply bool_decide_eq_true. Qed.

Lemma Qeq_refl_eq (a b : Q) : a = b -> (a == b)%Q.
Proof. intros ->. reflexivity. Qed.

(** Order facts about canonical rationals, by linear arithmetic over the
    underlying fractions. *)
Ltac qc_order :=
  unfold num in *;
  repeat match goal with
         | |- @eq Qc _ _ => apply Qc_is_canon
         | H : @eq Qc ?a ?b |- _ =>
             apply (f_equal this) in H; apply Qeq_refl_eq in H
         end;
  unfold num, Qcle, Qclt in *; lra.

Lemma ltb_irrefl (a : num) : ltb a a = false.
Proof.
  unfold ltb. apply bool_decide_eq_false. qc_order.
Qed.

Lemma truthy_false (s : jsstring) : truthy s = false <-> s = [].
Proof. destruct s; simpl; split; congruence. Qed.

Lemma truthy_true (s : jsstring) : truthy s = true <-> s <> [].
Proof. destruct s; simpl; split; congruence. Qed.

(** ** Rounding to binary64

    [double] is monotone: rounding never reverses the order of two
    numbers. *)

Lemma roundHalfEven_bounds (q : Q) :
  (Qfloor q <= roundHalfEven q <= Qfloor q + 1)%Z.
Proof.
  unfold roundHalfEven.
  destruct (q - inject_Z (Qfloor q) ?= 1 # 2)%Q; [destruct (Z.even _)| |]; lia.
Qed.

Lemma roundHalfEven_mono (p q : Q) :
  (p <= q)%Q -> (roundHalfEven p <= roundHalfEven q)%Z.
Proof.
  intros Hpq.
  pose proof (Qfloor_resp_le _ _ Hpq) as Hf.
  pose proof (roundHalfEven_bounds p) as Hp.
  pose proof (roundHalfEven_bounds q) as Hq.
  destruct (Z.eq_dec (Qfloor p) (Qfloor q)) as [E|NE]; [|lia].
  clear Hp Hq Hf. unfold roundHalfEven. rewrite <- E.
  destruct (Qcompare_spec (p - inject_Z (Qfloor p)) (1 # 2)) as [Hp|Hp|Hp];
    destruct (Qcompare_spec (q - inject_Z (Qfloor p)) (1 # 2)) as [Hq|Hq|Hq];
    try (destruct (Z.even (Qfloor p))); try lia; exfalso; lra.
Qed.

Lemma roundHalfEven_inject (z : Z) : roundHalfEven (inject_Z z) = z.
Proof.
  unfold roundHalfEven. rewrite Qfloor_Z.
  destruct (Qcompare_spec (inject_Z z - inject_Z z) (1 # 2)) as [H|H|H];
    try reflexivity; exfalso; lra.
Qed.

Lemma two_pow_pos (e : Z) : (0 < 2 ^ e)%Q.
Proof. now apply Qpower_0_lt. Qed.

Lemma two_pow_succ (e : Z) : (2 ^ (e + 1) == 2 * 2 ^ e)%Q.
Proof. rewrite Qpower_plus by discriminate. rewrite Qpower_1_r. ring. Qed.

Lemma Zlog2_Qpower (n : Z) :
  (0 < n)%Z ->
  (2 ^ Z.log2 n <= inject_Z n)%Q /\ (inject_Z n < 2 ^ (Z.log2 n + 1))%Q.
Proof.
  intros Hn. destruct (Z.log2_spec n Hn) as [Hlo Hhi].
  pose proof (Z.log2_nonneg n) as Hnn.
  split.
  - rewrite <- (Zpower_Qpower 2) by assumption. now rewrite <- Zle_Qle.
  - rewrite <- (Zpower_Qpower 2) by lia. rewrite <- Zlt_Qlt.
    now rewrite <- Z.add_1_r in Hhi.
Qed.

Lemma Qdiv_lt_cross (n d a b : Q) :
  (0 < d)%Q -> (0 < b)%Q -> (0 < a)%Q -> (n < a)%Q -> (b <= d)%Q ->
  (n / d < a / b)%Q.
Proof.
  intros Hd Hb Ha Hn Hbd. apply Qlt_shift_div_r; [assumption|].
  assert (E : (a / b * d == a * d / b)%Q) by (field; lra).
  rewrite E. apply Qlt_shift_div_l; [assumption|]. nra.
Qed.

Lemma Qdiv_le_cross (n d a b : Q) :
  (0 < d)%Q -> (0 < b)%Q -> (0 < a)%Q -> (a <= n)%Q -> (d <= b)%Q ->
  (a / b <= n / d)%Q.
Proof.
  intros Hd Hb Ha Hn Hbd. apply Qle_shift_div_r; [assumption|].
  assert (E : (n / d * b == n * b / d)%Q) by (field; lra).
  rewrite E. apply Qle_shift_div_l; [assumption|]. nra.
Qed.

Lemma log2floor_spec (q : Q) :
  (0 < q)%Q -> (2 ^ log2floor q <= q)%Q /\ (q < 2 ^ (log2floor q + 1))%Q.
Proof.
  intros Hq. unfold log2floor.
  destruct q as [n d]. cbn [Qnum Qden].
  assert (Hn : (0 < n)%Z).
  { unfold Qlt in Hq. cbn in Hq. lia. }
  destruct (Zlog2_Qpower n Hn) as [Han Hbn].
  destruct (Zlog2_Qpower (Z.pos d) eq_refl) as [Had Hbd].
  set (a := Z.log2 n) in *. set (b := Z.log2 (Z.pos d)) in *.
  assert (Hnd : (n # d == inject_Z n / inject_Z (Z.pos d))%Q)
    by apply Qmake_Qdiv.
  assert (Hd0 : (0 < inject_Z (Z.pos d))%Q) by (unfold Qlt; cbn; lia).
  pose proof (two_pow_pos a) as Hpa. pose proof (two_pow_pos b) as Hpb.
  pose proof (two_pow_pos (a + 1)) as Hpa1.
  pose proof (two_pow_pos (b + 1)) as Hpb1.
  destruct (Qle_bool (2 ^ (a - b)) (n # d)) eqn:E.
  - apply Qle_bool_iff in E. split; [exact E|].
    replace (a - b + 1)%Z with (a + 1 - b)%Z by lia.
    rewrite Qpower_minus by discriminate. rewrite Hnd.
    now apply Qdiv_lt_cross.
  - assert (Hlt : (n # d < 2 ^ (a - b))%Q).
    { apply Qnot_le_lt. intros H. apply Qle_bool_iff in H. congruence. }
    replace (a - b - 1 + 1)%Z with (a - b)%Z by lia.
    split; [|exact Hlt].
    replace (a - b - 1)%Z with (a - (b + 1))%Z by lia.
    rewrite Qpower_minus by discriminate. rewrite Hnd.
    apply Qdiv_le_cross; try assumption. now apply Qlt_le_weak.
Qed.

Lemma log2floor_mono (p q : Q) :
  (0 < p)%Q -> (p <= q)%Q -> (log2floor p <= log2floor q)%Z.
Proof.
  intros Hp Hpq.
  destruct (log2floor_spec p Hp) as [Hlo _].
  destruct (log2floor_spec q) as [_ Hhi]; [lra|].
  assert (H : (2 ^ log2floor p < 2 ^ (log2floor q + 1))%Q) by lra.
  apply Qpower_lt_compat_l_inv in H; [lia|reflexivity].
Qed.

Lemma roundMagnitude_nonneg (q : Q) : (0 < q)%Q -> (0 <= roundMagnitude q)%Q.
Proof.
  intros Hq. unfold roundMagnitude, ulp.
  set (e := Z.max _ _). pose proof (two_pow_pos e) as He.
  assert (H : (0 <= roundHalfEven (q / 2 ^ e))%Z).
  { rewrite <- (roundHalfEven_inject 0). apply roundHalfEven_mono.
    apply Qle_shift_div_l; [assumption|]. change (inject_Z 0) with 0%Q. lra. }
  rewrite Zle_Qle in H. change (inject_Z 0) with 0%Q in H. nra.
Qed.

Lemma roundMagnitude_mono (p q : Q) :
  (0 < p)%Q -> (p <= q)%Q -> (roundMagnitude p <= roundMagnitude q)%Q.
Proof.
  intros Hp Hpq. assert (Hq : (0 < q)%Q) by lra.
  pose proof (log2floor_mono p q Hp Hpq) as HL.
  destruct (log2floor_spec p Hp) as [_ Hphi].
  destruct (log2floor_spec q Hq) as [Hqlo _].
  unfold roundMagnitude, ulp.
  set (ep := Z.max (log2floor p - 52) (-1074)).
  set (eq := Z.max (log2floor q - 52) (-1074)).
  pose proof (two_pow_pos ep) as Hep. pose proof (two_pow_pos eq) as Heq.
  destruct (Z.eq_dec ep eq) as [E|NE].
  - rewrite <- E.
    assert (H : (roundHalfEven (p / 2 ^ ep) <= roundHalfEven (q / 2 ^ ep))%Z).
    { apply roundHalfEven_mono. apply Qle_shift_div_l; [assumption|].
      assert (E' : (p / 2 ^ ep * 2 ^ ep == p)%Q) by (field; lra).
      now rewrite E'. }
    rewrite Zle_Qle in H. nra.
  - assert (Hlt : (ep + 1 <= eq)%Z) by lia.
    assert (Heq' : eq = (log2floor q - 52)%Z) by lia.
    (* the rounded [p] is at most [2 ^ (ep + 53)] *)
    assert (H1 : (inject_Z (roundHalfEven (p / 2 ^ ep)) * 2 ^ ep
                  <= 2 ^ (ep + 53))%Q).
    { assert (H : (roundHalfEven (p / 2 ^ ep) <= 2 ^ 53)%Z).
      { rewrite <- (roundHalfEven_inject (2 ^ 53)).
        apply roundHalfEven_mono. apply Qle_shift_div_r; [assumption|].
        rewrite Zpower_Qpower by lia.
        change (inject_Z 2) with 2%Q.
        rewrite <- Qpower_plus by discriminate.
        apply Qlt_le_weak. eapply Qlt_le_trans; [exact Hphi|].
        apply Qpower_le_compat_l; [lia|discriminate]. }
      rewrite Zle_Qle in H. rewrite Zpower_Qpower in H by lia.
      change (inject_Z 2) with 2%Q in H.
      rewrite (Qpower_plus 2 ep 53) by discriminate.
      pose proof (two_pow_pos 53). nra. }
    (* the rounded [q] is at least [2 ^ (eq + 52)] *)
    assert (H2 : (2 ^ (eq + 52)
                  <= inject_Z (roundHalfEven (q / 2 ^ eq)) * 2 ^ eq)%Q).
    { assert (H : (2 ^ 52 <= roundHalfEven (q / 2 ^ eq))%Z).
      { rewrite <- (roundHalfEven_inject (2 ^ 52)) at 1.
        apply roundHalfEven_mono. apply Qle_shift_div_l; [assumption|].
        rewrite Zpower_Qpower by lia.
        change (inject_Z 2) with 2%Q.
        rewrite <- Qpower_plus by discriminate.
        eapply Qle_trans; [|exact Hqlo].
        apply Qpower_le_compat_l; [lia|discriminate]. }
      rewrite Zle_Qle in H. rewrite Zpower_Qpower in H by lia.
      change (inject_Z 2) with 2%Q in H.
      rewrite (Qpower_plus 2 eq 52) by discriminate.
      pose proof (two_pow_pos 52). nra. }
    eapply Qle_trans; [exact H1|]. eapply Qle_trans; [|exact H2].
    apply Qpower_le_compat_l; [lia|discriminate].
Qed.

Lemma roundQ_mono (p q : Q) : (p <= q)%Q -> (roundQ p <= roundQ q)%Q.
Proof.
  intros Hpq. unfold roundQ.
  destruct (Qcompare_spec p 0) as [Hp|Hp|Hp];
    destruct (Qcompare_spec q 0) as [Hq|Hq|Hq]; try (exfalso; lra);
    try lra.
  - apply roundMagnitude_nonneg. lra.
  - pose proof (roundMagnitude_nonneg (- p) ltac:(lra)). lra.
  - assert (H : (roundMagnitude (- q) <= roundMagnitude (- p))%Q)
      by (apply roundMagnitude_mono; lra).
    lra.
  - pose proof (roundMagnitude_nonneg (- p) ltac:(lra)).
    pose proof (roundMagnitude_nonneg q ltac:(lra)). lra.
  - apply roundMagnitude_mono; lra.
Qed.

Lemma double_mono (x y : num) : (x <= y)%Qc -> (double x <= double y)%Qc.
Proof.
  intros H. unfold double, Qcle. cbn [this Q2Qc].
  rewrite !Qred_correct. now apply roundQ_mono.
Qed.

Lemma double_0 : double (ofNat 0) = ofNat 0.
Proof. reflexivity. Qed.

Lemma double_nonneg (x : num) : (0 <= x)%Qc -> (0 <= double x)%Qc.
Proof.
  intros H. change 0%Qc with (double (ofNat 0)). now apply double_mono.
Qed.

Lemma fadd_mono (a a' b b' : num) :
  (a <= a')%Qc -> (b <= b')%Qc -> ((a + b)%js <= (a' + b')%js)%Qc.
Proof.
  intros Ha Hb. apply double_mono. unfold Qcle in *.
  cbn [this Qcplus Q2Qc]. rewrite !Qred_correct. lra.
Qed.

Lemma fsub_mono (a a' b b' : num) :
  (a <= a')%Qc -> (b' <= b)%Qc -> ((a - b)%js <= (a' - b')%js)%Qc.
Proof.
  intros Ha Hb. apply double_mono. unfold Qcle, Qcminus in *.
  cbn [this Qcplus Qcopp Q2Qc]. rewrite !Qred_correct. lra.
Qed.

Lemma fmul_mono (a a' b b' : num) :
  (0 <= a)%Qc -> (a <= a')%Qc -> (0 <= b)%Qc -> (b <= b')%Qc ->
  ((a * b)%js <= (a' * b')%js)%Qc.
Proof.
  intros Ha0 Ha Hb0 Hb. apply double_mono. unfold Qcle in *.
  cbn [this Qcmult Q2Qc] in *. rewrite ?Qred_correct in *.
  apply Qle_trans with (this a' * this b)%Q.
  - apply Qmult_le_compat_r; assumption.
  - rewrite (Qmult_comm _ (this b)), (Qmult_comm _ (this b')).
    apply Qmult_le_compat_r; [assumption|]. lra.
Qed.

Lemma fdiv_mono (a a' c : num) :
  (a <= a')%Qc -> (0 < c)%Qc -> ((a / c)%js <= (a' / c)%js)%Qc.
Proof.
  intros Ha Hc. apply double_mono. unfold Qcle, Qclt, Qcdiv in *.
  cbn [this Qcmult Qcinv Q2Qc] in *. rewrite ?Qred_correct in *.
  apply Qmult_le_compat_r; [assumption|].
  apply Qlt_le_weak, Qinv_lt_0_compat, Hc.
Qed.

(** *** Binary64 numbers are kept by the rounding *)

Lemma log2floor_unique (q : Q) (L : Z) :
  (0 < q)%Q -> (2 ^ L <= q)%Q -> (q < 2 ^ (L + 1))%Q -> log2floor q = L.
Proof.
  intros Hq Hlo Hhi. destruct (log2floor_spec q Hq) as [Hlo' Hhi'].
  assert (H1 : (2 ^ L < 2 ^ (log2floor q + 1))%Q) by lra.
  assert (H2 : (2 ^ log2floor q < 2 ^ (L + 1))%Q) by lra.
  apply Qpower_lt_compat_l_inv in H1; [|reflexivity].
  apply Qpower_lt_compat_l_inv in H2; [|reflexivity].
  lia.
Qed.

Lemma roundHalfEven_comp (p q : Q) : (p == q)%Q -> roundHalfEven p = roundHalfEven q.
Proof.
  intros H. apply Z.le_antisymm; apply roundHalfEven_mono; lra.
Qed.

(** A positive number [n * 2^e] with at most 53 bits, or with the smallest
    exponent, is kept by the rounding. *)
Lemma roundMagnitude_fixed (n e : Z) (r : Q) :
  (0 < n <= 2 ^ 53)%Z -> (-1074 <= e)%Z ->
  ((n < 2 ^ 52)%Z -> e = (-1074)%Z) ->
  (r == inject_Z n * 2 ^ e)%Q ->
  (roundMagnitude r == r)%Q.
Proof.
  intros [Hn0 Hn] He Hsub Hr.
  pose proof (two_pow_pos e) as Hpe.
  assert (Hn0' : (0 < inject_Z n)%Q) by (rewrite Zlt_Qlt in Hn0; exact Hn0).
  assert (Hrpos : (0 < r)%Q) by (rewrite Hr; nra).
  assert (Hn' : (inject_Z n <= 2 ^ 53)%Q).
  { rewrite Zle_Qle in Hn. rewrite Zpower_Qpower in Hn by lia. exact Hn. }
  unfold roundMagnitude, ulp.
  assert (Hexp : Z.max (log2floor r - 52) (-1074) = e
                 \/ (n = 2 ^ 53)%Z
                    /\ Z.max (log2floor r - 52) (-1074) = (e + 1)%Z).
  { destruct (Z.eq_dec n (2 ^ 53)%Z) as [E|NE].
    - right. split; [exact E|].
      assert (HL : log2floor r = (e + 53)%Z).
      { apply log2floor_unique; [assumption| |].
        - rewrite Hr, E, Zpower_Qpower by lia.
          change (inject_Z 2) with 2%Q.
          rewrite (Qpower_plus 2 e 53) by discriminate. lra.
        - rewrite Hr, E, Zpower_Qpower by lia.
          change (inject_Z 2) with 2%Q.
          rewrite two_pow_succ, (Qpower_plus 2 e 53) by discriminate.
          pose proof (two_pow_pos 53). nra. }
      rewrite HL. lia.
    - left. assert (Hlt : (n < 2 ^ 53)%Z) by lia.
      assert (Hlt' : (inject_Z n < 2 ^ 53)%Q).
      { rewrite Zlt_Qlt in Hlt. rewrite Zpower_Qpower in Hlt by lia. exact Hlt. }
      destruct (Z_lt_le_dec n (2 ^ 52)%Z) as [Hsmall|Hbig].
      + specialize (Hsub Hsmall). subst e.
        assert (HL : (log2floor r < -1022)%Z).
        { destruct (log2floor_spec r Hrpos) as [Hlo _].
          assert (Hs : (inject_Z n < 2 ^ 52)%Q).
          { rewrite Zlt_Qlt in Hsmall.
            rewrite Zpower_Qpower in Hsmall by lia. exact Hsmall. }
          assert (H : (2 ^ log2floor r < 2 ^ (-1022))%Q).
          { eapply Qle_lt_trans; [exact Hlo|]. rewrite Hr.
            replace (-1022)%Z with (52 + -1074)%Z by lia.
            rewrite (Qpower_plus 2 52 (-1074)) by discriminate.
            pose proof (two_pow_pos (-1074)). nra. }
          apply Qpower_lt_compat_l_inv in H; [lia|reflexivity]. }
        lia.
      + assert (Hb : (2 ^ 52 <= inject_Z n)%Q).
        { rewrite Zle_Qle in Hbig.
          rewrite Zpower_Qpower in Hbig by lia. exact Hbig. }
        assert (HL : log2floor r = (e + 52)%Z).
        { apply log2floor_unique; [assumption| |].
          - rewrite Hr, (Qpower_plus 2 e 52) by discriminate. nra.
          - rewrite Hr. replace (e + 52 + 1)%Z with (e + 53)%Z by lia.
            rewrite (Qpower_plus 2 e 53) by discriminate. nra. }
        rewrite HL. lia. }
  destruct Hexp as [->|[E ->]].
  - assert (Hq : (r / 2 ^ e == inject_Z n)%Q) by (rewrite Hr; field; lra).
    rewrite (roundHalfEven_comp _ _ Hq), roundHalfEven_inject.
    now rewrite Hr.
  - assert (Hq : (r / 2 ^ (e + 1) == inject_Z (2 ^ 52))%Q).
    { rewrite Hr, E, two_pow_succ.
      rewrite !Zpower_Qpower by lia. change (inject_Z 2) with 2%Q.
      change (2 ^ 53)%Q with (2 * 2 ^ 52)%Q. field. lra. }
    rewrite (roundHalfEven_comp _ _ Hq), roundHalfEven_inject.
    rewrite Hr, E, two_pow_succ.
    rewrite !Zpower_Qpower by lia. change (inject_Z 2) with 2%Q.
    change (2 ^ 53)%Q with (2 * 2 ^ 52)%Q. ring.
Qed.

(** The rounding of a positive number is 0 or a number [n * 2^e] of at most
    53 bits. *)
Lemma roundMagnitude_form (q : Q) :
  (0 < q)%Q ->
  exists n e : Z,
    (0 <= n <= 2 ^ 53)%Z /\ (-1074 <= e)%Z
    /\ ((n < 2 ^ 52)%Z -> e = (-1074)%Z)
    /\ (roundMagnitude q == inject_Z n * 2 ^ e)%Q.
Proof.
  intros Hq. unfold roundMagnitude, ulp.
  destruct (log2floor_spec q Hq) as [Hlo Hhi].
  set (e := Z.max (log2floor q - 52) (-1074)).
  pose proof (two_pow_pos e) as He.
  exists (roundHalfEven (q / 2 ^ e)), e.
  split; [split|split; [lia|split; [|reflexivity]]].
  - rewrite <- (roundHalfEven_inject 0). apply roundHalfEven_mono.
    apply Qle_shift_div_l; [assumption|]. change (inject_Z 0) with 0%Q. lra.
  - rewrite <- (roundHalfEven_inject (2 ^ 53)).
    apply roundHalfEven_mono. apply Qle_shift_div_r; [assumption|].
    rewrite Zpower_Qpower by lia. change (inject_Z 2) with 2%Q.
    rewrite <- Qpower_plus by discriminate.
    apply Qlt_le_weak. eapply Qlt_le_trans; [exact Hhi|].
    apply Qpower_le_compat_l; [lia|discriminate].
  - intros Hsmall.
    destruct (Z.eq_dec e (-1074)%Z) as [E0|NE]; [exact E0|exfalso].
    assert (E : e = (log2floor q - 52)%Z) by lia.
    assert (H : (2 ^ 52 <= roundHalfEven (q / 2 ^ e))%Z); [|lia].
    rewrite <- (roundHalfEven_inject (2 ^ 52)) at 1.
    apply roundHalfEven_mono. apply Qle_shift_div_l; [assumption|].
    rewrite Zpower_Qpower by lia. change (inject_Z 2) with 2%Q.
    rewrite <- Qpower_plus by discriminate.
    eapply Qle_trans; [|exact Hlo].
    apply Qpower_le_compat_l; [lia|discriminate].
Qed.

Lemma roundMagnitude_comp_fixed (q r : Q) :
  (0 < q)%Q -> (r == roundMagnitude q)%Q -> (0 < r)%Q ->
  (roundMagnitude r == r)%Q.
Proof.
  intros Hq Hr Hpos.
  destruct (roundMagnitude_form q Hq) as (n & e & [Hn0 Hn] & He & Hsub & Hform).
  apply (roundMagnitude_fixed n e); try assumption.
  - split; [|exact Hn].
    destruct (Z.eq_dec n 0%Z) as [->|NE]; [|lia].
    exfalso. rewrite Hr, Hform in Hpos.
    change (inject_Z 0) with 0%Q in Hpos. lra.
  - now rewrite Hr.
Qed.

Lemma roundQ_fixed (q r : Q) : (r == roundQ q)%Q -> (roundQ r == r)%Q.
Proof.
  unfold roundQ at 1. intros Hr.
  destruct (Qcompare_spec q 0) as [Hq|Hq|Hq].
  - unfold roundQ. destruct (Qcompare_spec r 0) as [H|H|H];
      [symmetry; exact H|exfalso; lra|exfalso; lra].
  - assert (Hm : (0 <= roundMagnitude (- q))%Q)
      by (apply roundMagnitude_nonneg; lra).
    unfold roundQ. destruct (Qcompare_spec r 0) as [H|H|H].
    + symmetry. exact H.
    + assert (E : (roundMagnitude (- r) == - r)%Q).
      { apply (roundMagnitude_comp_fixed (- q)); lra. }
      rewrite E. ring.
    + exfalso. lra.
  - assert (Hm : (0 <= roundMagnitude q)%Q)
      by (apply roundMagnitude_nonneg; lra).
    unfold roundQ. destruct (Qcompare_spec r 0) as [H|H|H].
    + symmetry. exact H.
    + exfalso. lra.
    + now apply (roundMagnitude_comp_fixed q).
Qed.

Lemma double_idempotent (x : num) : double (double x) = double x.
Proof.
  apply Qc_is_canon. unfold double. cbn [this Q2Qc].
  set (r := Qred (roundQ (this x))).
  rewrite (Qred_correct (roundQ r)).
  apply (roundQ_fixed (this x)). apply Qred_correct.
Qed.

Lemma roundMagnitude_pos (p : Q) :
  (2 ^ (-1074) <= p)%Q -> (0 < roundMagnitude p)%Q.
Proof.
  intros Hp. pose proof (two_pow_pos (-1074)) as Hmin.
  assert (Hpos : (0 < p)%Q) by lra.
  destruct (log2floor_spec p Hpos) as [Hlo _].
  unfold roundMagnitude, ulp. set (e := Z.max (log2floor p - 52) (-1074)).
  pose proof (two_pow_pos e) as He.
  assert (Hge : (2 ^ e <= p)%Q).
  { destruct (Z.max_spec (log2floor p - 52) (-1074)) as [[_ E]|[_ E]];
      fold e in E; rewrite E; [exact Hp|].
    eapply Qle_trans; [|exact Hlo].
    apply Qpower_le_compat_l; [lia|discriminate]. }
  assert (H : (1 <= roundHalfEven (p / 2 ^ e))%Z).
  { rewrite <- (roundHalfEven_inject 1) at 1. apply roundHalfEven_mono.
    apply Qle_shift_div_l; [assumption|]. change (inject_Z 1) with 1%Q. lra. }
  rewrite Zle_Qle in H. change (inject_Z 1) with 1%Q in H. nra.
Qed.

(** A binary64 number is a multiple of [2^-1074]. *)
Lemma roundQ_grid (q : Q) :
  exists k : Z, (roundQ q == inject_Z k * 2 ^ (-1074))%Q.
Proof.
  assert (Hpos : forall p, (0 < p)%Q ->
                   exists k : Z, (roundMagnitude p == inject_Z k * 2 ^ (-1074))%Q).
  { intros p Hp.
    destruct (roundMagnitude_form p Hp) as (n & e & _ & He & _ & Hform).
    exists (n * 2 ^ (e + 1074))%Z. rewrite Hform.
    rewrite inject_Z_mult, Zpower_Qpower by lia.
    change (inject_Z 2) with 2%Q.
    rewrite <- Qmult_assoc, <- Qpower_plus by discriminate.
    now replace (e + 1074 + -1074)%Z with e by lia. }
  unfold roundQ. destruct (Qcompare_spec q 0) as [Hq|Hq|Hq].
  - exists 0%Z. change (inject_Z 0) with 0%Q. ring.
  - destruct (Hpos (- q)%Q) as [k Hk]; [lra|].
    exists (- k)%Z. rewrite Hk, inject_Z_opp. ring.
  - now apply Hpos.
Qed.

Lemma binary64_grid (x : num) :
  binary64 x -> exists k : Z, (this x == inject_Z k * 2 ^ (-1074))%Q.
Proof.
  intros Hx. destruct (roundQ_grid (this x)) as [k Hk]. exists k.
  apply (f_equal this) in Hx. unfold double in Hx. cbn [this Q2Qc] in Hx.
  rewrite <- Hx at 1. now rewrite Qred_correct.
Qed.

(** The difference of two binary64 numbers, as the code computes it, is
    negative exactly when the first is the smaller one. *)
Lemma fsub_negative (a b : num) :
  binary64 a -> binary64 b ->
  (((a - b)%js < 0)%Qc <-> (a < b)%Qc).
Proof.
  intros Ha Hb. unfold fsub. split.
  - intros Hneg. destruct (Qclt_le_dec a b) as [Hlt|Hge]; [exact Hlt|exfalso].
    assert (H : (double 0%Qc <= double (a - b))%Qc).
    { apply double_mono. unfold Qcle, Qcminus in *.
      cbn [this Qcplus Qcopp Q2Qc]. rewrite !Qred_correct. lra. }
    change (double 0%Qc) with 0%Qc in H.
    unfold Qclt, Qcle in *. lra.
  - intros Hlt.
    destruct (binary64_grid a Ha) as [ka Hka].
    destruct (binary64_grid b Hb) as [kb Hkb].
    pose proof (two_pow_pos (-1074)) as Hu.
    unfold Qclt in *. change (this 0%Qc) with 0%Q.
    unfold double. cbn [this Q2Qc Qcminus Qcplus Qcopp].
    rewrite Qred_correct.
    set (q := Qred (this a + Qred (- this b))).
    assert (Hq : (q == this a - this b)%Q).
    { unfold q. rewrite !Qred_correct. ring. }
    assert (Hk : (kb - ka >= 1)%Z).
    { assert (H : (inject_Z ka < inject_Z kb)%Q) by (rewrite Hka, Hkb in Hlt; nra).
      rewrite <- Zlt_Qlt in H. lia. }
    assert (Hgap : (2 ^ (-1074) <= - q)%Q).
    { rewrite Hq, Hka, Hkb.
      assert (H : (1 <= kb + - ka)%Z) by lia.
      rewrite Zle_Qle, inject_Z_plus, inject_Z_opp in H.
      change (inject_Z 1) with 1%Q in H. nra. }
    unfold roundQ. destruct (Qcompare_spec q 0) as [H|H|H];
      [exfalso; lra| |exfalso; lra].
    pose proof (roundMagnitude_pos (- q) Hgap). lra.
Qed.

(** The verdict of a comparator [(a, b) => a - b] on binary64 numbers. *)
Lemma comparator_verdict (a b : num) :
  binary64 a -> binary64 b -> ltb (a - b)%js (ofNat 0) = ltb a b.
Proof.
  intros Ha Hb. pose proof (fsub_negative a b Ha Hb) as H.
  unfold ltb. change (ofNat 0) with 0%Qc.
  destruct (bool_decide (a < b)%Qc) eqn:E.
  - apply bool_decide_eq_true. apply H. now apply bool_decide_eq_true in E.
  - apply bool_decide_eq_false. intros Hneg. apply H in Hneg.
    apply bool_decide_eq_false in E. contradiction.
Qed.

(** Literals and the results of the operators are binary64 numbers. *)
Lemma js_binary64 (q : Q) : binary64 (js q).
Proof. apply double_idempotent. Qed.

Lemma operators_binary64 (a b : num) :
  binary64 (a + b)%js /\ binary64 (a - b)%js
  /\ binary64 (a * b)%js /\ binary64 (a / b)%js.
Proof. repeat split; apply double_idempotent. Qed.

(** ** Quality Assessor *)

Lemma evaluate_empty (text : jsstring) :
  trim (collapseWhitespace text) = [] ->
  evaluateSoftPdfAcceptance text = mkAssessment false "empty" NegInfinity [].
Proof. intros H. unfold evaluateSoftPdfAcceptance. now rewrite H. Qed.

Lemma readable_iff_acceptance (text : jsstring) :
  readable (evaluateSoftPdfAcceptance text) = true
  <-> Spec.acceptance (trim (collapseWhitespace text)).
Proof.
  unfold evaluateSoftPdfAcceptance, Spec.acceptance.
  destruct (trim (collapseWhitespace text)) as [|c cleaned] eqn:E.
  - cbn [truthy negb readable]. split; [discriminate|].
    intros H. exfalso. cbn [length countMatches List.filter] in H.
    destruct H as [H|[[H _]|[[H _]|[[H _]|H]]]]; try lia.
    revert H. vm_compute. intros H. now apply H.
  - cbn [truthy negb readable].
    rewrite !orb_true_iff, !andb_true_iff.
    unfold MIN_USEFUL_TEXT_LENGTH, geb.
    rewrite !Nat.leb_le, !Nat.ltb_lt, leb_le.
    unfold Spec.qualityScore. tauto.
Qed.

(** C3, as amended.  [evaluateSoftPdfAcceptance] depends on its text argument
    only.  With [cleaned] the text after collapsing white space and
    trimming, it reports the text readable exactly when the acceptance
    predicate of the specification holds of [cleaned]; its score is the
    specification's formula, evaluated from left to right in binary64
    arithmetic, when [cleaned] is not empty and [-Infinity] (with the
    verdict "not readable") when it is. *)
Theorem evaluateSoftPdfAcceptance_spec (text : jsstring) :
  let cleaned := trim (collapseWhitespace text) in
  (readable (evaluateSoftPdfAcceptance text) = true <-> Spec.acceptance cleaned)
  /\ score_of (evaluateSoftPdfAcceptance text)
     = (if truthy cleaned then Finite (Spec.qualityScore cleaned)
        else NegInfinity)
  /\ cleaned_text (evaluateSoftPdfAcceptance text) = cleaned.
Proof.
  intros cleaned. split; [apply readable_iff_acceptance|].
  unfold evaluateSoftPdfAcceptance. fold cleaned.
  destruct cleaned; cbn [truthy negb score_of cleaned_text]; auto.
Qed.

(** C3, counterexample.  On the empty text the score is [-Infinity], not the
    value 0 of the formula, whether or not the cleaned text is trimmed. *)
Lemma evaluateSoftPdfAcceptance_empty_score :
  score_of (evaluateSoftPdfAcceptance []) = NegInfinity
  /\ ~ Spec.qualityAssessorOver collapseWhitespace
  /\ ~ Spec.qualityAssessorOver (fun t => trim (collapseWhitespace t)).
Proof.
  split; [reflexivity|].
  split; intros H; destruct (H []) as [Hs _]; discriminate Hs.
Qed.

(** ** Kind Detector *)

(** C4.  A buffer that starts with the bytes of '%PDF' is classified as
    'pdf', whatever the file name and the declared type (and also when no
    file object is given). *)
Theorem detectFileKind_pdf_magic (file : option File) (rest : buffer) :
  detectFileKind file ([0x25; 0x50; 0x44; 0x46]%N ++ rest) = Kpdf.
Proof.
  unfold detectFileKind. cbn [app take byteIs lookup list_lookup].
  cbn [N.eqb Pos.eqb andb]. now rewrite orb_true_r.
Qed.

(** ** Sorting *)

Section SortFacts.
Context {A : Type} (before : A -> A -> bool).

Lemma insertSorted_Permutation (x : A) (l : list A) :
  Permutation (insertSorted before x l) (x :: l).
Proof.
  induction l as [|y l IH]; simpl; [reflexivity|].
  destruct (before y x); [|reflexivity].
  rewrite IH. apply perm_swap.
Qed.

Lemma sortBy_Permutation (l : list A) : Permutation (sortBy before l) l.
Proof.
  induction l as [|x l IH]; simpl; [reflexivity|].
  rewrite insertSorted_Permutation. now rewrite IH.
Qed.

Lemma sortBy_length (l : list A) : length (sortBy before l) = length l.
Proof. apply Permutation_length, sortBy_Permutation. Qed.

End SortFacts.

Section SortByKey.
Context {A : Type} (key : A -> num).

Lemma insertSorted_sorted (x : A) (l : list A) :
  StronglySorted (keyLe key) l -> StronglySorted (keyLe key) (insertSorted (keyBefore key) x l).
Proof.
  induction l as [|y l IH]; simpl; intros Hs.
  - repeat constructor.
  - apply StronglySorted_inv in Hs as [Hl Hy].
    unfold keyBefore at 1. destruct (ltb (key y) (key x)) eqn:E.
    + constructor; [now apply IH|].
      rewrite (insertSorted_Permutation (keyBefore key) x l).
      constructor; [|assumption].
      apply ltb_lt in E. unfold keyLe. qc_order.
    + assert (Hxy : (keyLe key) x y).
      { unfold keyLe. unfold ltb in E. apply bool_decide_eq_false in E.
        qc_order. }
      constructor; [now constructor|].
      constructor; [assumption|].
      eapply Forall_impl; [exact Hy|].
      intros z Hz. unfold keyLe in *. qc_order.
Qed.

Lemma sortBy_sorted (l : list A) : StronglySorted (keyLe key) (sortBy (keyBefore key) l).
Proof.
  induction l as [|x l IH]; simpl; [constructor|].
  now apply insertSorted_sorted.
Qed.

End SortByKey.

(** ** Column detection *)

Lemma max2_ge_r (a b : num) : (b <= max2 a b)%Qc.
Proof.
  unfold max2. destruct (leb a b) eqn:E; [qc_order|].
  unfold leb in E. apply bool_decide_eq_false in E. qc_order.
Qed.

Lemma gapThreshold_pos (pageWidth : num) : (0 < gapThreshold pageWidth)%Qc.
Proof.
  pose proof (max2_ge_r (pageWidth * js 0.08)%js (ofNat 42)) as H.
  fold (gapThreshold pageWidth) in H.
  assert (H42 : (0 < ofNat 42)%Qc) by (vm_compute; reflexivity).
  qc_order.
Qed.

Lemma gap_equal_centers (threshold a b : num) :
  (0 < threshold)%Qc -> a = b -> gtb (a - b)%js threshold = false.
Proof.
  intros Hpos ->. unfold fsub.
  replace (b - b)%Qc with 0%Qc by (unfold num in *; ring).
  change (double 0%Qc) with 0%Qc.
  unfold gtb, ltb. apply bool_decide_eq_false. qc_order.
Qed.

Lemma gtb_spec (a b : num) : gtb a b = true <-> (b < a)%Qc.
Proof. unfold gtb. apply ltb_lt. Qed.

Lemma gtb_false (a b : num) : gtb a b = false <-> ~ (b < a)%Qc.
Proof. unfold gtb, ltb. apply bool_decide_eq_false. Qed.

(** *** The loop of the source computes the recursive split *)

Lemma splitAtGaps_step (threshold : num) (a b : CenterEntry)
    (rest : list CenterEntry) :
  splitAtGaps threshold (a :: b :: rest)
  = if gtb (center b - center a)%js threshold
    then [a] :: splitAtGaps threshold (b :: rest)
    else match splitAtGaps threshold (b :: rest) with
         | cluster :: clusters => (a :: cluster) :: clusters
         | [] => [[a]]
         end.
Proof. reflexivity. Qed.

Lemma splitAtGaps_nonempty (threshold : num) (a : CenterEntry)
    (rest : list CenterEntry) :
  exists cluster clusters,
    splitAtGaps threshold (a :: rest) = cluster :: clusters.
Proof.
  destruct rest as [|b rest]; [simpl; eauto|].
  rewrite splitAtGaps_step. destruct (gtb _ _); [eauto|].
  destruct (splitAtGaps threshold (b :: rest)); eauto.
Qed.

Lemma splitAtGaps_cons (threshold : num) (a : CenterEntry)
    (rest : list CenterEntry) :
  splitAtGaps threshold (a :: rest) = growCluster threshold a [a] rest.
Proof.
  enough (H : forall rest prev pre,
             growCluster threshold prev (pre ++ [prev]) rest
             = prependTo pre (splitAtGaps threshold (prev :: rest))).
  { specialize (H rest a []). cbn [app] in H. rewrite H.
    destruct (splitAtGaps_nonempty threshold a rest) as (c & cs & ->).
    reflexivity. }
  clear a rest. intros rest. induction rest as [|b rest IH]; intros prev pre.
  - reflexivity.
  - cbn [growCluster]. rewrite splitAtGaps_step.
    destruct (gtb (center b - center prev)%js threshold).
    + cbn [prependTo]. f_equal. specialize (IH b []). cbn [app] in IH.
      rewrite IH.
      destruct (splitAtGaps_nonempty threshold b rest) as (c & cs & ->).
      reflexivity.
    + rewrite IH.
      destruct (splitAtGaps_nonempty threshold b rest) as (c & cs & ->).
      cbn [prependTo]. now rewrite <- app_assoc.
Qed.

Lemma clusterStep_fold (threshold : num) (centers : list CenterEntry) :
  forall rest done prev clusters current,
    centers = done ++ rest ->
    last done = Some prev ->
    current <> [] ->
    exists clusters' current',
      fold_left (clusterStep centers threshold)
                (imap (fun i x => (length done + i, x)) rest)
                (clusters, current) = (clusters', current')
      /\ current' <> []
      /\ clusters' ++ [current']
         = clusters ++ growCluster threshold prev current rest.
Proof.
  intros rest. induction rest as [|b rest IH];
    intros done prev clusters current Hc Hlast Hne.
  - exists clusters, current. auto.
  - rewrite imap_cons. cbn [fold_left].
    assert (Hlen : length done <> 0).
    { destruct done; [discriminate|simpl; lia]. }
    assert (Hprev : centers !! (length done + 0 - 1) = Some prev).
    { subst centers. rewrite lookup_app_l by lia.
      rewrite last_lookup in Hlast.
      replace (length done + 0 - 1) with (Nat.pred (length done)) by lia.
      exact Hlast. }
    unfold clusterStep at 2.
    destruct (length done + 0 =? 0) eqn:E0; [apply Nat.eqb_eq in E0; lia|].
    rewrite Hprev. cbn [growCluster].
    assert (Hext : imap ((fun i x => (length done + i, x)) ∘ S) rest
                   = imap (fun i x => (length (done ++ [b]) + i, x)) rest).
    { apply imap_ext. intros i x _. simpl. rewrite length_app. simpl.
      f_equal. lia. }
    rewrite Hext.
    assert (Hc' : centers = (done ++ [b]) ++ rest)
      by (now rewrite <- app_assoc).
    assert (Hl' : last (done ++ [b]) = Some b) by apply last_snoc.
    destruct (gtb (center b - center prev)%js threshold).
    + destruct (IH (done ++ [b]) b (clusters ++ [current]) [b] Hc' Hl')
        as (cl & cur & Hf & Hn & Heq); [discriminate|].
      exists cl, cur. repeat split; auto.
      rewrite Heq. now rewrite <- app_assoc.
    + destruct (IH (done ++ [b]) b clusters (current ++ [b]) Hc' Hl')
        as (cl & cur & Hf & Hn & Heq).
      { destruct current; discriminate. }
      exists cl, cur. auto.
Qed.

Lemma clusterCenters_splitAtGaps (threshold : num)
    (centers : list CenterEntry) :
  clusterCenters centers threshold = splitAtGaps threshold centers.
Proof.
  unfold clusterCenters, indexed. destruct centers as [|a rest].
  - reflexivity.
  - rewrite imap_cons. cbn [fold_left]. unfold clusterStep at 2.
    cbn [Nat.eqb app].
    destruct (clusterStep_fold threshold (a :: rest) rest [a] a [] [a])
      as (cl & cur & Hf & Hn & Heq); try reflexivity; try discriminate.
    assert (Hext : imap ((fun i x => (i, x)) ∘ S) rest
                   = imap (fun i x => (length [a] + i, x)) rest).
    { apply imap_ext. intros i x _. reflexivity. }
    rewrite Hext, Hf.
    destruct cur as [|c cur]; [congruence|]. cbn [length Nat.ltb Nat.leb].
    rewrite Heq. cbn [app]. symmetry. apply splitAtGaps_cons.
Qed.

(** *** Clusters of two sorted arrangements of the same entries *)

Lemma sameEntries_refl (c : list CenterEntry) : sameEntries c c.
Proof. split; reflexivity. Qed.

Lemma sameEntries_sym (c c' : list CenterEntry) :
  sameEntries c c' -> sameEntries c' c.
Proof. intros [H1 H2]. split; now symmetry. Qed.

Lemma sameEntries_trans (c1 c2 c3 : list CenterEntry) :
  sameEntries c1 c2 -> sameEntries c2 c3 -> sameEntries c1 c3.
Proof.
  intros [H1 H2] [H3 H4]. split; [now rewrite H1|congruence].
Qed.

Lemma sameEntries_cons (a : CenterEntry) (c c' : list CenterEntry) :
  sameEntries c c' -> sameEntries (a :: c) (a :: c').
Proof.
  intros [H1 H2]. split; [now constructor|]. cbn [map]. now rewrite H2.
Qed.

Lemma sameEntries_swap (x a : CenterEntry) (c : list CenterEntry) :
  center x = center a -> sameEntries (x :: a :: c) (a :: x :: c).
Proof.
  intros Hc. split; [apply perm_swap|]. cbn [map]. now rewrite Hc.
Qed.

Lemma Forall2_sameEntries_refl (cs : list (list CenterEntry)) :
  Forall2 sameEntries cs cs.
Proof. induction cs; constructor; auto using sameEntries_refl. Qed.

Lemma Forall2_sameEntries_sym (cs cs' : list (list CenterEntry)) :
  Forall2 sameEntries cs cs' -> Forall2 sameEntries cs' cs.
Proof. induction 1; constructor; auto using sameEntries_sym. Qed.

Lemma Forall2_sameEntries_trans (cs1 cs2 cs3 : list (list CenterEntry)) :
  Forall2 sameEntries cs1 cs2 -> Forall2 sameEntries cs2 cs3 ->
  Forall2 sameEntries cs1 cs3.
Proof.
  intros H. revert cs3. induction H as [|c1 c2 cs1 cs2 Hc _ IH]; intros cs3 H3.
  - inversion H3. constructor.
  - inversion H3; subst. constructor; [|now apply IH].
    eapply sameEntries_trans; eassumption.
Qed.

Section SameClusters.
Context (threshold : num) (Hpos : (0 < threshold)%Qc).

Lemma sameClusters_refl (l : list CenterEntry) : sameClusters threshold l l.
Proof. split; [apply Forall2_sameEntries_refl|reflexivity]. Qed.

Lemma sameClusters_sym (l l' : list CenterEntry) :
  sameClusters threshold l l' -> sameClusters threshold l' l.
Proof.
  intros [H1 H2]. split; [now apply Forall2_sameEntries_sym|now symmetry].
Qed.

Lemma sameClusters_trans (l1 l2 l3 : list CenterEntry) :
  sameClusters threshold l1 l2 -> sameClusters threshold l2 l3 ->
  sameClusters threshold l1 l3.
Proof.
  intros [H1 H2] [H3 H4]. split; [|congruence].
  eapply Forall2_sameEntries_trans; eassumption.
Qed.

Lemma sameClusters_cons (a : CenterEntry) (l l' : list CenterEntry) :
  sameClusters threshold l l' ->
  sameClusters threshold (a :: l) (a :: l').
Proof.
  intros [H1 H2]. split; [|reflexivity].
  destruct l as [|b r], l' as [|b' r']; try discriminate H2.
  - repeat constructor.
  - cbn in H2. injection H2 as Hc.
    rewrite !splitAtGaps_step, Hc.
    destruct (gtb (center b' - center a)%js threshold).
    + constructor; [apply sameEntries_refl|exact H1].
    + destruct (splitAtGaps_nonempty threshold b r) as (c & cs & E).
      destruct (splitAtGaps_nonempty threshold b' r') as (c' & cs' & E').
      rewrite E, E' in *. inversion H1; subst.
      constructor; [now apply sameEntries_cons|assumption].
Qed.

Lemma sameClusters_swap (x a : CenterEntry) (l : list CenterEntry) :
  center x = center a ->
  sameClusters threshold (x :: a :: l) (a :: x :: l).
Proof.
  intros Hc. split; [|cbn; congruence].
  rewrite (splitAtGaps_step threshold x a), (splitAtGaps_step threshold a x).
  rewrite (gap_equal_centers threshold (center a) (center x)) by auto.
  rewrite (gap_equal_centers threshold (center x) (center a)) by auto.
  destruct l as [|b r].
  - cbn. constructor; [now apply sameEntries_swap|constructor].
  - rewrite (splitAtGaps_step threshold a b), (splitAtGaps_step threshold x b).
    rewrite Hc.
    destruct (gtb (center b - center a)%js threshold).
    + constructor; [now apply sameEntries_swap|apply Forall2_sameEntries_refl].
    + destruct (splitAtGaps_nonempty threshold b r) as (c & cs & ->).
      constructor; [now apply sameEntries_swap|apply Forall2_sameEntries_refl].
Qed.

Lemma sameClusters_move (a : CenterEntry) (p q : list CenterEntry) :
  Forall (fun y => center y = center a) p ->
  sameClusters threshold (p ++ a :: q) (a :: p ++ q).
Proof.
  induction p as [|y p IH]; intros Hp.
  - apply sameClusters_refl.
  - apply Forall_cons in Hp as [Hy Hp]. cbn [app].
    eapply sameClusters_trans.
    + apply sameClusters_cons, IH, Hp.
    + now apply sameClusters_swap.
Qed.

Lemma sameClusters_sorted (s1 : list CenterEntry) :
  forall s2,
    StronglySorted (keyLe center) s1 ->
    StronglySorted (keyLe center) s2 ->
    Permutation s1 s2 ->
    sameClusters threshold s1 s2.
Proof.
  induction s1 as [|a s1 IH]; intros s2 Hs1 Hs2 Hperm.
  - apply Permutation_nil in Hperm as ->. apply sameClusters_refl.
  - assert (Hin : a ∈ s2).
    { rewrite <- Hperm. apply list_elem_of_here. }
    apply list_elem_of_split in Hin as (p & q & ->).
    apply StronglySorted_inv in Hs1 as [Hs1 Ha].
    assert (Hp : Forall (fun y => center y = center a) p).
    { apply Forall_forall. intros y Hy.
      assert (Hle : keyLe center y a).
      { eapply (StronglySorted_app_1_elem_of _ p (a :: q)); eauto.
        apply list_elem_of_here. }
      assert (Hge : keyLe center a y).
      { assert (Hy1 : y ∈ a :: s1).
        { rewrite Hperm. apply elem_of_app. now left. }
        apply elem_of_cons in Hy1 as [->|Hy1]; [unfold keyLe; qc_order|].
        rewrite Forall_forall in Ha. now apply Ha. }
      unfold keyLe in *. qc_order. }
    apply sameClusters_sym. eapply sameClusters_trans.
    + now apply sameClusters_move.
    + apply sameClusters_cons, sameClusters_sym, IH; auto.
      * apply StronglySorted_app in Hs2 as (H1 & H2 & H3).
        apply StronglySorted_inv in H3 as [H3 _].
        apply StronglySorted_app. repeat split; auto.
        intros x1 Hx1 x2 Hx2. apply H1; auto. now apply list_elem_of_further.
      * now apply Permutation_cons_app_inv in Hperm.
Qed.

End SameClusters.

(** *** A column depends on the entries of its cluster and on the order of
    their centers *)

Lemma fold_min2_spec (rest : list num) :
  forall acc,
    let m := fold_left min2 rest acc in
    (m = acc \/ m ∈ rest) /\ (m <= acc)%Qc /\ Forall (fun x => (m <= x)%Qc) rest.
Proof.
  induction rest as [|y rest IH]; intros acc; cbn [fold_left].
  - repeat split; [now left|qc_order|constructor].
  - destruct (IH (min2 acc y)) as (Hin & Hle & Hall).
    assert (Hm : (min2 acc y <= acc)%Qc /\ (min2 acc y <= y)%Qc
                 /\ (min2 acc y = acc \/ min2 acc y = y)).
    { unfold min2. destruct (leb acc y) eqn:E.
      - apply leb_le in E. repeat split; [qc_order|qc_order|now left].
      - unfold leb in E. apply bool_decide_eq_false in E.
        repeat split; [qc_order|qc_order|now right]. }
    destruct Hm as (Ha & Hy & Hor). repeat split.
    + destruct Hin as [Hin|Hin].
      * destruct Hor as [Hor|Hor]; [left; congruence|right].
        rewrite Hin, Hor. apply list_elem_of_here.
      * right. now apply list_elem_of_further.
    + qc_order.
    + constructor; [qc_order|exact Hall].
Qed.

Lemma fold_max2_spec (rest : list num) :
  forall acc,
    let m := fold_left max2 rest acc in
    (m = acc \/ m ∈ rest) /\ (acc <= m)%Qc /\ Forall (fun x => (x <= m)%Qc) rest.
Proof.
  induction rest as [|y rest IH]; intros acc; cbn [fold_left].
  - repeat split; [now left|qc_order|constructor].
  - destruct (IH (max2 acc y)) as (Hin & Hle & Hall).
    assert (Hm : (acc <= max2 acc y)%Qc /\ (y <= max2 acc y)%Qc
                 /\ (max2 acc y = acc \/ max2 acc y = y)).
    { unfold max2. destruct (leb acc y) eqn:E.
      - apply leb_le in E. repeat split; [qc_order|qc_order|now right].
      - unfold leb in E. apply bool_decide_eq_false in E.
        repeat split; [qc_order|qc_order|now left]. }
    destruct Hm as (Ha & Hy & Hor). repeat split.
    + destruct Hin as [Hin|Hin].
      * destruct Hor as [Hor|Hor]; [left; congruence|right].
        rewrite Hin, Hor. apply list_elem_of_here.
      * right. now apply list_elem_of_further.
    + qc_order.
    + constructor; [qc_order|exact Hall].
Qed.

Lemma minOf_spec (x : num) (rest : list num) :
  minOf (x :: rest) ∈ x :: rest
  /\ Forall (fun y => (minOf (x :: rest) <= y)%Qc) (x :: rest).
Proof.
  cbn [minOf]. destruct (fold_min2_spec rest x) as (Hin & Hle & Hall).
  split; [|now constructor].
  destruct Hin as [->|Hin]; [apply list_elem_of_here|].
  now apply list_elem_of_further.
Qed.

Lemma maxOf_spec (x : num) (rest : list num) :
  maxOf (x :: rest) ∈ x :: rest
  /\ Forall (fun y => (y <= maxOf (x :: rest))%Qc) (x :: rest).
Proof.
  cbn [maxOf]. destruct (fold_max2_spec rest x) as (Hin & Hle & Hall).
  split; [|now constructor].
  destruct Hin as [->|Hin]; [apply list_elem_of_here|].
  now apply list_elem_of_further.
Qed.

Lemma minOf_Permutation (l l' : list num) :
  Permutation l l' -> minOf l = minOf l'.
Proof.
  intros Hperm. destruct l as [|x r], l' as [|x' r'].
  - reflexivity.
  - now apply Permutation_nil_cons in Hperm.
  - symmetry in Hperm. now apply Permutation_nil_cons in Hperm.
  - destruct (minOf_spec x r) as [Hin Hall].
    destruct (minOf_spec x' r') as [Hin' Hall'].
    rewrite Forall_forall in Hall, Hall'.
    apply (elem_of_Permutation_proper _ _ _ Hperm) in Hin.
    apply (elem_of_Permutation_proper _ _ _ Hperm) in Hin'.
    specialize (Hall _ Hin'). specialize (Hall' _ Hin). qc_order.
Qed.

Lemma maxOf_Permutation (l l' : list num) :
  Permutation l l' -> maxOf l = maxOf l'.
Proof.
  intros Hperm. destruct l as [|x r], l' as [|x' r'].
  - reflexivity.
  - now apply Permutation_nil_cons in Hperm.
  - symmetry in Hperm. now apply Permutation_nil_cons in Hperm.
  - destruct (maxOf_spec x r) as [Hin Hall].
    destruct (maxOf_spec x' r') as [Hin' Hall'].
    rewrite Forall_forall in Hall, Hall'.
    apply (elem_of_Permutation_proper _ _ _ Hperm) in Hin.
    apply (elem_of_Permutation_proper _ _ _ Hperm) in Hin'.
    specialize (Hall _ Hin'). specialize (Hall' _ Hin). qc_order.
Qed.

Lemma sumCenters_map (c : list CenterEntry) :
  sumCenters c = fold_left fadd (map center c) (ofNat 0).
Proof.
  unfold sumCenters. generalize (ofNat 0).
  induction c as [|x c IH]; intros acc; [reflexivity|].
  cbn [fold_left map]. apply IH.
Qed.

Lemma columnOf_sameEntries (pageWidth : num) (index : nat)
    (c c' : list CenterEntry) :
  sameEntries c c' -> columnOf pageWidth index c = columnOf pageWidth index c'.
Proof.
  intros [Hperm Hcenters]. unfold columnOf.
  rewrite (minOf_Permutation _ (map (fun item => bbox0 (block item)) c'))
    by now apply Permutation_map.
  rewrite (maxOf_Permutation _ (map (fun item => bbox2 (block item)) c'))
    by now apply Permutation_map.
  rewrite !sumCenters_map, Hcenters.
  now rewrite (Permutation_length Hperm).
Qed.

Lemma imap_Forall2 {A B : Type} (R : A -> A -> Prop) (l l' : list A) :
  Forall2 R l l' ->
  forall f : nat -> A -> B,
    (forall i x y, R x y -> f i x = f i y) -> imap f l = imap f l'.
Proof.
  induction 1 as [|x y l l' Hxy _ IH]; intros f Hf; [reflexivity|].
  rewrite !imap_cons. f_equal; [now apply Hf|].
  apply IH. intros i a b Hab. now apply Hf.
Qed.

(** *** The split of the blocks and the split of their entries *)

Lemma splitAtGaps_blocks (threshold : num) (blocks : list TextBlock)
    (clusters : list (list TextBlock)) :
  Spec.GapSplit threshold blocks clusters ->
  clusters = map (map block) (splitAtGaps threshold (map centerOf blocks)).
Proof.
  induction 1 as [|a|a b rest clusters Hgap _ IH
                  |a b rest cluster clusters Hgap _ IH].
  - reflexivity.
  - reflexivity.
  - cbn [map]. rewrite splitAtGaps_step.
    apply gtb_spec in Hgap. cbn [centerOf center].
    unfold Spec.blockCenter in Hgap. rewrite Hgap.
    cbn [map block]. now rewrite IH.
  - cbn [map]. rewrite splitAtGaps_step.
    apply gtb_false in Hgap. cbn [centerOf center].
    unfold Spec.blockCenter in Hgap. rewrite Hgap.
    cbn [map] in IH.
    destruct (splitAtGaps_nonempty threshold (centerOf b) (map centerOf rest))
      as (c & cs & E).
    rewrite E in *. cbn [map] in *. now injection IH as -> ->.
Qed.

Lemma concat_splitAtGaps_entries (threshold : num) (l : list CenterEntry) :
  concat (splitAtGaps threshold l) = l.
Proof.
  induction l as [|a rest IH]; [reflexivity|].
  destruct rest as [|b rest]; [reflexivity|].
  rewrite splitAtGaps_step. destruct (gtb _ _).
  - cbn [concat app]. now rewrite IH.
  - destruct (splitAtGaps_nonempty threshold b rest) as (c & cs & E).
    rewrite E in *. cbn [concat app] in *. now rewrite IH.
Qed.

Lemma columnOf_blocks (pageWidth : num) (index : nat)
    (c : list CenterEntry) :
  Forall (fun e => center e = Spec.blockCenter (block e)) c ->
  columnOf pageWidth index c = columnOfBlocks pageWidth index (map block c).
Proof.
  intros Hc. unfold columnOf, columnOfBlocks.
  rewrite !map_map, length_map, sumCenters_map.
  assert (E : map center c = map (fun x => Spec.blockCenter (block x)) c)
    by (apply map_ext_Forall; exact Hc).
  now rewrite E.
Qed.

Lemma imap_columnOf_blocks (pageWidth : num) (cs : list (list CenterEntry)) :
  Forall (Forall (fun e => center e = Spec.blockCenter (block e))) cs ->
  imap (columnOf pageWidth) cs
  = imap (columnOfBlocks pageWidth) (map (map block) cs).
Proof.
  intros Hall. change (map (map block) cs) with (map block <$> cs).
  rewrite imap_fmap. apply imap_ext. intros i c Hc.
  apply columnOf_blocks. rewrite Forall_forall in Hall. apply Hall.
  eapply list_elem_of_lookup_2. exact Hc.
Qed.

Lemma centerOf_blockCenter (blocks : list TextBlock) :
  Forall (fun e => center e = Spec.blockCenter (block e))
         (map centerOf blocks).
Proof. apply Forall_map, Forall_forall. reflexivity. Qed.

Lemma gapThreshold_columnGap (pageWidth : num) :
  gapThreshold pageWidth = Spec.columnGap pageWidth.
Proof. reflexivity. Qed.

Lemma sorted_centers (sorted : list TextBlock) :
  StronglySorted (fun a b => (Spec.blockCenter a <= Spec.blockCenter b)%Qc)
                 sorted ->
  StronglySorted (keyLe center) (map centerOf sorted).
Proof.
  induction 1 as [|a l _ IH Ha]; [constructor|].
  cbn [map]. constructor; [exact IH|].
  apply Forall_map. eapply Forall_impl; [exact Ha|].
  intros b Hb. exact Hb.
Qed.

(** C9.  Reordering the blocks does not change the result of
    [detectColumns]: the same columns come out, with the same identifiers,
    bounds, centers and block counts.  The columns are those of the clusters
    obtained by splitting the blocks, in the order of their centers
    [(bbox[0] + bbox[2]) / 2], exactly where the gap between two consecutive
    centers exceeds [max(pageWidth * 0.08, 42)]; whichever way blocks with
    equal centers are arranged, cluster [index] gives the column with the
    bounds, center and block count written out below.  All arithmetic is that
    of binary64 numbers. *)
Theorem detectColumns_permutation (blocks blocks' : list TextBlock)
    (pageWidth : num) :
  Permutation blocks blocks' ->
  detectColumns blocks' pageWidth = detectColumns blocks pageWidth
  /\ (blocks <> [] ->
      forall (sorted : list TextBlock) (clusters : list (list TextBlock)),
        Permutation sorted blocks ->
        StronglySorted
          (fun a b => (Spec.blockCenter a <= Spec.blockCenter b)%Qc) sorted ->
        Spec.GapSplit (Spec.columnGap pageWidth) sorted clusters ->
        detectColumns blocks pageWidth
        = imap (fun index cluster =>
                  mkColumn
                    (lit "col-" ++ decimal index)
                    (roundCoord
                       (max2 (ofNat 0)
                             (minOf (map bbox0 cluster) - ofNat 12)%js))
                    (roundCoord
                       (min2 pageWidth
                             (maxOf (map bbox2 cluster) + ofNat 12)%js))
                    (roundCoord
                       (fold_left fadd (map Spec.blockCenter cluster)
                                  (ofNat 0)
                        / ofNat (length cluster))%js)
                    (Some (length cluster)))
               clusters).
Proof.
  intros Hperm. split.
  - unfold detectColumns. rewrite <- (Permutation_length Hperm).
    destruct (length blocks =? 0); [reflexivity|].
    rewrite !clusterCenters_splitAtGaps.
    apply (imap_Forall2 sameEntries).
    + apply sameClusters_sorted.
      * apply gapThreshold_pos.
      * apply (sortBy_sorted center).
      * apply (sortBy_sorted center).
      * rewrite !sortBy_Permutation. apply Permutation_map.
        now symmetry.
    + intros i c c'. apply columnOf_sameEntries.
  - intros Hne sorted clusters Hsorted Hord Hsplit.
    apply splitAtGaps_blocks in Hsplit as ->.
    unfold detectColumns.
    destruct blocks as [|b0 blocks0]; [contradiction|].
    cbn [length Nat.eqb]. rewrite clusterCenters_splitAtGaps.
    rewrite gapThreshold_columnGap.
    set (threshold := Spec.columnGap pageWidth).
    assert (Hsame :
              Forall2 sameEntries
                (splitAtGaps threshold
                   (sortBy byCenter (map centerOf (b0 :: blocks0))))
                (splitAtGaps threshold (map centerOf sorted))).
    { apply sameClusters_sorted.
      - apply gapThreshold_pos.
      - apply (sortBy_sorted center).
      - now apply sorted_centers.
      - rewrite sortBy_Permutation. apply Permutation_map. now symmetry. }
    rewrite (imap_Forall2 sameEntries _ _ Hsame (columnOf pageWidth)
               (fun i c c' => columnOf_sameEntries pageWidth i c c')).
    assert (Hall :
              Forall (Forall (fun e => center e = Spec.blockCenter (block e)))
                     (splitAtGaps threshold (map centerOf sorted))).
    { apply Forall_forall. intros c Hc. apply Forall_forall. intros e He.
      pose proof (centerOf_blockCenter sorted) as H.
      rewrite Forall_forall in H. apply H.
      rewrite <- (concat_splitAtGaps_entries threshold (map centerOf sorted)).
      apply list_elem_of_In, in_concat. exists c.
      split; now apply list_elem_of_In. }
    rewrite (imap_columnOf_blocks pageWidth _ Hall). reflexivity.
Qed.

Lemma detectColumns_permutation_witness :
  let a := mkBlock (lit "pg1-b0") (lit "left")
                   (js 6.04, ofNat 0, js 16.04, ofNat 10) in
  let b := mkBlock (lit "pg1-b1") (lit "right")
                   (js 54.04, ofNat 0, js 64.04, ofNat 10) in
  Permutation [a; b] [b; a]
  /\ detectColumns [b; a] (ofNat 600) = detectColumns [a; b] (ofNat 600)
  /\ Spec.GapSplit (Spec.columnGap (ofNat 600)) [a; b] [[a]; [b]]
  /\ map (fun column => (col_start column, col_end column, col_center column,
                         blockCount column))
         (detectColumns [b; a] (ofNat 600))
     = [(ofNat 0, js 28.04, js 11.04, Some 1);
        (js 42.04, js 76.04, js 59.04, Some 1)].
Proof.
  intros a b. split; [apply perm_swap|].
  destruct (detectColumns_permutation [a; b] [b; a] (ofNat 600)
              (perm_swap b a [])) as [Hsame Hsplit].
  split; [exact Hsame|].
  assert (Hgap : Spec.GapSplit (Spec.columnGap (ofNat 600)) [a; b] [[a]; [b]]).
  { apply Spec.gap_split_cut; [|constructor].
    apply ltb_lt. vm_compute. reflexivity. }
  split; [exact Hgap|].
  assert (Hsorted :
            StronglySorted
              (fun x y => (Spec.blockCenter x <= Spec.blockCenter y)%Qc)
              [a; b]).
  { repeat constructor. apply leb_le. vm_compute. reflexivity. }
  rewrite Hsame.
  rewrite (Hsplit ltac:(discriminate) [a; b] [[a]; [b]]
                  (Permutation_refl _) Hsorted Hgap).
  cbn [imap map col_start col_end col_center blockCount].
  repeat f_equal; apply Qc_is_canon; vm_compute; reflexivity.
Defined.

(** ** Table detection *)

Lemma tableStep_fold (minColumns : nat) (lines : list Line) :
  forall tables current,
    (let '(tables', current') :=
       fold_left (tableStep minColumns) lines (tables, current) in
     if 0 <? length current' then tables' ++ [current'] else tables')
    = tables ++ runsFrom (Spec.tableLine minColumns) current lines.
Proof.
  induction lines as [|line lines IH]; intros tables current.
  - cbn [fold_left runsFrom]. destruct (0 <? length current).
    + reflexivity.
    + now rewrite app_nil_r.
  - cbn [fold_left runsFrom]. unfold tableStep at 2, Spec.tableLine at 1.
    destruct (minColumns <=? length (List.filter meaningful (line_blocks line))).
    + apply IH.
    + destruct current as [|c current]; cbn [length Nat.ltb Nat.leb].
      * rewrite IH. reflexivity.
      * rewrite IH. now rewrite <- app_assoc.
Qed.

Lemma detectTableRows_runsFrom (lines : list Line) (minColumns : nat) :
  detectTableRows lines minColumns
  = imap tableOf (runsFrom (Spec.tableLine minColumns) [] lines).
Proof.
  unfold detectTableRows.
  pose proof (tableStep_fold minColumns lines [] []) as H.
  destruct (fold_left (tableStep minColumns) lines ([], [])) as [tables current].
  cbn [app] in H. now rewrite H.
Qed.

Lemma runsFrom_RunsOf {A : Type} (p : A -> bool) (lines : list A) :
  forall current,
    Forall (fun x => p x = true) current ->
    Spec.RunsOf p (current ++ lines) (runsFrom p current lines).
Proof.
  induction lines as [|x rest IH]; intros current Hall.
  - rewrite app_nil_r. cbn [runsFrom]. destruct current as [|c current].
    + constructor.
    + cbn [length Nat.ltb Nat.leb]. now apply Spec.runs_last.
  - cbn [runsFrom]. destruct (p x) eqn:E.
    + replace (current ++ x :: rest) with ((current ++ [x]) ++ rest)
        by now rewrite <- app_assoc.
      apply IH. apply Forall_app. split; [assumption|]. now repeat constructor.
    + destruct current as [|c current].
      * cbn [length Nat.ltb Nat.leb app]. apply Spec.runs_skip; [assumption|].
        apply (IH []). constructor.
      * cbn [length Nat.ltb Nat.leb].
        change ([c :: current] ++ runsFrom p [] rest)
          with ((c :: current) :: runsFrom p [] rest).
        apply Spec.runs_then; try assumption; [discriminate|].
        apply (IH []). constructor.
Qed.

Lemma runsFrom_app {A : Type} (p : A -> bool) (run rest : list A) :
  forall current,
    Forall (fun x => p x = true) run ->
    runsFrom p current (run ++ rest) = runsFrom p (current ++ run) rest.
Proof.
  induction run as [|x run IH]; intros current Hall.
  - now rewrite app_nil_r.
  - apply Forall_cons in Hall as [Hx Hall]. cbn [app runsFrom]. rewrite Hx.
    rewrite IH by assumption. now rewrite <- app_assoc.
Qed.

Lemma RunsOf_unique {A : Type} (p : A -> bool) (lines : list A)
    (runs : list (list A)) :
  Spec.RunsOf p lines runs -> runs = runsFrom p [] lines.
Proof.
  induction 1 as [|x l runs Hx _ IH|run Hne Hall|run x l runs Hne Hall Hx _ IH].
  - reflexivity.
  - cbn [runsFrom]. now rewrite Hx.
  - rewrite <- (app_nil_r run) at 2. rewrite runsFrom_app by assumption.
    cbn [app runsFrom]. destruct run; [contradiction|reflexivity].
  - rewrite runsFrom_app by assumption. cbn [app runsFrom]. rewrite Hx.
    destruct run; [contradiction|]. cbn [length Nat.ltb Nat.leb app].
    now rewrite IH.
Qed.

(** C2, as amended.  [detectTableRows] produces one table for each maximal
    run of consecutive lines that each have at least [minColumns] (3 by
    default) blocks with non-empty text, whatever the length of the run, one
    line included; the table's rows are the lines of the run, and the cells
    of a row are all the blocks of its line sorted by X. *)
Theorem detectTableRows_maximal_runs (lines : list Line) (minColumns : nat) :
  exists runs : list (list Line),
    Spec.RunsOf (Spec.tableLine minColumns) lines runs
    /\ (forall runs',
          Spec.RunsOf (Spec.tableLine minColumns) lines runs' -> runs' = runs)
    /\ detectTableRows lines minColumns
       = imap (fun index run =>
                 mkTable (lit "table-" ++ decimal (index + 1))
                         (map (fun row =>
                                 mkRow (roundCoord (line_y row))
                                       (map (fun b => mkCell (block_text b) (bbox b))
                                            (sortBy byX (line_blocks row))))
                              run))
              runs.
Proof.
  exists (runsFrom (Spec.tableLine minColumns) [] lines). repeat split.
  - apply (runsFrom_RunsOf _ lines []). constructor.
  - apply RunsOf_unique.
  - apply detectTableRows_runsFrom.
Qed.

(** C2, counterexample.  A single line with three non-empty blocks is a run
    of fewer than three lines, and [detectTableRows] makes a table of it. *)
Lemma detectTableRows_single_line :
  let cell (t : string) (x : nat) :=
    mkBlock (lit "pg1-b0") (lit t) (ofNat x, ofNat 0, ofNat (x + 40), ofNat 10) in
  let line :=
    mkLine (lit "line-1") (ofNat 0) (ofNat 10) (ofNat 0) (ofNat 240)
           [cell "Item" 0; cell "Qty" 100; cell "Price" 200] in
  Spec.RunsOf (Spec.tableLine 3) [line] [[line]]
  /\ length [line] < 3
  /\ detectTableRows [line] 3 = [tableOf 0 [line]]
  /\ ~ Spec.tablesOfLongRuns.
Proof.
  intros cell line.
  assert (Hruns : Spec.RunsOf (Spec.tableLine 3) [line] [[line]]).
  { apply Spec.runs_last; [discriminate|]. repeat constructor. }
  assert (Hcode : detectTableRows [line] 3 = [tableOf 0 [line]])
    by reflexivity.
  split; [exact Hruns|]. split; [simpl; lia|]. split; [exact Hcode|].
  intros Hclaim. specialize (Hclaim [line] [[line]] Hruns).
  rewrite Hcode in Hclaim. discriminate Hclaim.
Qed.

(** ** Text Decoder *)

Lemma scoreGt_irrefl (a : score) : scoreGt a a = false.
Proof. destruct a; [reflexivity|]. apply ltb_irrefl. Qed.

Lemma scoreGt_neg_infinity (a : score) : scoreGt NegInfinity a = false.
Proof. reflexivity. Qed.

(** [b < a] and [c <= b] give [c < a]. *)
Lemma scoreGt_le_trans (a b c : score) :
  scoreGt a b = true -> scoreGt c b = false -> scoreGt a c = true.
Proof.
  destruct a as [|x], b as [|y], c as [|z]; cbn; try congruence.
  unfold gtb. rewrite !ltb_lt. unfold ltb. rewrite bool_decide_eq_false.
  intros. qc_order.
Qed.

(** [a <= b] and [b <= c] give [a <= c]. *)
Lemma scoreGt_false_trans (a b c : score) :
  scoreGt a b = false -> scoreGt b c = false -> scoreGt a c = false.
Proof.
  destruct a as [|x], b as [|y], c as [|z]; cbn; try congruence.
  unfold gtb, ltb. rewrite !bool_decide_eq_false. intros. qc_order.
Qed.

Lemma scoreTextCandidate_empty : scoreTextCandidate [] = NegInfinity.
Proof. reflexivity. Qed.

Lemma collapseFrom_nonempty (s : jsstring) :
  s <> [] -> collapseFrom false s <> [].
Proof.
  destruct s as [|c s]; [congruence|]. intros _. cbn.
  destruct (isSpace c); discriminate.
Qed.

Lemma scoreTextCandidate_finite (t : jsstring) :
  t <> [] -> exists q, scoreTextCandidate t = Finite q.
Proof.
  intros Hne. unfold scoreTextCandidate.
  destruct t as [|c t]; [congruence|]. cbn [truthy negb].
  pose proof (collapseFrom_nonempty (c :: t) Hne) as Hc.
  unfold collapseWhitespace.
  destruct (collapseFrom false (c :: t)) as [|d r]; [congruence|].
  cbn [length Nat.eqb]. eauto.
Qed.

Lemma scoreGt_asym (a b : score) :
  scoreGt a b = true -> scoreGt b a = false.
Proof.
  destruct a as [|x], b as [|y]; cbn; try congruence.
  unfold gtb. rewrite ltb_lt. unfold ltb. rewrite bool_decide_eq_false.
  intros. qc_order.
Qed.

Lemma firstBest_snoc_le (texts : list jsstring) (best t : jsstring) :
  firstBestBy texts best ->
  scoreGt (scoreTextCandidate t) (scoreTextCandidate best) = false ->
  firstBestBy (texts ++ [t]) best.
Proof.
  intros (i & Hi & Hmax & Hfirst) Ht. exists i. split; [|split].
  - now apply lookup_app_l_Some.
  - intros u Hu. apply elem_of_app in Hu as [Hu|Hu]; [now apply Hmax|].
    apply list_elem_of_singleton in Hu as ->. exact Ht.
  - intros j u Hj Hu. apply (Hfirst j u Hj).
    apply lookup_lt_Some in Hi. now rewrite lookup_app_l in Hu by lia.
Qed.

Lemma firstBest_snoc_new (texts : list jsstring) (t : jsstring) :
  (forall u, u ∈ texts ->
     scoreGt (scoreTextCandidate t) (scoreTextCandidate u) = true) ->
  firstBestBy (texts ++ [t]) t.
Proof.
  intros Hnew. exists (length texts). split; [|split].
  - now apply list_lookup_middle.
  - intros u Hu. apply elem_of_app in Hu as [Hu|Hu].
    + now apply scoreGt_asym, Hnew.
    + apply list_elem_of_singleton in Hu as ->. apply scoreGt_irrefl.
  - intros j u Hj Hu. rewrite lookup_app_l in Hu by lia.
    apply Hnew. eapply list_elem_of_lookup_2, Hu.
Qed.

(** The invariant of the candidate loop, and its step. *)
Lemma considerText_step (texts : list jsstring) (best : Best) (t : jsstring) :
  (Forall (fun u => u = []) texts /\ best = (NegInfinity, [])
   \/ snd best <> [] /\ fst best = scoreTextCandidate (snd best)
      /\ firstBestBy texts (snd best)) ->
  Forall (fun u => u = []) (texts ++ [t])
  /\ considerText best t = (NegInfinity, [])
  \/ snd (considerText best t) <> []
     /\ fst (considerText best t) = scoreTextCandidate (snd (considerText best t))
     /\ firstBestBy (texts ++ [t]) (snd (considerText best t)).
Proof.
  intros Inv. unfold considerText. destruct t as [|c t]; cbn [truthy negb].
  - destruct Inv as [[Hall Hb]|(Hne & Hs & Hbest)].
    + left. split; [|assumption]. apply Forall_app. split; auto.
    + right. split; [assumption|]. split; [assumption|].
      now apply firstBest_snoc_le.
  - right.
    destruct (scoreTextCandidate_finite (c :: t)) as [q Hq]; [discriminate|].
    destruct Inv as [[Hall Hb]|(Hne & Hs & Hbest)].
    + subst best. cbn [fst]. rewrite Hq. cbn [scoreGt snd fst].
      split; [discriminate|]. split; [now rewrite Hq|].
      apply firstBest_snoc_new. intros u Hu.
      rewrite Forall_forall in Hall. rewrite (Hall u Hu), Hq. reflexivity.
    + destruct (scoreGt (scoreTextCandidate (c :: t)) (fst best)) eqn:E.
      * cbn [snd fst]. split; [discriminate|]. split; [reflexivity|].
        apply firstBest_snoc_new. intros u Hu.
        destruct Hbest as (i & Hi & Hmax & Hfirst).
        eapply scoreGt_le_trans; [rewrite Hs in E; exact E|]. now apply Hmax.
      * split; [assumption|]. split; [assumption|].
        apply firstBest_snoc_le; [assumption|]. now rewrite <- Hs.
Qed.

Lemma considerText_fold (texts : list jsstring) :
  let best := fold_left considerText texts (NegInfinity, []) in
  Forall (fun t => t = []) texts /\ best = (NegInfinity, [])
  \/ snd best <> [] /\ fst best = scoreTextCandidate (snd best)
     /\ firstBestBy texts (snd best).
Proof.
  induction texts as [|t texts IH] using rev_ind; cbn zeta.
  - left. split; [constructor|reflexivity].
  - rewrite fold_left_app. cbn [fold_left]. now apply considerText_step.
Qed.

(** The score of a text that is not empty is the formula of the
    specification. *)
Lemma scoreTextCandidate_formula (t : jsstring) :
  t <> [] -> scoreTextCandidate t = Finite (Spec.candidateScore t).
Proof.
  intros Hne. unfold scoreTextCandidate, Spec.candidateScore.
  destruct t as [|c t]; [congruence|]. cbn [truthy negb].
  pose proof (collapseFrom_nonempty (c :: t) Hne) as Hc.
  unfold collapseWhitespace in *.
  destruct (collapseFrom false (c :: t)) as [|d r]; [congruence|].
  cbn [length Nat.eqb]. reflexivity.
Qed.

Lemma scoreGt_Finite (x y : num) : scoreGt (Finite x) (Finite y) = gtb x y.
Proof. reflexivity. Qed.

Lemma firstBestBy_firstBest (texts : list jsstring) (best : jsstring) :
  best <> [] -> firstBestBy texts best -> Spec.firstBest texts best.
Proof.
  intros Hne (i & Hi & Hmax & Hfirst). exists i.
  split; [exact Hi|]. split; [exact Hne|].
  rewrite (scoreTextCandidate_formula best Hne) in Hmax, Hfirst.
  generalize dependent (Spec.candidateScore best). intros top Hmax Hfirst.
  split.
  - intros t Ht Htne. specialize (Hmax t Ht).
    rewrite (scoreTextCandidate_formula t Htne) in Hmax.
    generalize dependent (Spec.candidateScore t). intros x Hmax.
    rewrite scoreGt_Finite in Hmax. apply gtb_false in Hmax. qc_order.
  - intros j t Hj Ht Htne. specialize (Hfirst j t Hj Ht).
    rewrite (scoreTextCandidate_formula t Htne) in Hfirst.
    generalize dependent (Spec.candidateScore t). intros x Hfirst.
    rewrite scoreGt_Finite in Hfirst. apply gtb_spec in Hfirst. exact Hfirst.
Qed.

Lemma decodeTextBuffer_fold (decoder : TextDecoder) (bytes : buffer) :
  fold_left
    (fun best encoding =>
       considerText best (decodeUsing decoder bytes encoding false))
    candidates (NegInfinity, [])
  = fold_left considerText (candidateTexts decoder bytes) (NegInfinity, []).
Proof. reflexivity. Qed.

(** C5, as amended.  [decodeTextBuffer] first decodes the buffer as strict
    UTF-8 and returns that text when it is not empty.  Otherwise (strict
    decoding failed or gave the empty string) it decodes the buffer under
    UTF-8, UTF-16LE, UTF-16BE, Windows-1251, KOI8-R and IBM866, in this
    order, scores each text that is not empty by [length/50 + cyrillic*0.6
    - mojibake*4 - controls*6] on the white-space-collapsed text, in
    binary64 arithmetic, and returns the text of the highest score, the
    earliest one among those whose computed scores are equal; when every
    candidate is empty it returns the empty string. *)
Theorem decodeTextBuffer_spec (decoder : TextDecoder) (bytes : buffer) :
  let strictUtf8 := decodeUsing decoder bytes "utf-8" true in
  let texts := candidateTexts decoder bytes in
  let result := decodeTextBuffer decoder (Some bytes) in
  texts = map (fun encoding => decodeUsing decoder bytes encoding false)
              ["utf-8"; "utf-16le"; "utf-16be"; "windows-1251"; "koi8-r";
               "ibm866"]%string
  /\ (strictUtf8 <> [] /\ result = strictUtf8
      \/ strictUtf8 = [] /\ Forall (fun t => t = []) texts /\ result = []
      \/ strictUtf8 = [] /\ result <> [] /\ Spec.firstBest texts result).
Proof.
  intros strictUtf8 texts result. split; [reflexivity|].
  unfold result, decodeTextBuffer. fold strictUtf8.
  destruct strictUtf8 as [|c s] eqn:E; cbn [truthy].
  - right. rewrite decodeTextBuffer_fold. fold texts.
    destruct (considerText_fold texts) as [[Hall Hb]|(Hne & _ & Hbest)].
    + left. rewrite Hb. auto.
    + right. split; [reflexivity|]. split; [exact Hne|].
      now apply firstBestBy_firstBest.
  - left. split; [discriminate|reflexivity].
Qed.

(** C5, counterexample.  On a buffer that is only a UTF-8 byte order mark,
    strict UTF-8 decoding succeeds with the empty string, and the function
    returns the Windows-1251 reading of the three bytes instead. *)
Lemma decodeTextBuffer_bom_only :
  bomDecoder "utf-8" true bomBuffer = Some []
  /\ decodeTextBuffer bomDecoder (Some bomBuffer) = [0x43F; 0xBB; 0x457]%N
  /\ ~ Spec.strictUtf8First.
Proof.
  assert (H : decodeTextBuffer bomDecoder (Some bomBuffer)
              = [0x43F; 0xBB; 0x457]%N) by (vm_compute; reflexivity).
  split; [reflexivity|]. split; [exact H|].
  intros Hclaim. specialize (Hclaim bomDecoder bomBuffer [] eq_refl).
  rewrite H in Hclaim. discriminate Hclaim.
Qed.

(** ** Adaptive per-page OCR patch *)

Lemma lookup_map {A B : Type} (f : A -> B) (l : list A) (i : nat) :
  map f l !! i = f <$> l !! i.
Proof.
  revert i. induction l as [|x l IH]; intros [|i]; simpl; auto.
Qed.

Lemma lowQualityPages_low (pages : list jsstring) (n : nat) :
  n ∈ lowQualityPages pages ->
  exists page,
    1 <= n /\ pages !! (n - 1) = Some page
    /\ ltb (computeQuality page) OCR_QUALITY_THRESHOLD = true.
Proof.
  unfold lowQualityPages. intros Hn.
  apply list_elem_of_In, in_map_iff in Hn as ([score k] & Hk & Hin).
  cbn in Hk. subst k. apply filter_In in Hin as [Hin Hlow]. cbn in Hlow.
  apply list_elem_of_In, elem_of_lookup_imap in Hin as (i & s & Heq & Hi).
  injection Heq as -> ->. rewrite lookup_map in Hi.
  destruct (pages !! i) as [page|] eqn:E; [|discriminate].
  injection Hi as <-. exists page.
  replace (i + 1 - 1) with i by lia. repeat split; [lia|assumption|assumption].
Qed.

Lemma dedupeFrom_subset (xs : list nat) :
  forall seen x, x ∈ dedupeFrom seen xs -> x ∈ xs.
Proof.
  induction xs as [|y xs IH]; intros seen x; cbn [dedupeFrom].
  - auto.
  - destruct (bool_decide (y ∈ seen)).
    + intros H. apply list_elem_of_further. eapply IH, H.
    + intros H. apply elem_of_cons in H as [->|H].
      * apply list_elem_of_here.
      * apply list_elem_of_further. eapply IH, H.
Qed.

Lemma ocrTargets_subset (pagesToProcess : list nat) (n : nat) :
  n ∈ ocrTargets pagesToProcess -> n ∈ pagesToProcess.
Proof.
  unfold ocrTargets. intros H.
  apply (proj1 (elem_of_Permutation_proper n _ _ (sortBy_Permutation Nat.ltb _))) in H.
  apply dedupeFrom_subset in H.
  apply list_elem_of_In, filter_In in H as [H _]. now apply list_elem_of_In.
Qed.

Lemma ocrPageStep_keys (doc : list OcrPage) (targets : list nat) :
  forall results trace results' trace' n,
    fold_left (ocrPageStep doc) targets (results, trace) = (results', trace') ->
    n ∈ map fst results' ->
    n ∈ map fst results \/ n ∈ targets.
Proof.
  induction targets as [|k targets IH]; intros results trace results' trace' n;
    cbn [fold_left].
  - intros [= <- <-]. now left.
  - intros Hfold H.
    assert (Hstep : exists results1 trace1,
               ocrPageStep doc (results, trace) k = (results1, trace1)
               /\ (results1 = results \/ exists t, results1 = results ++ [(k, t)])).
    { unfold ocrPageStep. destruct (length doc <? k); [eauto|].
      destruct (doc !! (k - 1)) as [[m| |m|dataText]|]; eauto.
      destruct (truthy (ocrText dataText)); eauto 6. }
    destruct Hstep as (results1 & trace1 & Hs & Hr). rewrite Hs in Hfold.
    destruct (IH _ _ _ _ n Hfold H) as [H1|H1];
      [|right; now apply list_elem_of_further].
    destruct Hr as [->|[t ->]]; [now left|].
    rewrite map_app in H1. apply elem_of_app in H1 as [H1|H1]; [now left|].
    cbn in H1. apply list_elem_of_singleton in H1 as ->.
    right. apply list_elem_of_here.
Qed.

Lemma ocrPdfPages_keys (env : Platform) (pagesToProcess : list nat)
    (trace : Trace) (n : nat) :
  n ∈ map fst (fst (ocrPdfPages env pagesToProcess trace)) ->
  n ∈ pagesToProcess.
Proof.
  unfold ocrPdfPages.
  destruct (length pagesToProcess =? 0); [cbn; inversion 1|].
  destruct (negb (canvas env)); [cbn; inversion 1|].
  destruct (length (ocrTargets pagesToProcess) =? 0); [cbn; inversion 1|].
  destruct (ocrSetup env) as [m|m|doc]; [cbn; inversion 1| |];
    (destruct (negb (loadTesseract env)); [cbn; inversion 1|]);
    [cbn; inversion 1|].
  destruct (fold_left (ocrPageStep doc) (ocrTargets pagesToProcess) ([], trace))
    as [results trace'] eqn:E.
  cbn [fst]. intros Hn.
  destruct (ocrPageStep_keys _ _ _ _ _ _ n E Hn) as [H1|H1]; [inversion H1|].
  now apply ocrTargets_subset.
Qed.

(** One patch: the array is extended with empty pages up to the page number,
    the text is written at index [pageNumber - 1], the other pages stay, and
    the page number is recorded. *)
Lemma patchStep_spec (pages : list jsstring) (patchedPages : list nat)
    (pageNumber : nat) (text : jsstring) :
  let normalized := trim (collapseWhitespace text) in
  normalized <> [] -> 1 <= pageNumber ->
  exists pages',
    patchStep (pages, patchedPages) (pageNumber, text)
    = (pages', patchedPages ++ [pageNumber])
    /\ length pages' = Nat.max (length pages) pageNumber
    /\ pages' !! (pageNumber - 1) = Some normalized
    /\ (forall j, j <> pageNumber - 1 -> j < length pages ->
          pages' !! j = pages !! j)
    /\ (forall j, length pages <= j -> j < pageNumber - 1 ->
          pages' !! j = Some []).
Proof.
  intros normalized Hne Hpos. unfold patchStep. fold normalized.
  apply truthy_true in Hne. rewrite Hne. cbn [negb].
  destruct pageNumber as [|index]; [lia|].
  replace (S index - 1) with index by lia.
  eexists. split; [reflexivity|]. unfold extendTo.
  assert (Hlen : length (pages ++ replicate (S index - length pages) [])
                 = Nat.max (length pages) (S index)).
  { rewrite length_app, length_replicate. lia. }
  repeat split.
  - now rewrite length_insert.
  - apply list_lookup_insert_eq. lia.
  - intros j Hj Hlt. rewrite list_lookup_insert_ne by auto.
    now apply lookup_app_l.
  - intros j Hge Hlt. rewrite list_lookup_insert_ne by lia.
    rewrite lookup_app_r by assumption. apply lookup_replicate_2.
    unfold jsstring, char in *. lia.
Qed.

Lemma patchStep_cases (pages : list jsstring) (patchedPages : list nat)
    (pageNumber : nat) (text : jsstring) :
  patchStep (pages, patchedPages) (pageNumber, text) = (pages, patchedPages)
  \/ exists pages',
       patchStep (pages, patchedPages) (pageNumber, text)
       = (pages', patchedPages ++ [pageNumber])
       /\ length pages <= length pages'
       /\ (forall i, i < length pages -> i + 1 <> pageNumber ->
             pages' !! i = pages !! i).
Proof.
  unfold patchStep. destruct (negb (truthy _)); [now left|right].
  destruct pageNumber as [|index].
  - exists pages. auto.
  - eexists. split; [reflexivity|]. unfold extendTo. split.
    + rewrite length_insert, length_app. lia.
    + intros i Hi Hne. rewrite list_lookup_insert_ne by lia.
      now apply lookup_app_l.
Qed.

(** The whole loop: the array does not shrink; a page whose number is not a
    key of the map keeps its text; a page that changed has its number
    recorded; only keys of the map are recorded. *)
Lemma patchStep_fold (patches : Patches) :
  forall pages patchedPages,
    let st := fold_left patchStep patches (pages, patchedPages) in
    length pages <= length (fst st)
    /\ (forall i, i < length pages -> i + 1 ∉ map fst patches ->
          fst st !! i = pages !! i)
    /\ (forall i, i < length pages -> fst st !! i <> pages !! i ->
          i + 1 ∈ snd st)
    /\ (forall n, n ∈ patchedPages -> n ∈ snd st)
    /\ (forall n, n ∈ snd st -> n ∈ patchedPages \/ n ∈ map fst patches)
    /\ (length (snd st) = length patchedPages -> st = (pages, patchedPages))
    /\ length patchedPages <= length (snd st).
Proof.
  induction patches as [|[pageNumber text] patches IH];
    intros pages patchedPages; cbn [fold_left].
  - cbn. repeat split; auto. intros i _ H. congruence.
  - destruct (patchStep_cases pages patchedPages pageNumber text)
      as [Hs|(pages1 & Hs & Hlen1 & Hframe)]; rewrite Hs; cbn [fst snd].
    + specialize (IH pages patchedPages). cbn zeta in IH.
      destruct IH as (H1 & H2 & H3 & H4 & H5 & H6 & H7).
      repeat split; auto.
      * intros i Hi Hn. apply H2; auto. intros Hin. apply Hn.
        cbn [map fst]. now apply list_elem_of_further.
      * intros n Hn. destruct (H5 n Hn) as [H|H]; [now left|right].
        cbn [map fst]. now apply list_elem_of_further.
    + specialize (IH pages1 (patchedPages ++ [pageNumber])). cbn zeta in IH.
      destruct IH as (H1 & H2 & H3 & H4 & H5 & H6 & H7).
      rewrite length_app in H6, H7. cbn [length] in H6, H7.
      repeat split.
      * lia.
      * intros i Hi Hn. cbn [map fst] in Hn.
        apply not_elem_of_cons in Hn as [Hn1 Hn2].
        rewrite H2 by (auto; lia). now apply Hframe.
      * intros i Hi Hchanged.
        destruct (decide ((fold_left patchStep patches
                             (pages1, patchedPages ++ [pageNumber])).1 !! i
                          = pages1 !! i)) as [Heq|Hneq].
        -- apply H4. apply elem_of_app. right. apply list_elem_of_singleton.
           destruct (decide (i + 1 = pageNumber)) as [Hi1|Hne]; [assumption|].
           exfalso. apply Hchanged. rewrite Heq. now apply Hframe.
        -- apply H3; [lia|assumption].
      * intros n Hn. apply H4. apply elem_of_app. now left.
      * intros n Hn. destruct (H5 n Hn) as [H|H].
        -- apply elem_of_app in H as [H|H]; [now left|right].
           apply list_elem_of_singleton in H as ->. cbn. apply list_elem_of_here.
        -- right. cbn [map fst]. now apply list_elem_of_further.
      * intros Heq. lia.
      * lia.
Qed.

Lemma adaptivePatch_pages (env : Platform) (pdfMeta : PageMeta)
    (pdfText : jsstring) (trace : Trace) :
  exists (patches : Patches) (pages : list jsstring) (patched : list nat),
    let result := adaptivePatch env pdfMeta pdfText trace in
    fold_left patchStep patches (pm_pages pdfMeta, []) = (pages, patched)
    /\ (forall n, n ∈ map fst patches ->
          n ∈ lowQualityPages (pm_pages pdfMeta))
    /\ pm_pages result.1.1 = pages
    /\ pm_ocrPatchedPages result.1.1
       = (if 0 <? length patched then Some patched
          else pm_ocrPatchedPages pdfMeta)
    /\ pm_pageTaggedText result.1.1
       = (if 0 <? length patched then buildPageTaggedText pages
          else pm_pageTaggedText pdfMeta)
    /\ result.1.2
       = (if 0 <? length patched then join [NEWLINE] pages else pdfText).
Proof.
  unfold adaptivePatch.
  destruct (0 <? length (lowQualityPages (pm_pages pdfMeta))) eqn:Elow.
  - pose proof (ocrPdfPages_keys env (lowQualityPages (pm_pages pdfMeta)) trace)
      as Hkeys.
    destruct (ocrPdfPages env (lowQualityPages (pm_pages pdfMeta)) trace)
      as [patches trace'].
    cbn [fst] in Hkeys.
    destruct (fold_left patchStep patches (pm_pages pdfMeta, []))
      as [pages patched] eqn:Efold.
    exists patches, pages, patched. cbn zeta.
    split; [exact Efold|]. split; [intros n Hn; now apply Hkeys|].
    destruct (0 <? length patched); cbn; auto.
  - exists [], (pm_pages pdfMeta), []. cbn. repeat split; auto.
    intros n Hn. inversion Hn.
Qed.

(** C6.  The adaptive per-page OCR patch never shortens [pages]; a page whose
    quality was at or above the threshold 0.12 keeps its text; a page whose
    text changed scored below the threshold and has its number in
    [ocrPatchedPages], which holds only numbers of pages that scored below
    the threshold.  A single patch writes the recognized text at index
    [pageNumber - 1], after extending the array with empty pages when the
    page number exceeds its length, and leaves the other pages as they
    were. *)
Theorem adaptivePatch_frame (env : Platform) (text : jsstring)
    (pagesInput : list JsValue) (layout : option nat) (trace : Trace) :
  let pdfMeta := buildPageMeta text pagesInput layout in
  let pdfMeta' := (adaptivePatch env pdfMeta text trace).1.1 in
  let patchedPages := from_option id [] (pm_ocrPatchedPages pdfMeta') in
  length (pm_pages pdfMeta) <= length (pm_pages pdfMeta')
  /\ (forall i page,
        pm_pages pdfMeta !! i = Some page ->
        ltb (computeQuality page) OCR_QUALITY_THRESHOLD = false ->
        pm_pages pdfMeta' !! i = Some page)
  /\ (forall i page,
        pm_pages pdfMeta !! i = Some page ->
        pm_pages pdfMeta' !! i <> Some page ->
        ltb (computeQuality page) OCR_QUALITY_THRESHOLD = true
        /\ i + 1 ∈ patchedPages)
  /\ (forall n, n ∈ patchedPages -> n ∈ lowQualityPages (pm_pages pdfMeta))
  /\ (forall pages patched pageNumber ocr,
        trim (collapseWhitespace ocr) <> [] -> 1 <= pageNumber ->
        exists pages',
          patchStep (pages, patched) (pageNumber, ocr)
          = (pages', patched ++ [pageNumber])
          /\ length pages' = Nat.max (length pages) pageNumber
          /\ pages' !! (pageNumber - 1) = Some (trim (collapseWhitespace ocr))
          /\ (forall j, j <> pageNumber - 1 -> j < length pages ->
                pages' !! j = pages !! j)
          /\ (forall j, length pages <= j -> j < pageNumber - 1 ->
                pages' !! j = Some [])).
Proof.
  intros pdfMeta pdfMeta' patchedPages.
  destruct (adaptivePatch_pages env pdfMeta text trace)
    as (patches & pages & patched & Hfold & Hkeys & Hpages & Hrec & _ & _).
  cbn zeta in *. fold pdfMeta' in Hpages, Hrec.
  pose proof (patchStep_fold patches (pm_pages pdfMeta) []) as Hloop.
  cbn zeta in Hloop. rewrite Hfold in Hloop. cbn [fst snd] in Hloop.
  destruct Hloop as (Hlen & Hframe & Hchanged & _ & Hrecorded & Hnone & _).
  assert (Hpatched : patchedPages = patched).
  { unfold patchedPages. rewrite Hrec. destruct patched as [|n patched].
    - reflexivity.
    - reflexivity. }
  assert (Hlowkeys : forall n, n ∈ patched ->
                      n ∈ lowQualityPages (pm_pages pdfMeta)).
  { intros n Hn. destruct (Hrecorded n Hn) as [H|H]; [inversion H|].
    now apply Hkeys. }
  assert (Hquality : forall i page,
             pm_pages pdfMeta !! i = Some page ->
             i + 1 ∈ lowQualityPages (pm_pages pdfMeta) ->
             ltb (computeQuality page) OCR_QUALITY_THRESHOLD = true).
  { intros i page Hi Hlow.
    apply lowQualityPages_low in Hlow as (page' & _ & Hi' & Hq).
    replace (i + 1 - 1) with i in Hi' by lia. congruence. }
  rewrite Hpages, Hpatched.
  split; [exact Hlen|]. split; [|split; [|split]].
  - intros i page Hi Hok. rewrite Hframe; [assumption| |].
    + now apply lookup_lt_Some in Hi.
    + intros Hin. apply Hkeys in Hin.
      rewrite (Hquality i page Hi Hin) in Hok. discriminate.
  - intros i page Hi Hne.
    assert (Hrecd : i + 1 ∈ patched).
    { apply Hchanged; [now apply lookup_lt_Some in Hi|]. now rewrite Hi. }
    split; [|assumption]. apply (Hquality i page Hi). now apply Hlowkeys.
  - exact Hlowkeys.
  - intros pgs pd pageNumber ocr Hne Hpos.
    now apply patchStep_spec.
Qed.

Lemma adaptivePatch_frame_witness :
  let pdfMeta :=
    buildPageMeta (cyrillicPage ++ [NEWLINE] ++ lit "abc")
                  [JsStr cyrillicPage; JsStr (lit "abc")] (Some 2) in
  let pdfMeta' :=
    (adaptivePatch patchingPlatform pdfMeta
                   (cyrillicPage ++ [NEWLINE] ++ lit "abc") []).1.1 in
  pm_pages pdfMeta = [cyrillicPage; lit "abc"]
  /\ ltb (computeQuality cyrillicPage) OCR_QUALITY_THRESHOLD = false
  /\ pm_pages pdfMeta' !! 0 = Some cyrillicPage
  /\ pm_pages pdfMeta' !! 1 = Some (lit "scanned words")
  /\ 2 ∈ from_option id [] (pm_ocrPatchedPages pdfMeta').
Proof.
  intros pdfMeta pdfMeta'.
  destruct (adaptivePatch_frame patchingPlatform
              (cyrillicPage ++ [NEWLINE] ++ lit "abc")
              [JsStr cyrillicPage; JsStr (lit "abc")] (Some 2) [])
    as (_ & Hkeep & Hchanged & _).
  fold pdfMeta in Hkeep, Hchanged. fold pdfMeta' in Hkeep, Hchanged.
  assert (Hq : ltb (computeQuality cyrillicPage) OCR_QUALITY_THRESHOLD = false)
    by (vm_compute; reflexivity).
  assert (H1 : pm_pages pdfMeta' !! 1 = Some (lit "scanned words"))
    by (vm_compute; reflexivity).
  split; [reflexivity|]. split; [exact Hq|].
  split; [apply (Hkeep 0 cyrillicPage); [reflexivity|exact Hq]|].
  split; [exact H1|].
  apply (Hchanged 1 (lit "abc")); [reflexivity|].
  rewrite H1. discriminate.
Defined.

(** ** Extraction Orchestrator *)

Lemma adaptivePatch_tagged (env : Platform) (text pdfText : jsstring)
    (pagesInput : list JsValue) (layout : option nat) (trace : Trace) :
  let pdfMeta' :=
    (adaptivePatch env (buildPageMeta text pagesInput layout) pdfText trace).1.1 in
  pm_pageTaggedText pdfMeta' = buildPageTaggedText (pm_pages pdfMeta').
Proof.
  intros pdfMeta'.
  destruct (adaptivePatch_pages env (buildPageMeta text pagesInput layout)
                                pdfText trace)
    as (patches & pages & patched & Hfold & _ & Hpages & _ & Htag & _).
  cbn zeta in *. fold pdfMeta' in Hpages, Htag. rewrite Htag, Hpages.
  destruct patched as [|n patched]; [|reflexivity].
  pose proof (patchStep_fold patches
                (pm_pages (buildPageMeta text pagesInput layout)) []) as Hloop.
  cbn zeta in Hloop. rewrite Hfold in Hloop.
  destruct Hloop as (_ & _ & _ & _ & _ & Hnone & _).
  specialize (Hnone eq_refl). injection Hnone as ->. reflexivity.
Qed.

Lemma ocrFallback_site (env : Platform) (trace : Trace) :
  ReturnSite (ocrFallback env trace).
Proof.
  unfold ocrFallback. destruct (ocrPdf env trace 10) as [ocr trace'].
  destruct (truthy (stage_text ocr) && (40 <=? length (trim (stage_text ocr)))).
  - apply site_pdf_ocr.
  - apply site_pdf_unreadable.
Qed.

Lemma serverFallback_site (env : Platform) (trace : Trace) (r : Response) :
  serverFallback env trace = Returns r -> ReturnSite r.
Proof.
  unfold serverFallback.
  destruct (serverExtractText (server env) trace) as [[payload|] trace'];
    [|intros [= <-]; apply ocrFallback_site].
  destruct (valueTruthy (payload_text payload));
    [|intros [= <-]; apply ocrFallback_site].
  destruct (payload_text payload) as [serverText|]; [|discriminate].
  destruct (40 <=? length (trim serverText));
    [|intros [= <-]; apply ocrFallback_site].
  destruct (buildPlainLayout _); [|discriminate].
  intros [= <-]. apply site_server.
Qed.

Lemma readPdf_site (env : Platform) (trace : Trace) (r : Response) :
  readPdf env trace = Returns r -> ReturnSite r.
Proof.
  unfold readPdf.
  destruct (renderPdfWithPdfjs (pdfjsOutcome env) trace) as [pdfResult trace1].
  pose proof (adaptivePatch_tagged env (stage_text pdfResult)
                (stage_text pdfResult) (map JsStr (stage_pages pdfResult))
                (layoutCount (stage_layout pdfResult)) trace1) as Htag.
  cbn zeta in Htag.
  destruct (adaptivePatch env _ (stage_text pdfResult) trace1)
    as [[pdfMeta pdfText] trace2].
  cbn [fst] in Htag.
  destruct (truthy (trim pdfText)).
  - intros [= <-]. now apply site_pdf_accepted.
  - apply serverFallback_site.
Qed.

Lemma readImage_site (env : Platform) (trace : Trace) (r : Response) :
  readImage env trace = Returns r -> ReturnSite r.
Proof.
  unfold readImage. destruct (dataUrlRejects env); [discriminate|].
  destruct (negb (loadTesseract env)).
  - intros [= <-]. apply site_image_preview.
  - destruct (imageRecognition env); intros [= <-].
    + apply site_image_preview.
    + apply site_image_ocr.
Qed.

(** Every result of [readFileContent] is built at one of its return
    sites. *)
Lemma readFileContent_site (env : Platform) (file : option File)
    (r : Response) :
  readFileContent env file = Returns r -> ReturnSite r.
Proof.
  unfold readFileContent. destruct file as [f|];
    [|intros [= <-]; apply site_no_file].
  destruct (acquisition env) as [m| |bytes]; try discriminate.
  destruct (base64Throws env); [discriminate|].
  destruct (detectFileKind (Some f) bytes).
  - apply readPdf_site.
  - destruct (extractDocx (docxOutcome env) []) as [docx trace].
    intros [= <-]. apply site_docx.
  - intros [= <-]. apply site_text.
  - apply readImage_site.
  - intros [= <-]. apply site_binary.
  - intros [= <-]. apply site_binary.
Qed.

(** *** Page-tagged text *)

Lemma join_cons (sep x : jsstring) (l : list jsstring) :
  join sep (x :: l)
  = x ++ match l with [] => [] | _ :: _ => sep ++ join sep l end.
Proof. destruct l; cbn [join]; [now rewrite app_nil_r|reflexivity]. Qed.

Lemma pageTag_join (pages : list jsstring) :
  forall k,
    join [NEWLINE; NEWLINE] (imap (fun i page => pageTag (k + i) page) pages)
    = Spec.pageTaggedFrom (k + 1) pages.
Proof.
  induction pages as [|page rest IH]; intros k; [reflexivity|].
  rewrite imap_cons, join_cons. cbn [Spec.pageTaggedFrom]. unfold pageTag at 1.
  replace (k + 0 + 1) with (k + 1) by lia.
  rewrite <- !app_assoc. do 4 f_equal.
  destruct rest as [|page' rest]; [reflexivity|].
  rewrite (imap_ext _ (fun i page => pageTag (S k + i) page)).
  - rewrite IH. replace (S k + 1) with (S (k + 1)) by lia.
    destruct (imap _ _) eqn:E; [|reflexivity]. discriminate E.
  - intros i x _. unfold compose. now replace (k + S i) with (S k + i) by lia.
Qed.

Lemma buildPageTaggedText_spec (pages : list jsstring) :
  buildPageTaggedText pages = Spec.pageTagged pages.
Proof.
  unfold buildPageTaggedText, Spec.pageTagged.
  destruct pages as [|page rest]; [reflexivity|]. cbn [length Nat.eqb].
  apply (pageTag_join (page :: rest) 0).
Qed.

(** C7, as amended.  A result of [readFileContent] either has no page
    metadata at all ([meta.pages] and [meta.pageTaggedText] both absent:
    the results for a missing file, an unreadable PDF and a binary file), or
    has both, and then [meta.pageTaggedText] is the join of [meta.pages] in
    which page [i] contributes ['<<<PAGE i>>>'], a newline and the page's
    text, pages joined by blank lines.  This holds in particular for a
    result whose pages were patched by per-page OCR. *)
Theorem pageTaggedText_derived (env : Platform) (file : option File)
    (r : Response) :
  readFileContent env file = Returns r ->
  (pages (meta r) = None /\ pageTaggedText (meta r) = None
   /\ ocrPatchedPages (meta r) = None
   /\ (extractor (meta r) = tag "none"
       \/ extractor (meta r) = tag "pdf-unreadable"
       \/ extractor (meta r) = tag "binary"))
  \/ (exists pageList,
        pages (meta r) = Some pageList
        /\ pageTaggedText (meta r) = Some (Spec.pageTagged pageList)).
Proof.
  intros Hr. apply readFileContent_site in Hr.
  destruct Hr; cbn;
    try (right; eexists; split; [reflexivity|];
         rewrite <- buildPageTaggedText_spec; reflexivity);
    try (left; repeat split; auto; fail).
  right. eexists. split; [reflexivity|].
  rewrite <- buildPageTaggedText_spec. now f_equal.
Qed.

Lemma pageTaggedText_derived_witness :
  exists r,
    readFileContent shortTextPlatform (Some pdfFile) = Returns r
    /\ pages (meta r) = Some [lit "abc"]
    /\ pageTaggedText (meta r) = Some (Spec.pageTagged [lit "abc"]).
Proof.
  destruct (readFileContent shortTextPlatform (Some pdfFile)) as [r|e] eqn:E;
    [|vm_compute in E; discriminate E].
  exists r. split; [reflexivity|].
  destruct (pageTaggedText_derived shortTextPlatform (Some pdfFile) r E)
    as [(Hp & _)|(pageList & Hp & Ht)].
  - vm_compute in E. injection E as <-. discriminate Hp.
  - assert (Hl : pageList = [lit "abc"]).
    { vm_compute in E. injection E as <-. cbn in Hp. now injection Hp as <-. }
    subst pageList. auto.
Defined.

(** C7, counterexample.  The result for a PDF from which no text could be
    extracted has no [pageTaggedText] (and no [pages]); the join of no pages
    would be the empty string. *)
Lemma pageTaggedText_absent_when_unreadable :
  exists r,
    readFileContent barePlatform (Some pdfFile) = Returns r
    /\ extractor (meta r) = tag "pdf-unreadable"
    /\ pages (meta r) = None
    /\ pageTaggedText (meta r) = None
    /\ ~ Spec.pageTaggedInEveryResult.
Proof.
  eexists. split; [vm_compute; reflexivity|]. repeat split.
  intros Hclaim.
  specialize (Hclaim barePlatform (Some pdfFile) _ eq_refl).
  discriminate Hclaim.
Qed.

(** *** The OCR flag *)




(** *** The PDF branch *)

Lemma serverExtractText_pushes (outcome : ServerOutcome) (trace : Trace) :
  exists entry,
    (serverExtractText outcome trace).2 = trace ++ [entry]
    /\ step entry = "server"%string.
Proof.
  destruct outcome; cbn; unfold pushTrace; eexists; split; reflexivity.
Qed.

Lemma ocrPdf_pushes (env : Platform) (trace : Trace) (pageLimit : nat) :
  exists before entry,
    (ocrPdf env trace pageLimit).2 = before ++ [entry]
    /\ step entry = "ocr"%string.
Proof.
  unfold ocrPdf.
  destruct (ocrSetup env) as [m|m|doc];
    [cbn; unfold pushTrace; eauto| |];
    (destruct (negb (loadTesseract env));
       [cbn; unfold pushTrace; eauto|]);
    [cbn; unfold pushTrace; eauto|].
  destruct (ocrPdfLoop 1 (take (Nat.min pageLimit (length doc)) doc) [] trace)
    as [[m|texts] trace']; cbn; unfold pushTrace; eauto.
Qed.

Lemma serverFallback_unusable (env : Platform) (trace : Trace) :
  serverUnusable (serverExtractText (server env) trace).1 ->
  serverFallback env trace
  = Returns (ocrFallback env (serverExtractText (server env) trace).2).
Proof.
  unfold serverFallback.
  destruct (serverExtractText (server env) trace) as [[payload|] trace'];
    cbn [fst snd serverUnusable]; [|reflexivity].
  destruct (payload_text payload) as [serverText|b]; cbn [valueTruthy].
  - intros Hshort. destruct (truthy serverText); [|reflexivity].
    destruct (40 <=? length (trim serverText)) eqn:E; [|reflexivity].
    apply Nat.leb_le in E. unfold jsstring, char in *. lia.
  - now intros ->.
Qed.

Lemma renderPdfWithPdfjs_pushes (outcome : PdfjsOutcome) (trace : Trace) :
  exists entry,
    (renderPdfWithPdfjs outcome trace).2 = trace ++ [entry]
    /\ step entry = "pdfjs"%string.
Proof.
  destruct outcome; cbn; unfold pushTrace; eexists; split; reflexivity.
Qed.

Lemma ocrPageStep_extends (doc : list OcrPage) (targets : list nat) :
  forall results trace,
    exists more,
      (fold_left (ocrPageStep doc) targets (results, trace)).2 = trace ++ more
      /\ Forall (fun entry => step entry = "ocr-adaptive"%string) more.
Proof.
  induction targets as [|k targets IH]; intros results trace; cbn [fold_left].
  - exists []. split; [now rewrite app_nil_r|constructor].
  - assert (Hstep : exists (results1 : Patches) (more1 : Trace),
               ocrPageStep doc (results, trace) k = (results1, trace ++ more1)
               /\ Forall (fun entry => step entry = "ocr-adaptive"%string) more1).
    { assert (Hsame : forall results1 : Patches,
                 exists (results2 : Patches) (more1 : Trace),
                   (results1, trace) = (results2, trace ++ more1)
                   /\ Forall (fun entry => step entry = "ocr-adaptive"%string)
                             more1).
      { intros results1. exists results1, []. rewrite app_nil_r.
        split; [reflexivity|constructor]. }
      unfold ocrPageStep. destruct (length doc <? k); [apply Hsame|].
      destruct (doc !! (k - 1)) as [[m| |m|dataText]|]; try apply Hsame.
      - eexists _, [_]. split; [reflexivity|]. repeat constructor.
      - eexists _, [_]. split; [reflexivity|]. repeat constructor.
      - destruct (truthy (ocrText dataText)); apply Hsame. }
    destruct Hstep as (results1 & more1 & Hstep & Hall1).
    destruct (IH results1 (trace ++ more1)) as (more & Hmore & Hall).
    exists (more1 ++ more). split.
    + rewrite Hstep, app_assoc. exact Hmore.
    + now apply Forall_app.
Qed.

Lemma ocrPdfPages_extends (env : Platform) (pagesToProcess : list nat)
    (trace : Trace) :
  exists more,
    (ocrPdfPages env pagesToProcess trace).2 = trace ++ more
    /\ Forall (fun entry => step entry = "ocr-adaptive"%string) more.
Proof.
  assert (Hnone : exists more,
             trace = trace ++ more
             /\ Forall (fun entry => step entry = "ocr-adaptive"%string) more).
  { exists []. split; [now rewrite app_nil_r|constructor]. }
  assert (Hone : forall detail status,
             exists more,
               pushTrace trace "ocr-adaptive" detail status = trace ++ more
               /\ Forall (fun entry => step entry = "ocr-adaptive"%string) more).
  { intros detail status. eexists [_]. split; [reflexivity|].
    repeat constructor. }
  unfold ocrPdfPages.
  destruct (length pagesToProcess =? 0); [exact Hnone|].
  destruct (negb (canvas env)); [apply Hone|].
  destruct (length (ocrTargets pagesToProcess) =? 0); [exact Hnone|].
  destruct (ocrSetup env) as [m|m|doc]; [apply Hone| |];
    (destruct (negb (loadTesseract env)); [apply Hone|]); [apply Hone|].
  destruct (ocrPageStep_extends doc (ocrTargets pagesToProcess) [] trace)
    as (more & Hmore & Hall).
  match goal with
  | |- context [match ?run with pair _ _ => _ end] =>
      change (run.2 = trace ++ more) in Hmore;
      destruct run as [results trace']
  end.
  cbn [snd] in *. subst trace'.
  destruct (0 <? length results); cbn [snd].
  - exists (more ++ [mkTrace "ocr-adaptive" (ExtraOcr (map fst results)) "info"]).
    unfold pushTrace. split; [now rewrite app_assoc|].
    apply Forall_app. split; [assumption|]. repeat constructor.
  - eauto.
Qed.

Lemma adaptivePatch_extends (env : Platform) (pdfMeta : PageMeta)
    (pdfText : jsstring) (trace : Trace) :
  exists more,
    (adaptivePatch env pdfMeta pdfText trace).2 = trace ++ more
    /\ Forall (fun entry => step entry = "ocr-adaptive"%string) more.
Proof.
  unfold adaptivePatch.
  destruct (0 <? length (lowQualityPages (pm_pages pdfMeta))).
  - destruct (ocrPdfPages_extends env (lowQualityPages (pm_pages pdfMeta)) trace)
      as (more & Hmore & Hall).
    destruct (ocrPdfPages env (lowQualityPages (pm_pages pdfMeta)) trace)
      as [patches trace'].
    cbn [snd] in Hmore. subst trace'.
    destruct (fold_left patchStep patches (pm_pages pdfMeta, []))
      as [pages patched].
    destruct (0 <? length patched); cbn [snd].
    + exists (more ++ [mkTrace "ocr-adaptive" (PagesReplaced patched) "info"]).
      unfold pushTrace. split; [now rewrite app_assoc|].
      apply Forall_app. split; [assumption|]. repeat constructor.
    + eauto.
  - exists []. cbn. split; [now rewrite app_nil_r|constructor].
Qed.

Lemma ocrPdfLoop_extends (doc : list OcrPage) :
  forall pageIndex texts trace,
    exists more,
      (ocrPdfLoop pageIndex doc texts trace).2 = trace ++ more
      /\ Forall (fun entry => step entry = "ocr"%string) more.
Proof.
  induction doc as [|page doc IH]; intros pageIndex texts trace.
  - exists []. cbn. split; [now rewrite app_nil_r|constructor].
  - destruct page as [m| |m|dataText]; cbn [ocrPdfLoop].
    + exists []. cbn. split; [now rewrite app_nil_r|constructor].
    + apply IH.
    + destruct (IH (S pageIndex) (texts ++ [[]])
                   (pushTrace trace "ocr" (PageError pageIndex m) "warn"))
        as (more & -> & Hall).
      exists (mkTrace "ocr" (PageError pageIndex m) "warn" :: more).
      unfold pushTrace. split; [now rewrite <- app_assoc|].
      now constructor.
    + apply IH.
Qed.

Lemma ocrPdf_extends (env : Platform) (trace : Trace) (pageLimit : nat) :
  exists more,
    (ocrPdf env trace pageLimit).2 = trace ++ more
    /\ more <> []
    /\ Forall (fun entry => step entry = "ocr"%string) more.
Proof.
  assert (Hone : forall detail status,
             exists more,
               pushTrace trace "ocr" detail status = trace ++ more
               /\ more <> []
               /\ Forall (fun entry => step entry = "ocr"%string) more).
  { intros detail status. eexists [_]. split; [reflexivity|].
    split; [discriminate|]. repeat constructor. }
  unfold ocrPdf.
  destruct (ocrSetup env) as [m|m|doc]; [apply Hone| |];
    (destruct (negb (loadTesseract env)); [apply Hone|]); [apply Hone|].
  destruct (ocrPdfLoop_extends (take (Nat.min pageLimit (length doc)) doc)
                               1 [] trace) as (more & Hmore & Hall).
  destruct (ocrPdfLoop 1 (take (Nat.min pageLimit (length doc)) doc) [] trace)
    as [[m|texts] trace'];
    cbn [snd] in *; subst trace'; unfold pushTrace;
    eexists (more ++ [_]); (split; [now rewrite app_assoc|]);
    (split; [destruct more; discriminate|]);
    (apply Forall_app; split; [assumption|repeat constructor]).
Qed.

(** C1, as amended.  For a PDF, the text of the structural extraction (after
    the adaptive patch) is returned whenever it is not empty: with extractor
    'pdfjs' when it satisfies the acceptance predicate, and otherwise with
    extractor 'pdfjs-soft' and a 'warn' trace entry, the remote service not
    being asked (the trace has only 'pdfjs' and 'ocr-adaptive' entries).
    When that text is empty the remote service is asked; when the service
    fails or answers no text or fewer than 40 characters, full-document OCR
    runs; when OCR yields fewer than 40 usable characters, the result has
    the empty text, extractor 'pdf-unreadable' and a final 'warn' trace
    entry; otherwise the OCR text is returned with extractor 'pdf-ocr'. *)
Theorem readPdf_fallback (env : Platform) (file : File) (bytes : buffer) :
  acquisition env = Acquired bytes ->
  base64Throws env = false ->
  detectFileKind (Some file) bytes = Kpdf ->
  let structural := renderPdfWithPdfjs (pdfjsOutcome env) [] in
  let pdfMeta :=
    buildPageMeta (stage_text structural.1)
                  (map JsStr (stage_pages structural.1))
                  (layoutCount (stage_layout structural.1)) in
  let patched := adaptivePatch env pdfMeta (stage_text structural.1) structural.2 in
  let pdfText := trim patched.1.2 in
  let accepted := readable (evaluateSoftPdfAcceptance pdfText) in
  let remote := serverExtractText (server env) patched.2 in
  let ocr := ocrPdf env remote.2 10 in
  (pdfText <> [] ->
   exists r,
     readFileContent env (Some file) = Returns r
     /\ text r = pdfText
     /\ extractor (meta r) = (if accepted then tag "pdfjs" else tag "pdfjs-soft")
     /\ trace (meta r)
        = (if accepted then patched.2
           else patched.2
                ++ [mkTrace "pdfjs" (UsingLowScoreText (length pdfText)) "warn"])
     /\ Forall (fun entry => step entry = "pdfjs"%string
                             \/ step entry = "ocr-adaptive"%string)
               (trace (meta r)))
  /\ (pdfText = [] ->
      (exists entry,
         remote.2 = patched.2 ++ [entry] /\ step entry = "server"%string)
      /\ (serverUnusable remote.1 ->
          (exists more,
             ocr.2 = remote.2 ++ more /\ more <> []
             /\ Forall (fun entry => step entry = "ocr"%string) more)
          /\ (ocrUsable ocr.1 = false ->
              exists r,
                readFileContent env (Some file) = Returns r
                /\ text r = []
                /\ extractor (meta r) = tag "pdf-unreadable"
                /\ trace (meta r)
                   = ocr.2 ++ [mkTrace "pdf" TextNotExtracted "warn"])
          /\ (ocrUsable ocr.1 = true ->
              exists r,
                readFileContent env (Some file) = Returns r
                /\ text r = stage_text ocr.1
                /\ extractor (meta r) = tag "pdf-ocr"
                /\ trace (meta r) = ocr.2))).
Proof.
  intros Hacq Hb64 Hkind. cbn zeta.
  unfold readFileContent. rewrite Hacq, Hb64, Hkind. unfold readPdf.
  destruct (renderPdfWithPdfjs_pushes (pdfjsOutcome env) [])
    as (first & Hfirst & Hstep1).
  destruct (renderPdfWithPdfjs (pdfjsOutcome env) []) as [pdfResult trace1].
  cbn [fst snd] in *. subst trace1.
  destruct (adaptivePatch_extends env
              (buildPageMeta (stage_text pdfResult)
                 (map JsStr (stage_pages pdfResult))
                 (layoutCount (stage_layout pdfResult)))
              (stage_text pdfResult) ([] ++ [first]))
    as (more & Hmore & Hall).
  destruct (adaptivePatch env _ (stage_text pdfResult) ([] ++ [first]))
    as [[pdfMeta pdfText] trace2].
  cbn [fst snd] in *. subst trace2. split.
  - intros Hne. apply truthy_true in Hne. rewrite Hne.
    assert (Hsteps : Forall (fun entry => step entry = "pdfjs"%string
                                          \/ step entry = "ocr-adaptive"%string)
                            (([] ++ [first]) ++ more)).
    { apply Forall_app. split; [constructor; [now left|constructor]|].
      eapply Forall_impl; [exact Hall|]. intros entry He. now right. }
    eexists. split; [reflexivity|].
    destruct (readable (evaluateSoftPdfAcceptance (trim pdfText)));
      cbn [text meta extractor trace chooseText buildResponse negb];
      repeat split; auto.
    unfold pushTrace. apply Forall_app. split; [assumption|].
    constructor; [now left|constructor].
  - intros Hempty. apply truthy_false in Hempty. rewrite Hempty.
    split; [apply serverExtractText_pushes|].
    intros Hunusable. rewrite (serverFallback_unusable env _ Hunusable).
    split; [apply ocrPdf_extends|].
    unfold ocrFallback, ocrUsable.
    destruct (ocrPdf env (serverExtractText (server env)
                            (([] ++ [first]) ++ more)).2 10)
      as [ocr trace4].
    cbn [fst snd].
    split; intros Husable; rewrite Husable; eexists;
      (split; [reflexivity|]); cbn; auto.
Qed.

Lemma readPdf_fallback_witness :
  acquisition barePlatform = Acquired pdfBytes
  /\ base64Throws barePlatform = false
  /\ detectFileKind (Some pdfFile) pdfBytes = Kpdf
  /\ exists r,
       readFileContent barePlatform (Some pdfFile) = Returns r
       /\ text r = []
       /\ extractor (meta r) = tag "pdf-unreadable"
       /\ last (trace (meta r)) = Some (mkTrace "pdf" TextNotExtracted "warn").
Proof.
  split; [reflexivity|]. split; [reflexivity|]. split; [reflexivity|].
  destruct (readPdf_fallback barePlatform pdfFile pdfBytes
                             eq_refl eq_refl eq_refl) as [_ Hempty].
  destruct (Hempty eq_refl) as [_ Hserver].
  destruct (Hserver I) as (_ & Hunreadable & _).
  destruct (Hunreadable eq_refl) as (r & Hr & Ht & He & Htrace).
  exists r. split; [exact Hr|]. split; [exact Ht|]. split; [exact He|].
  rewrite Htrace. apply last_snoc.
Defined.

(** C1, counterexample.  The structural text "abc" fails the acceptance
    predicate; it is returned with extractor 'pdfjs-soft', and the remote
    service, which would answer, is not asked. *)
Lemma rejected_text_returned_without_server :
  exists r,
    readFileContent shortTextPlatform (Some pdfFile) = Returns r
    /\ stage_text (renderPdfWithPdfjs (pdfjsOutcome shortTextPlatform) []).1
       = lit "abc"
    /\ readable (evaluateSoftPdfAcceptance (lit "abc")) = false
    /\ text r = lit "abc"
    /\ extractor (meta r) = tag "pdfjs-soft"
    /\ map step (trace (meta r)) = ["pdfjs"; "ocr-adaptive"; "pdfjs"]%string
    /\ ~ Spec.rejectedTextAsksServer.
Proof.
  eexists. split; [vm_compute; reflexivity|].
  split; [vm_compute; reflexivity|]. split; [vm_compute; reflexivity|].
  split; [reflexivity|]. split; [reflexivity|]. split; [reflexivity|].
  intros Hclaim.
  assert (Hread :
            readable (evaluateSoftPdfAcceptance
                        (stage_text
                           (fst (renderPdfWithPdfjs
                                   (pdfjsOutcome shortTextPlatform) []))))
            = false) by (vm_compute; reflexivity).
  destruct (readFileContent shortTextPlatform (Some pdfFile)) as [r|e] eqn:E;
    [|vm_compute in E; discriminate E].
  destruct (Hclaim shortTextPlatform pdfFile pdfBytes r
                   eq_refl eq_refl eq_refl Hread E)
    as (entry & Hin & Hstep).
  vm_compute in E. injection E as <-. cbn [meta trace] in Hin.
  repeat (apply elem_of_cons in Hin as [->|Hin]; [discriminate Hstep|]).
  inversion Hin.
Qed.

(** *** Exceptions *)

(** Where [readFileContent] throws: in buffer acquisition and preparation,
    on a remote payload whose text or pages are not strings, and when the
    data URL of an image cannot be read. *)
Lemma readFileContent_throws (env : Platform) (file : option File)
    (e : Thrown) :
  readFileContent env file = Throws e ->
  (exists m, acquisition env = AcquireRejects m /\ e = CorruptedOrUnsupported)
  \/ (acquisition env = AcquireNull /\ e = ContentUnavailable)
  \/ (base64Throws env = true /\ e = SourceDamagedOrEmpty)
  \/ (e = TypeError
      /\ exists payload,
           server env = ResponseJson payload
           /\ (payload_text payload = JsNonString true
               \/ exists pagesField,
                    payload_pages payload = Some pagesField
                    /\ allStrings pagesField = None))
  \/ (exists m, dataUrlRejects env = Some m /\ e = Rejected m).
Proof.
  unfold readFileContent. destruct file as [f|]; [|discriminate].
  destruct (acquisition env) as [m| |bytes].
  - intros [= <-]. left. eauto.
  - intros [= <-]. right. left. auto.
  - destruct (base64Throws env).
    + intros [= <-]. right. right. left. auto.
    + destruct (detectFileKind (Some f) bytes); try discriminate.
      * unfold readPdf.
        destruct (renderPdfWithPdfjs _ _) as [pdfResult trace1].
        destruct (adaptivePatch _ _ _ _) as [[pdfMeta pdfText] trace2].
        destruct (truthy (trim pdfText)); [discriminate|].
        unfold serverFallback, serverExtractText.
        destruct (server env) as [| |m|code|payload]; try discriminate.
        destruct (valueTruthy (payload_text payload)) eqn:Et; [|discriminate].
        destruct (payload_text payload) as [serverText|b] eqn:Ep.
        -- destruct (40 <=? length (trim serverText)); [|discriminate].
           unfold buildPlainLayout.
           destruct (payload_pages payload) as [pagesField|] eqn:Epages.
           ++ destruct (allStrings pagesField) eqn:Eall; [discriminate|].
              intros [= <-]. right. right. right. left.
              split; [reflexivity|]. exists payload. split; [reflexivity|].
              right. eauto.
           ++ cbn. discriminate.
        -- intros [= <-]. right. right. right. left.
           split; [reflexivity|]. exists payload. split; [reflexivity|].
           left. cbn in Et. now subst b.
      * destruct (extractDocx _ _). discriminate.
      * unfold readImage.
        destruct (dataUrlRejects env) as [m|] eqn:Ed.
        -- intros [= <-]. right. right. right. right. eauto.
        -- destruct (negb (loadTesseract env)); [discriminate|].
           destruct (imageRecognition env); discriminate.
Qed.

(** A stage that fails gives its empty result and one 'warn' or 'error'
    trace entry. *)
Lemma stage_failures (env : Platform) (trace : Trace) (m : jsstring) :
  renderPdfWithPdfjs (PdfjsThrows m) trace
  = (emptyStage, trace ++ [mkTrace "pdfjs" (PdfjsError m) "error"])
  /\ extractDocx (DocxThrows m) trace
     = (emptyStage, trace ++ [mkTrace "docx" (DocxError m) "error"])
  /\ extractDocx DocxNoDocument trace
     = (emptyStage, trace ++ [mkTrace "docx" DocumentXmlMissing "warn"])
  /\ serverExtractText (RequestThrows m) trace
     = (None, trace ++ [mkTrace "server" (RequestError m) "error"])
  /\ (ocrSetup env = GetDocumentThrows m -> loadTesseract env = true ->
      ocrPdf env trace 10
      = (emptyStage, trace ++ [mkTrace "ocr" (OcrError m) "error"]))
  /\ (loadTesseract env = false ->
      (forall m', ocrSetup env <> LoadPdfjsThrows m') ->
      ocrPdf env trace 10
      = (emptyStage, trace ++ [mkTrace "ocr" TesseractUnavailable "warn"])).
Proof.
  repeat split.
  - intros Hs Ht. unfold ocrPdf. now rewrite Hs, Ht.
  - intros Ht Hs. unfold ocrPdf. rewrite Ht.
    destruct (ocrSetup env) as [m'| |]; [now destruct (Hs m')| |]; reflexivity.
Qed.

(** C8, at the failing inputs.  A PDF without text layer, for which the
    remote service answers a long text with [meta.pages = [null]], makes
    [readFileContent] throw a [TypeError]: [buildPlainLayout] calls
    [split] on the page that is not a string, outside any [try].  An image
    whose data URL cannot be read makes it reject with the reader's error,
    although the buffer was acquired. *)
Theorem readFileContent_escapes :
  readFileContent (remotePlatform (Some [JsNonString false])
                                  (JsNonString false))
                  (Some pdfFile)
  = Throws TypeError
  /\ acquisition unreadableImagePlatform = Acquired pngBytes
  /\ readFileContent unreadableImagePlatform (Some imageFile)
     = Throws (Rejected (lit "read error")).
Proof.
  split; [vm_compute; reflexivity|]. split; [reflexivity|].
  vm_compute; reflexivity.
Qed.

(** The accepted PDF result carries the patched metadata. *)
Lemma readFileContent_pdf_meta (env : Platform) (file : File) (bytes : buffer) :
  acquisition env = Acquired bytes ->
  base64Throws env = false ->
  detectFileKind (Some file) bytes = Kpdf ->
  let structural := renderPdfWithPdfjs (pdfjsOutcome env) [] in
  let pdfMeta :=
    buildPageMeta (stage_text structural.1)
                  (map JsStr (stage_pages structural.1))
                  (layoutCount (stage_layout structural.1)) in
  let patched := adaptivePatch env pdfMeta (stage_text structural.1) structural.2 in
  trim patched.1.2 <> [] ->
  exists r,
    readFileContent env (Some file) = Returns r
    /\ pages (meta r) = Some (pm_pages patched.1.1)
    /\ pageCount (meta r) = Some (pm_pageCount patched.1.1)
    /\ ocrPatchedPages (meta r) = pm_ocrPatchedPages patched.1.1.
Proof.
  intros Hacq Hb64 Hkind. cbn zeta.
  unfold readFileContent. rewrite Hacq, Hb64, Hkind. unfold readPdf.
  destruct (renderPdfWithPdfjs (pdfjsOutcome env) []) as [pdfResult trace1].
  cbn [fst snd].
  destruct (adaptivePatch env _ (stage_text pdfResult) trace1)
    as [[pdfMeta pdfText] trace2].
  cbn [fst snd]. intros Hne. apply truthy_true in Hne. rewrite Hne.
  eexists. split; [reflexivity|]. cbn. auto.
Qed.

(** ** Runs on concrete inputs *)

Example detectFileKind_zip_header :
  detectFileKind None [0x50; 0x4B; 0x03; 0x04]%N = Kdocx.
Proof. reflexivity. Qed.

Example detectFileKind_upper_case_extension :
  detectFileKind (Some (mkFile (lit "NOTES.TXT") [])) [] = Ktext.
Proof. reflexivity. Qed.

Example detectFileKind_declared_image :
  detectFileKind (Some imageFile) pngBytes = Kimage.
Proof. reflexivity. Qed.

Example evaluateSoftPdfAcceptance_short_text :
  let result := evaluateSoftPdfAcceptance (lit "  Hello   world 123 ") in
  cleaned_text result = lit "Hello world 123"
  /\ readable result = false
  /\ reason result = "too-short"%string.
Proof. vm_compute. auto. Qed.

Example buildPageTaggedText_two_pages :
  buildPageTaggedText [lit "ab"; lit "c"]
  = lit "<<<PAGE 1>>>" ++ [NEWLINE] ++ lit "ab" ++ [NEWLINE; NEWLINE]
    ++ lit "<<<PAGE 2>>>" ++ [NEWLINE] ++ lit "c".
Proof. reflexivity. Qed.

Example detectColumns_two_clusters :
  let blockAt (x1 x2 : nat) :=
    mkBlock (lit "pg1-b0") (lit "text")
            (ofNat x1, ofNat 0, ofNat x2, ofNat 10) in
  map (fun column => (col_id column, blockCount column))
      (detectColumns [blockAt 200 210; blockAt 0 10; blockAt 30 50] (ofNat 600))
  = [(lit "col-0", Some 2); (lit "col-1", Some 1)].
Proof. vm_compute. reflexivity. Qed.

Example readFileContent_patched_pdf :
  exists r,
    readFileContent patchingPlatform (Some pdfFile) = Returns r
    /\ text r = cyrillicPage ++ [NEWLINE] ++ lit "scanned words"
    /\ extractor (meta r) = tag "pdfjs-soft"
    /\ usedOcr (meta r) = false
    /\ pages (meta r) = Some [cyrillicPage; lit "scanned words"]
    /\ ocrPatchedPages (meta r) = Some [2]
    /\ map step (trace (meta r))
       = ["pdfjs"; "ocr-adaptive"; "ocr-adaptive"; "pdfjs"]%string.
Proof.
  eexists. split; [vm_compute; reflexivity|]. repeat split.
Qed.

(** ** White space *)

Lemma isSpace_SPACE : isSpace SPACE = true.
Proof. reflexivity. Qed.

Lemma collapseFrom_length (s : jsstring) :
  forall inRun, length (collapseFrom inRun s) <= length s.
Proof.
  induction s as [|c s IH]; intros inRun; cbn [collapseFrom length]; [lia|].
  destruct (isSpace c); [destruct inRun|]; cbn [length];
    first [specialize (IH true); lia | specialize (IH false); lia].
Qed.

Lemma collapseFrom_idempotent (s : jsstring) :
  forall inRun,
    collapseFrom inRun (collapseFrom inRun s) = collapseFrom inRun s.
Proof.
  induction s as [|c s IH]; intros inRun; cbn [collapseFrom]; [reflexivity|].
  destruct (isSpace c) eqn:E.
  - destruct inRun; [apply IH|].
    cbn [collapseFrom]. rewrite isSpace_SPACE. now rewrite IH.
  - cbn [collapseFrom]. rewrite E. now rewrite IH.
Qed.

(** The flag with which the collapse continues after [u]. *)
Lemma collapseFrom_app (u v : jsstring) :
  forall inRun,
    collapseFrom inRun (u ++ v)
    = collapseFrom inRun u
      ++ collapseFrom (from_option isSpace inRun (last u)) v.
Proof.
  induction u as [|c u IH]; intros inRun; [reflexivity|].
  cbn [app collapseFrom].
  assert (Hlast : forall b, from_option isSpace b (last (c :: u))
                            = from_option isSpace (isSpace c) (last u)).
  { intros b. destruct u as [|d u]; [reflexivity|].
    change (last (c :: d :: u)) with (last (d :: u)).
    destruct (last (d :: u)) eqn:El; [reflexivity|].
    apply last_None in El. discriminate El. }
  rewrite Hlast.
  destruct (isSpace c) eqn:E; [destruct inRun|]; rewrite IH; reflexivity.
Qed.

Lemma collapseFrom_flag (s : jsstring) (inRun : bool) :
  from_option isSpace false (head s) = false ->
  collapseFrom inRun s = collapseFrom false s.
Proof.
  destruct s as [|c s]; [reflexivity|]. cbn [head from_option collapseFrom].
  now intros ->.
Qed.

Lemma collapseFrom_spaces (s : jsstring) :
  forall inRun,
    Forall (fun c => isSpace c = true -> c = SPACE) (collapseFrom inRun s).
Proof.
  induction s as [|c s IH]; intros inRun; cbn [collapseFrom]; [constructor|].
  destruct (isSpace c) eqn:E; [destruct inRun|].
  - apply IH.
  - constructor; [reflexivity|apply IH].
  - constructor; [congruence|apply IH].
Qed.

Lemma last_rev {A : Type} (l : list A) : last (rev l) = head l.
Proof. rewrite rev_alt. apply last_reverse. Qed.

Lemma head_rev {A : Type} (l : list A) : head (rev l) = last l.
Proof. rewrite rev_alt. apply head_reverse. Qed.

Lemma trimStart_split (s : jsstring) :
  exists w,
    s = w ++ trimStart s
    /\ Forall (fun c => isSpace c = true) w
    /\ from_option isSpace false (head (trimStart s)) = false.
Proof.
  induction s as [|c s (w & Hs & Hw & Hh)].
  - exists []. repeat split; constructor.
  - cbn [trimStart]. destruct (isSpace c) eqn:E.
    + exists (c :: w). cbn [app]. split; [congruence|]. split; [|assumption].
      now constructor.
    + exists []. cbn [app head from_option]. repeat split; [constructor|assumption].
Qed.

Lemma trimStart_fixed (s : jsstring) :
  from_option isSpace false (head s) = false -> trimStart s = s.
Proof.
  destruct s as [|c s]; [reflexivity|]. cbn [head from_option trimStart].
  now intros ->.
Qed.

Lemma trimEnd_split (s : jsstring) :
  exists w,
    s = trimEnd s ++ w
    /\ Forall (fun c => isSpace c = true) w
    /\ from_option isSpace false (last (trimEnd s)) = false.
Proof.
  unfold trimEnd. destruct (trimStart_split (rev s)) as (w & Hs & Hw & Hh).
  exists (rev w). split; [|split].
  - rewrite <- rev_app_distr, <- Hs. now rewrite rev_involutive.
  - now apply Forall_rev.
  - rewrite last_rev. exact Hh.
Qed.

Lemma trimEnd_fixed (s : jsstring) :
  from_option isSpace false (last s) = false -> trimEnd s = s.
Proof.
  intros H. unfold trimEnd. rewrite trimStart_fixed.
  - apply rev_involutive.
  - now rewrite head_rev.
Qed.

(** [trim] removes white space at both ends and nothing else. *)
Lemma trim_split (s : jsstring) :
  exists w1 w2,
    s = w1 ++ trim s ++ w2
    /\ Forall (fun c => isSpace c = true) w1
    /\ Forall (fun c => isSpace c = true) w2
    /\ from_option isSpace false (head (trim s)) = false
    /\ from_option isSpace false (last (trim s)) = false.
Proof.
  unfold trim.
  destruct (trimStart_split s) as (w1 & Hs & Hw1 & Hh).
  destruct (trimEnd_split (trimStart s)) as (w2 & Ht & Hw2 & Hl).
  exists w1, w2. split; [|split; [|split; [|split]]]; try assumption.
  - now rewrite <- Ht.
  - destruct (trimEnd (trimStart s)) as [|c t] eqn:E; [reflexivity|].
    rewrite Ht in Hh. exact Hh.
Qed.

Lemma trim_fixed (s : jsstring) :
  from_option isSpace false (head s) = false ->
  from_option isSpace false (last s) = false ->
  trim s = s.
Proof.
  intros Hh Hl. unfold trim. rewrite trimStart_fixed by assumption.
  now apply trimEnd_fixed.
Qed.

Lemma trim_idempotent (s : jsstring) : trim (trim s) = trim s.
Proof.
  destruct (trim_split s) as (w1 & w2 & _ & _ & _ & Hh & Hl).
  now apply trim_fixed.
Qed.

Lemma trim_length (s : jsstring) : length (trim s) <= length s.
Proof.
  destruct (trim_split s) as (w1 & w2 & Hs & _).
  rewrite Hs at 2. rewrite !length_app. lia.
Qed.

(** A string that the collapse leaves alone stays so when trimmed. *)
Lemma collapse_trim_fixed (s : jsstring) :
  collapseWhitespace s = s -> collapseWhitespace (trim s) = trim s.
Proof.
  unfold collapseWhitespace. intros Hs.
  destruct (trim_split s) as (w1 & w2 & Hsplit & _ & _ & Hh & _).
  remember (trim s) as t eqn:Et. clear Et. subst s.
  rewrite !collapseFrom_app in Hs.
  set (b1 := from_option isSpace false (last w1)) in Hs.
  set (b2 := from_option isSpace b1 (last t)) in Hs.
  pose proof (collapseFrom_length w1 false) as L1.
  pose proof (collapseFrom_length t b1) as L2.
  pose proof (collapseFrom_length w2 b2) as L3.
  pose proof (f_equal length Hs) as Hlen. rewrite !length_app in Hlen.
  apply app_inj_1 in Hs as [_ Hs]; [|lia].
  apply app_inj_1 in Hs as [Hs _]; [|lia].
  now rewrite <- (collapseFrom_flag t b1 Hh).
Qed.

(** The cleaning [s.replace(/\s+/g, ' ').trim()] is idempotent. *)
Lemma clean_idempotent (s : jsstring) :
  trim (collapseWhitespace (trim (collapseWhitespace s)))
  = trim (collapseWhitespace s).
Proof.
  rewrite collapse_trim_fixed.
  - apply trim_idempotent.
  - apply collapseFrom_idempotent.
Qed.

Lemma clean_spaces (s : jsstring) :
  Forall (fun c => isSpace c = true -> c = SPACE)
         (trim (collapseWhitespace s)).
Proof.
  pose proof (collapseFrom_spaces s false) as H.
  fold (collapseWhitespace s) in H.
  destruct (trim_split (collapseWhitespace s)) as (w1 & w2 & Hs & _).
  rewrite Hs in H. apply Forall_app in H as [_ H].
  now apply Forall_app in H as [H _].
Qed.

Lemma clean_no_newline (s : jsstring) :
  NEWLINE ∉ trim (collapseWhitespace s).
Proof.
  intros Hin. pose proof (clean_spaces s) as H.
  rewrite Forall_forall in H. specialize (H NEWLINE Hin eq_refl).
  discriminate H.
Qed.

Lemma clean_length (s : jsstring) :
  length (trim (collapseWhitespace s)) <= length s.
Proof.
  pose proof (trim_length (collapseWhitespace s)).
  pose proof (collapseFrom_length s false). unfold collapseWhitespace in *. lia.
Qed.

(** ** Arithmetic of counts and scores *)

Lemma ofNat_this (n : nat) : (this (ofNat n) == inject_Z (Z.of_nat n))%Q.
Proof. unfold ofNat. cbn [this Q2Qc]. apply Qred_correct. Qed.

Lemma ofNat_le (m n : nat) : m <= n -> (this (ofNat m) <= this (ofNat n))%Q.
Proof.
  intros H. rewrite !ofNat_this. rewrite <- Zle_Qle. lia.
Qed.

Lemma ofNat_lt (m n : nat) : m < n -> (this (ofNat m) < this (ofNat n))%Q.
Proof.
  intros H. rewrite !ofNat_this. rewrite <- Zlt_Qlt. lia.
Qed.

Lemma ofNat_plus (m n : nat) :
  (this (ofNat (m + n)) == this (ofNat m) + this (ofNat n))%Q.
Proof.
  rewrite !ofNat_this, Nat2Z.inj_add, inject_Z_plus. reflexivity.
Qed.

Lemma ofNat_nonneg (n : nat) : (0 <= this (ofNat n))%Q.
Proof. rewrite ofNat_this. change 0%Q with (inject_Z 0). rewrite <- Zle_Qle. lia. Qed.

Ltac closed_nat n :=
  lazymatch n with
  | O => idtac
  | S ?m => closed_nat m
  end.

(** Comparisons of canonical rationals as comparisons of fractions, with the
    numerals evaluated. *)
Ltac qc_unfold :=
  unfold num, Qcle, Qclt, Qcdiv, Qcminus in *;
  cbn [this Qcplus Qcmult Qcinv Qcopp Q2Qc] in *;
  repeat (rewrite ?Qred_correct in * );
  repeat match goal with
         | |- context [this (ofNat ?n)] =>
             closed_nat n;
             let v := eval vm_compute in (this (ofNat n)) in
             change (this (ofNat n)) with v in *
         | H : context [this (ofNat ?n)] |- _ =>
             closed_nat n;
             let v := eval vm_compute in (this (ofNat n)) in
             change (this (ofNat n)) with v in *
         end;
  repeat match goal with
         | |- context [Qinv (Qmake ?a ?b)] =>
             let v := eval vm_compute in (Qinv (Qmake a b)) in
             change (Qinv (Qmake a b)) with v in *
         | H : context [Qinv (Qmake ?a ?b)] |- _ =>
             let v := eval vm_compute in (Qinv (Qmake a b)) in
             change (Qinv (Qmake a b)) with v in *
         end.


Lemma ofNat_mult (m n : nat) :
  (this (ofNat (m * n)) == this (ofNat m) * this (ofNat n))%Q.
Proof.
  rewrite !ofNat_this, Nat2Z.inj_mul, inject_Z_mult. reflexivity.
Qed.

Lemma ofZ_this (z : Z) : (this (ofZ z) == inject_Z z)%Q.
Proof. unfold ofZ. cbn [this Q2Qc]. apply Qred_correct. Qed.

Lemma min2_le_l (a b : num) : (min2 a b <= a)%Qc.
Proof.
  unfold min2. destruct (leb a b) eqn:E; [qc_order|].
  unfold leb in E. apply bool_decide_eq_false in E. qc_order.
Qed.

Lemma min2_le_r (a b : num) : (min2 a b <= b)%Qc.
Proof.
  unfold min2. destruct (leb a b) eqn:E; [|qc_order].
  now apply leb_le in E.
Qed.

Lemma min2_glb (a b c : num) : (c <= a)%Qc -> (c <= b)%Qc -> (c <= min2 a b)%Qc.
Proof. intros Ha Hb. unfold min2. now destruct (leb a b). Qed.

Lemma max2_ge_l (a b : num) : (a <= max2 a b)%Qc.
Proof.
  unfold max2. destruct (leb a b) eqn:E; [|qc_order].
  now apply leb_le in E.
Qed.

Lemma max2_lub (a b c : num) : (a <= c)%Qc -> (b <= c)%Qc -> (max2 a b <= c)%Qc.
Proof. intros Ha Hb. unfold max2. now destruct (leb a b). Qed.

Lemma round_mono (x y : num) : (x <= y)%Qc -> (round x <= round y)%Z.
Proof.
  intros H. unfold round. apply Qfloor_resp_le. qc_unfold. lra.
Qed.

Lemma Qcdiv_nonneg (a b : num) : (0 <= a)%Qc -> (0 < b)%Qc -> (0 <= a / b)%Qc.
Proof.
  intros Ha Hb. qc_unfold.
  apply Qmult_le_0_compat; [assumption|].
  apply Qinv_le_0_compat. lra.
Qed.

Lemma Qcdiv_lower (a b c : num) :
  (0 < b)%Qc -> (c * b <= a)%Qc -> (c <= a / b)%Qc.
Proof.
  intros Hb H. qc_unfold. now apply Qle_shift_div_l.
Qed.

Lemma countMatches_le (p : char -> bool) (s : jsstring) :
  countMatches p s <= length s.
Proof. unfold countMatches. apply filter_length_le. Qed.

Lemma countMatches_disjoint (p q : char -> bool) (s : jsstring) :
  (forall c, p c = true -> q c = false) ->
  countMatches p s + countMatches q s <= length s.
Proof.
  intros Hpq. unfold countMatches.
  induction s as [|c s IH]; cbn [List.filter length]; [lia|].
  destruct (p c) eqn:Ep.
  - rewrite (Hpq c Ep). cbn [length]. lia.
  - destruct (q c); cbn [length]; lia.
Qed.

Lemma isCyrillic_not_digit (c : char) : isCyrillic c = true -> isDigit c = false.
Proof.
  unfold isCyrillic, isDigit. intros H.
  apply andb_false_iff.
  destruct (N.leb_spec c 57) as [Hle|Hgt]; [|now right].
  left. exfalso. revert H.
  rewrite !orb_true_iff, !andb_true_iff, !N.leb_le, !N.eqb_eq. lia.
Qed.

Lemma uniqueChars_le (s : jsstring) : uniqueChars s <= length s.
Proof.
  unfold uniqueChars. induction s as [|c s IH]; [reflexivity|].
  cbn [list_to_set foldr length].
  destruct (decide (c ∈ (list_to_set s : gset N))) as [Hin|Hout].
  - rewrite (subseteq_union_1_L (C:=gset N) {[c]} (list_to_set s))
      by now apply singleton_subseteq_l.
    lia.
  - rewrite size_union by now apply disjoint_singleton_l.
    rewrite size_singleton. lia.
Qed.

(** ** Quality Assessor: further properties *)

Lemma evaluate_clean (text : jsstring) :
  evaluateSoftPdfAcceptance (trim (collapseWhitespace text))
  = evaluateSoftPdfAcceptance text.
Proof.
  unfold evaluateSoftPdfAcceptance. now rewrite clean_idempotent.
Qed.

(** The score of a text of at most 23 code units, [c] of them Cyrillic, is
    at most the score of 23 code units, all different, [c] Cyrillic letters
    and [23 - c] digits, and that is less than 12. *)
Lemma short_score_bound (l c d u : nat) :
  l <= 23 -> c + d <= l -> u <= l ->
  ((ofNat l / ofNat 80 + ofNat c * js 0.4 + ofNat d * js 0.05
    + ofNat u * js 0.1)%js < ofNat 12)%Qc.
Proof.
  intros Hl Hcd Hu.
  set (bound := fun c => (ofNat 23 / ofNat 80 + ofNat c * js 0.4
                          + ofNat (23 - c) * js 0.05
                          + ofNat 23 * js 0.1)%js).
  assert (Hall : forallb (fun c => ltb (bound c) (ofNat 12)) (seq 0 24) = true)
    by (vm_compute; reflexivity).
  assert (Hc : ltb (bound c) (ofNat 12) = true).
  { rewrite forallb_forall in Hall. apply Hall, in_seq. lia. }
  apply ltb_lt in Hc.
  assert (H4 : (0 <= js 0.4)%Qc) by (apply leb_le; vm_compute; reflexivity).
  assert (H5 : (0 <= js 0.05)%Qc) by (apply leb_le; vm_compute; reflexivity).
  assert (H1 : (0 <= js 0.1)%Qc) by (apply leb_le; vm_compute; reflexivity).
  assert (H80 : (0 < ofNat 80)%Qc) by (apply ltb_lt; vm_compute; reflexivity).
  assert (Hle : ((ofNat l / ofNat 80 + ofNat c * js 0.4 + ofNat d * js 0.05
                  + ofNat u * js 0.1)%js <= bound c)%Qc).
  { unfold bound.
    apply fadd_mono; [apply fadd_mono; [apply fadd_mono|]|].
    - apply fdiv_mono; [apply ofNat_le; lia|assumption].
    - apply Qcle_refl.
    - apply fmul_mono; [apply ofNat_nonneg|apply ofNat_le; lia|assumption
                        |apply Qcle_refl].
    - apply fmul_mono; [apply ofNat_nonneg|apply ofNat_le; lia|assumption
                        |apply Qcle_refl]. }
  qc_order.
Qed.

(** X1.  No text of fewer than 24 code units (after cleaning) is readable:
    the score of 23 code units stays below 12, and every other clause of
    the acceptance predicate asks for 70 code units or more. *)
Theorem readable_needs_24_chars (text : jsstring) :
  readable (evaluateSoftPdfAcceptance text) = true ->
  24 <= length (cleaned_text (evaluateSoftPdfAcceptance text)).
Proof.
  unfold evaluateSoftPdfAcceptance.
  destruct (trim (collapseWhitespace text)) as [|c cleaned] eqn:E;
    cbn [truthy negb readable cleaned_text]; [discriminate|].
  set (s := c :: cleaned).
  rewrite !orb_true_iff, !andb_true_iff. unfold MIN_USEFUL_TEXT_LENGTH, geb.
  rewrite !Nat.leb_le, leb_le.
  intros [[[[H|[H _]]|[H _]]|[[H _] _]]|H]; try lia.
  pose proof (countMatches_disjoint isCyrillic isDigit s isCyrillic_not_digit)
    as H1.
  pose proof (uniqueChars_le s) as H2.
  destruct (Nat.le_gt_cases 24 (length s)) as [|Hlt]; [assumption|exfalso].
  assert (Hl : length s <= 23) by lia.
  pose proof (short_score_bound _ _ _ _ Hl H1 H2) as Hb.
  qc_order.
Qed.

Lemma readable_needs_24_chars_witness :
  readable (evaluateSoftPdfAcceptance cyrillicLetters24) = true
  /\ length (cleaned_text (evaluateSoftPdfAcceptance cyrillicLetters24)) = 24.
Proof.
  assert (H : readable (evaluateSoftPdfAcceptance cyrillicLetters24) = true)
    by (vm_compute; reflexivity).
  split; [exact H|].
  pose proof (readable_needs_24_chars cyrillicLetters24 H) as Hlow.
  pose proof (clean_length cyrillicLetters24) as Hup.
  change (cleaned_text (evaluateSoftPdfAcceptance cyrillicLetters24))
    with (trim (collapseWhitespace cyrillicLetters24)) in *.
  change (length cyrillicLetters24) with 24 in Hup. lia.
Defined.

(** X2.  The assessment depends on the cleaned text only: assessing the
    cleaned text that an assessment reports gives the same assessment. *)
Theorem evaluateSoftPdfAcceptance_idempotent (text : jsstring) :
  evaluateSoftPdfAcceptance (cleaned_text (evaluateSoftPdfAcceptance text))
  = evaluateSoftPdfAcceptance text.
Proof.
  rewrite <- (evaluate_clean text) at 2.
  f_equal. unfold evaluateSoftPdfAcceptance.
  destruct (trim (collapseWhitespace text)) as [|c cleaned] eqn:E; reflexivity.
Qed.

(** ** Page quality *)

Lemma toFixed3_mono (x y : num) : (x <= y)%Qc -> (toFixed3 x <= toFixed3 y)%Qc.
Proof.
  intros H. unfold toFixed3. apply double_mono.
  assert (Hr : (round (x * ofNat 1000)%Qc <= round (y * ofNat 1000)%Qc)%Z).
  { apply round_mono. qc_unfold. lra. }
  rewrite Zle_Qle in Hr. qc_unfold. rewrite !ofZ_this. lra.
Qed.

Lemma computeQuality_cases (text : jsstring) :
  let cleaned := trim (collapseWhitespace text) in
  (cleaned = [] /\ computeQuality text = ofNat 0)
  \/ (cleaned <> []
      /\ computeQuality text
         = toFixed3
             (min2 (ofNat 1) (ofNat (length cleaned) / ofNat 4000)
              + min2 (js 0.6)
                     (ofNat (countMatches isCyrillic cleaned)
                      / ofNat (length cleaned)))%js).
Proof.
  intros cleaned. unfold computeQuality. fold cleaned.
  destruct text as [|c text]; [left; split; reflexivity|].
  cbn [truthy negb].
  destruct cleaned as [|d cleaned'] eqn:E; [left; split; reflexivity|].
  right. split; [discriminate|]. cbn [truthy negb].
  now replace (Nat.max (length (d :: cleaned')) 1) with (length (d :: cleaned'))
    by (cbn [length]; lia).
Qed.

Lemma fdiv_nonneg (a b : num) :
  (0 <= a)%Qc -> (0 < b)%Qc -> (0 <= (a / b)%js)%Qc.
Proof.
  intros Ha Hb. apply double_nonneg. now apply Qcdiv_nonneg.
Qed.

Lemma lengthScore_nonneg (n : nat) :
  (0 <= min2 (ofNat 1) (ofNat n / ofNat 4000)%js)%Qc.
Proof.
  apply min2_glb; [vm_compute; discriminate|].
  apply fdiv_nonneg; [apply ofNat_nonneg|vm_compute; reflexivity].
Qed.

Lemma cyrillicScore_nonneg (c n : nat) :
  0 < n -> (0 <= min2 (js 0.6) (ofNat c / ofNat n)%js)%Qc.
Proof.
  intros Hn. apply min2_glb; [apply leb_le; vm_compute; reflexivity|].
  apply fdiv_nonneg; [apply ofNat_nonneg|].
  apply (ofNat_lt 0 n) in Hn. exact Hn.
Qed.

(** The largest sum, [1 + 0.6], is rounded to the number 1.6, and three
    decimals of 1.6 are 1.6. *)
Lemma computeQuality_bounds (text : jsstring) :
  (0 <= computeQuality text)%Qc /\ (computeQuality text <= js 1.6)%Qc.
Proof.
  destruct (computeQuality_cases text) as [[_ ->]|[Hne ->]].
  - split; apply leb_le; vm_compute; reflexivity.
  - set (cleaned := trim (collapseWhitespace text)) in *.
    assert (Hpos : 0 < length cleaned) by (destruct cleaned; [easy|cbn; lia]).
    pose proof (lengthScore_nonneg (length cleaned)) as H1.
    pose proof (cyrillicScore_nonneg (countMatches isCyrillic cleaned)
                                     (length cleaned) Hpos) as H2.
    pose proof (min2_le_l (ofNat 1) (ofNat (length cleaned) / ofNat 4000)%js)
      as H3.
    pose proof (min2_le_l (js 0.6)
                  (ofNat (countMatches isCyrillic cleaned)
                   / ofNat (length cleaned))%js) as H4.
    set (a := min2 (ofNat 1) _) in *. set (b := min2 (js 0.6) _) in *.
    split.
    + replace 0%Qc with (toFixed3 (ofNat 0 + ofNat 0)%js)
        by (apply Qc_is_canon; vm_compute; reflexivity).
      apply toFixed3_mono. now apply fadd_mono.
    + replace (js 1.6) with (toFixed3 (ofNat 1 + js 0.6)%js)
        by (apply Qc_is_canon; vm_compute; reflexivity).
      apply toFixed3_mono. now apply fadd_mono.
Qed.

(** X3.  The quality of a text lies between 0 and 1.6 (up to 1 for the
    length and up to 0.6 for the share of Cyrillic letters), and is 0 for a
    text without visible characters. *)
Theorem computeQuality_range (text : jsstring) :
  (0 <= computeQuality text)%Qc
  /\ (computeQuality text <= js 1.6)%Qc
  /\ (trim (collapseWhitespace text) = [] -> computeQuality text = ofNat 0).
Proof.
  destruct (computeQuality_bounds text) as [Hlow Hup].
  split; [exact Hlow|]. split; [exact Hup|].
  intros Hempty.
  destruct (computeQuality_cases text) as [[_ H]|[Hne _]]; [exact H|].
  now destruct Hne.
Qed.

(** A quality of 0.12 or more: from the length alone when the cleaned text
    has 480 code units, since [480 / 4000] is 0.12, or from the share of
    Cyrillic letters alone.  Rounding keeps the order, and 0.12 has three
    decimals. *)
Lemma computeQuality_high (text : jsstring) :
  let cleaned := trim (collapseWhitespace text) in
  480 <= length cleaned
  \/ (cleaned <> []
      /\ 3 * length cleaned <= 25 * countMatches isCyrillic cleaned) ->
  (OCR_QUALITY_THRESHOLD <= computeQuality text)%Qc.
Proof.
  intros cleaned H.
  destruct (computeQuality_cases text) as [[He _]|[Hne ->]].
  { fold cleaned in He. rewrite He in H. cbn [length] in H.
    destruct H as [H|[H _]]; [lia|now destruct H]. }
  fold cleaned in Hne |- *.
  assert (Hpos : 0 < length cleaned) by (destruct cleaned; [easy|cbn; lia]).
  pose proof (lengthScore_nonneg (length cleaned)) as H1.
  pose proof (cyrillicScore_nonneg (countMatches isCyrillic cleaned)
                                   (length cleaned) Hpos) as H2.
  unfold OCR_QUALITY_THRESHOLD.
  destruct H as [Hlong|[_ Hcyr]].
  - replace (js 0.12) with (toFixed3 (js 0.12 + ofNat 0)%js)
      by (apply Qc_is_canon; vm_compute; reflexivity).
    apply toFixed3_mono. apply fadd_mono; [|exact H2].
    apply min2_glb; [apply leb_le; vm_compute; reflexivity|].
    unfold js, fdiv. apply double_mono.
    apply ofNat_le in Hlong. qc_unfold. lra.
  - replace (js 0.12) with (toFixed3 (ofNat 0 + js 0.12)%js)
      by (apply Qc_is_canon; vm_compute; reflexivity).
    apply toFixed3_mono. apply fadd_mono; [exact H1|].
    apply min2_glb; [apply leb_le; vm_compute; reflexivity|].
    unfold js, fdiv. apply double_mono.
    apply Qcdiv_lower.
    + apply (ofNat_lt 0) in Hpos. exact Hpos.
    + apply ofNat_le in Hcyr. rewrite !ofNat_mult in Hcyr.
      qc_unfold. lra.
Qed.

(** X4.  A page whose cleaned text has 480 code units or more, or of whose
    code units at least 12% are Cyrillic letters, has a quality of at least
    0.12, the threshold of the adaptive OCR patch, so it is never among the
    low-quality pages and the patch is not asked to read it. *)
Theorem lowQualityPages_spares (pages : list jsstring) (i : nat)
    (page : jsstring) :
  pages !! i = Some page ->
  480 <= length (trim (collapseWhitespace page))
  \/ (trim (collapseWhitespace page) <> []
      /\ 3 * length (trim (collapseWhitespace page))
         <= 25 * countMatches isCyrillic (trim (collapseWhitespace page))) ->
  (js 0.12 <= computeQuality page)%Qc
  /\ (i + 1 ∉ lowQualityPages pages).
Proof.
  intros Hi Hgood.
  pose proof (computeQuality_high page Hgood) as Hq.
  split; [exact Hq|]. intros Hlow.
  apply lowQualityPages_low in Hlow as (page' & _ & Hi' & Hlt).
  replace (i + 1 - 1) with i in Hi' by lia.
  assert (page' = page) as -> by congruence.
  apply ltb_lt in Hlt.
  generalize dependent (computeQuality page). intros q Hq Hlt.
  generalize dependent OCR_QUALITY_THRESHOLD. intros t Hq Hlt.
  qc_order.
Qed.

Lemma lowQualityPages_spares_witness :
  (js 0.12 <= computeQuality cyrillicPage)%Qc
  /\ (1 ∉ lowQualityPages [cyrillicPage])
  /\ (2 ∈ lowQualityPages [cyrillicPage; lit "abc"]).
Proof.
  assert (Hgood :
            480 <= length (trim (collapseWhitespace cyrillicPage))
            \/ (trim (collapseWhitespace cyrillicPage) <> []
                /\ 3 * length (trim (collapseWhitespace cyrillicPage))
                   <= 25 * countMatches isCyrillic
                             (trim (collapseWhitespace cyrillicPage)))).
  { right. split; [discriminate|]. vm_compute. lia. }
  destruct (lowQualityPages_spares [cyrillicPage] 0 cyrillicPage eq_refl Hgood)
    as [Hq Hout].
  split; [exact Hq|]. split; [exact Hout|].
  vm_compute. apply list_elem_of_here.
Defined.

(** ** Page segments and page metadata *)

Lemma normalizePageSegments_clean (segments : list JsValue)
    (fallbackText : jsstring) :
  Forall (fun p => p <> [] /\ trim (collapseWhitespace p) = p)
         (normalizePageSegments segments fallbackText).
Proof.
  unfold normalizePageSegments.
  match goal with |- context [0 <? length ?l] => set (cleaned := l) end.
  assert (Hc : Forall (fun p => p <> [] /\ trim (collapseWhitespace p) = p)
                      cleaned).
  { apply Forall_forall. intros p Hp.
    apply list_elem_of_In, filter_In in Hp as [Hin Ht].
    apply in_map_iff in Hin as (seg & <- & _).
    destruct seg as [s|b]; [|discriminate Ht].
    split; [now apply truthy_true|apply clean_idempotent]. }
  destruct (0 <? length cleaned); [exact Hc|].
  destruct (truthy (trim (collapseWhitespace fallbackText))) eqn:E;
    [|constructor].
  constructor; [|constructor].
  split; [now apply truthy_true|apply clean_idempotent].
Qed.

Lemma normalize_clean_pages (l : list jsstring) :
  Forall (fun p => p <> [] /\ trim (collapseWhitespace p) = p) l ->
  List.filter truthy
    (map (fun segment =>
            match segment with
            | JsStr s => trim (collapseWhitespace s)
            | JsNonString _ => []
            end) (map JsStr l)) = l.
Proof.
  induction 1 as [|p l [Hne Hp] _ IH]; [reflexivity|].
  cbn [map List.filter]. rewrite Hp.
  apply truthy_true in Hne. rewrite Hne. now rewrite IH.
Qed.

Lemma normalizePageSegments_fixed (l : list jsstring) (fallbackText : jsstring) :
  l <> [] ->
  Forall (fun p => p <> [] /\ trim (collapseWhitespace p) = p) l ->
  normalizePageSegments (map JsStr l) fallbackText = l.
Proof.
  intros Hne Hl. unfold normalizePageSegments.
  rewrite (normalize_clean_pages l Hl).
  destruct l; [contradiction|reflexivity].
Qed.

(** X5.  Every page that [normalizePageSegments] returns is not empty, has
    no line break, and is its own cleaned form (white space collapsed and
    trimmed); normalizing the pages again returns them as they are. *)
Theorem normalizePageSegments_idempotent (segments : list JsValue)
    (fallbackText again : jsstring) :
  let pages := normalizePageSegments segments fallbackText in
  Forall (fun p => p <> [] /\ (NEWLINE ∉ p)
                   /\ trim (collapseWhitespace p) = p)
         pages
  /\ (pages <> [] -> normalizePageSegments (map JsStr pages) again = pages).
Proof.
  intros pages.
  pose proof (normalizePageSegments_clean segments fallbackText) as Hc.
  fold pages in Hc. split.
  - eapply Forall_impl; [exact Hc|]. intros p [Hne Hp].
    split; [assumption|]. split; [|assumption].
    rewrite <- Hp. apply clean_no_newline.
  - intros Hne. now apply normalizePageSegments_fixed.
Qed.

(** X6.  [buildPageMeta] gives a text with a visible character at least one
    page, whatever the page array holds; [pageCount] is the number of pages
    when there is one, and the number of layout pages otherwise. *)
Theorem buildPageMeta_pageCount (text : jsstring) (pagesInput : list JsValue)
    (layout : option nat) :
  let pageMeta := buildPageMeta text pagesInput layout in
  (trim (collapseWhitespace text) <> [] -> pm_pages pageMeta <> [])
  /\ (pm_pages pageMeta <> [] ->
      pm_pageCount pageMeta = length (pm_pages pageMeta))
  /\ (pm_pages pageMeta = [] ->
      pm_pageCount pageMeta = from_option id 0 layout).
Proof.
  cbn zeta. unfold buildPageMeta. cbn [pm_pages pm_pageCount].
  split; [|split].
  - intros Hne. unfold normalizePageSegments.
    match goal with |- context [0 <? length ?x] => destruct x as [|p l] end.
    + cbn [length Nat.ltb Nat.leb]. apply truthy_true in Hne. rewrite Hne.
      discriminate.
    + discriminate.
  - intros Hne. destruct (normalizePageSegments pagesInput text); [easy|].
    reflexivity.
  - intros ->. cbn [length]. unfold orElse. cbn [Nat.eqb].
    now destruct (from_option id 0 layout).
Qed.

(** *** The page-tagged text determines the pages *)

Lemma line_prefix_unique (p q a b : jsstring) :
  NEWLINE ∉ p -> NEWLINE ∉ q ->
  (a = [] \/ exists r, a = NEWLINE :: r) ->
  (b = [] \/ exists r, b = NEWLINE :: r) ->
  p ++ a = q ++ b -> p = q /\ a = b.
Proof.
  revert q. induction p as [|c p IH]; intros q Hp Hq Ha Hb Heq.
  - destruct q as [|d q]; [now split|]. exfalso. cbn [app] in Heq.
    destruct Ha as [->|[r ->]]; [discriminate Heq|].
    injection Heq as <- _. apply Hq. apply list_elem_of_here.
  - destruct q as [|d q].
    + exfalso. cbn [app] in Heq.
      destruct Hb as [->|[r ->]]; [discriminate Heq|].
      injection Heq as -> _. apply Hp. apply list_elem_of_here.
    + cbn [app] in Heq. injection Heq as -> Heq.
      destruct (IH q) as [-> ->]; auto.
      * intros Hin. apply Hp. now apply list_elem_of_further.
      * intros Hin. apply Hq. now apply list_elem_of_further.
Qed.

Lemma pageTaggedFrom_injective (ps : list jsstring) :
  forall qs i,
    Forall (fun p => NEWLINE ∉ p) ps -> Forall (fun p => NEWLINE ∉ p) qs ->
    Spec.pageTaggedFrom i ps = Spec.pageTaggedFrom i qs -> ps = qs.
Proof.
  induction ps as [|p ps IH]; intros [|q qs] i Hps Hqs Heq.
  - reflexivity.
  - discriminate Heq.
  - discriminate Heq.
  - apply Forall_cons in Hps as [Hp Hps]. apply Forall_cons in Hqs as [Hq Hqs].
    cbn [Spec.pageTaggedFrom] in Heq.
    rewrite !(app_assoc (lit "<<<PAGE ")), !(app_assoc _ (lit ">>>")),
      !(app_assoc _ [NEWLINE]) in Heq.
    apply app_inv_head in Heq.
    apply line_prefix_unique in Heq as [-> Heq]; try assumption.
    + f_equal. destruct ps as [|p' ps], qs as [|q' qs]; try discriminate Heq.
      * reflexivity.
      * apply app_inv_head in Heq. now apply (IH _ (S i)).
    + destruct ps; [now left|right; eexists; reflexivity].
    + destruct qs; [now left|right; eexists; reflexivity].
Qed.

(** X7.  On pages without line breaks (as page metadata holds them)
    [buildPageTaggedText] is injective: the tagged text determines the
    pages. *)
Theorem buildPageTaggedText_injective (ps qs : list jsstring) :
  Forall (fun p => NEWLINE ∉ p) ps -> Forall (fun p => NEWLINE ∉ p) qs ->
  buildPageTaggedText ps = buildPageTaggedText qs -> ps = qs.
Proof.
  rewrite !buildPageTaggedText_spec. unfold Spec.pageTagged.
  apply pageTaggedFrom_injective.
Qed.

Lemma buildPageTaggedText_injective_witness :
  normalizePageSegments [JsStr (lit " one  "); JsNonString true;
                         JsStr (lit "two" ++ [NEWLINE])] []
  = [lit "one"; lit "two"].
Proof.
  apply buildPageTaggedText_injective.
  - apply Forall_forall. intros p Hp.
    pose proof (normalizePageSegments_clean
                  [JsStr (lit " one  "); JsNonString true;
                   JsStr (lit "two" ++ [NEWLINE])] []) as Hc.
    rewrite Forall_forall in Hc. destruct (Hc p Hp) as [_ <-].
    apply clean_no_newline.
  - repeat constructor; vm_compute; intros H;
      repeat (apply elem_of_cons in H as [H|H]; [discriminate H|]);
      inversion H.
  - vm_compute. reflexivity.
Defined.

(** ** The page metadata of a result *)

Lemma patchStep_clean (st : list jsstring * list nat) (patch : nat * jsstring) :
  Forall (fun p => trim (collapseWhitespace p) = p) st.1 ->
  Forall (fun p => trim (collapseWhitespace p) = p) (patchStep st patch).1.
Proof.
  destruct st as [pages patched], patch as [pageNumber text].
  cbn [fst]. intros Hpages. unfold patchStep.
  destruct (negb (truthy (trim (collapseWhitespace text)))); [exact Hpages|].
  destruct pageNumber as [|index]; [exact Hpages|]. cbn [fst].
  apply Forall_insert; [|apply clean_idempotent].
  unfold extendTo. apply Forall_app. split; [exact Hpages|].
  apply Forall_replicate. reflexivity.
Qed.

Lemma patchStep_fold_clean (patches : Patches) :
  forall st,
    Forall (fun p => trim (collapseWhitespace p) = p) st.1 ->
    Forall (fun p => trim (collapseWhitespace p) = p)
           (fold_left patchStep patches st).1.
Proof.
  induction patches as [|patch patches IH]; intros st Hst; [exact Hst|].
  cbn [fold_left]. apply IH. now apply patchStep_clean.
Qed.

(** The adaptive patch either leaves the metadata and the text as they
    were, or replaces pages and recomputes the derived fields. *)
Lemma adaptivePatch_cases (env : Platform) (pdfMeta : PageMeta)
    (pdfText : jsstring) (trace : Trace) :
  (exists trace', adaptivePatch env pdfMeta pdfText trace
                  = (pdfMeta, pdfText, trace'))
  \/ (exists (patches : Patches) pages patched trace',
        patched <> []
        /\ patches
           = (ocrPdfPages env (lowQualityPages (pm_pages pdfMeta)) trace).1
        /\ fold_left patchStep patches (pm_pages pdfMeta, []) = (pages, patched)
        /\ adaptivePatch env pdfMeta pdfText trace
           = (mkPageMeta pages
                (orElse (length pages) (orElse (pm_layoutPageCount pdfMeta) 0))
                (buildPageTaggedText pages) (pm_layoutPageCount pdfMeta)
                (Some patched),
              join [NEWLINE] pages, trace')).
Proof.
  unfold adaptivePatch.
  destruct (0 <? length (lowQualityPages (pm_pages pdfMeta)));
    [|left; eexists; reflexivity].
  destruct (ocrPdfPages env (lowQualityPages (pm_pages pdfMeta)) trace)
    as [patches trace1].
  cbn [fst].
  pose proof (patchStep_fold patches (pm_pages pdfMeta) []) as Hloop.
  cbn zeta in Hloop.
  destruct (fold_left patchStep patches (pm_pages pdfMeta, []))
    as [pages patched] eqn:Efold.
  cbn [fst snd] in Hloop.
  destruct patched as [|n patched].
  - left. destruct Hloop as (_ & _ & _ & _ & _ & Hnone & _).
    specialize (Hnone eq_refl). injection Hnone as ->.
    cbn [length Nat.ltb Nat.leb]. exists trace1. now destruct pdfMeta.
  - right. exists patches, pages, (n :: patched). eexists.
    split; [discriminate|]. split; [reflexivity|].
    split; [exact Efold|reflexivity].
Qed.

Lemma PageSource_invariants (pageMeta : PageMeta) :
  PageSource pageMeta ->
  Forall (fun p => trim (collapseWhitespace p) = p) (pm_pages pageMeta)
  /\ (pm_pages pageMeta <> [] ->
      pm_pageCount pageMeta = length (pm_pages pageMeta)).
Proof.
  assert (Hbuilt : forall text pagesInput layout,
             let m := buildPageMeta text pagesInput layout in
             Forall (fun p => trim (collapseWhitespace p) = p) (pm_pages m)
             /\ (pm_pages m <> [] -> pm_pageCount m = length (pm_pages m))).
  { intros text pagesInput layout. cbn zeta. split.
    - eapply Forall_impl; [apply normalizePageSegments_clean|].
      now intros p [_ Hp].
    - unfold buildPageMeta. cbn [pm_pages pm_pageCount].
      destruct (normalizePageSegments pagesInput text); [easy|reflexivity]. }
  intros [text pagesInput layout|env text pagesInput layout pdfText trace].
  - apply Hbuilt.
  - destruct (Hbuilt text pagesInput layout) as [Hclean Hcount].
    destruct (adaptivePatch_cases env (buildPageMeta text pagesInput layout)
                                  pdfText trace)
      as [[trace' ->]|(patches & pages & patched & trace' & _ & _ & Hfold & ->)];
      cbn [fst]; [now split|].
    cbn [pm_pages pm_pageCount]. split.
    + pose proof (patchStep_fold_clean patches
                    (pm_pages (buildPageMeta text pagesInput layout), [])
                    Hclean) as H.
      now rewrite Hfold in H.
    + intros Hne. destruct pages; [easy|reflexivity].
Qed.

Lemma ocrFallback_built (env : Platform) (trace : Trace) :
  Built (ocrFallback env trace).
Proof.
  unfold ocrFallback. destruct (ocrPdf env trace 10) as [ocr trace'].
  destruct (truthy (stage_text ocr) && (40 <=? length (trim (stage_text ocr)))).
  - eexists _, _, _, _, _, (Some _). split; [reflexivity|]. constructor.
  - eexists _, _, _, _, _, None. split; [reflexivity|]. constructor.
Qed.

Lemma serverFallback_built (env : Platform) (trace : Trace) (r : Response) :
  serverFallback env trace = Returns r -> Built r.
Proof.
  unfold serverFallback.
  destruct (serverExtractText (server env) trace) as [[payload|] trace'];
    [|intros [= <-]; apply ocrFallback_built].
  destruct (valueTruthy (payload_text payload));
    [|intros [= <-]; apply ocrFallback_built].
  destruct (payload_text payload) as [serverText|]; [|discriminate].
  destruct (40 <=? length (trim serverText));
    [|intros [= <-]; apply ocrFallback_built].
  destruct (buildPlainLayout _); [|discriminate].
  intros [= <-]. eexists _, _, _, _, _, (Some _). split; [reflexivity|].
  constructor.
Qed.

Lemma readPdf_built (env : Platform) (trace : Trace) (r : Response) :
  readPdf env trace = Returns r -> Built r.
Proof.
  unfold readPdf.
  destruct (renderPdfWithPdfjs (pdfjsOutcome env) trace) as [pdfResult trace1].
  pose proof (pages_patched env (stage_text pdfResult)
                (map JsStr (stage_pages pdfResult))
                (layoutCount (stage_layout pdfResult))
                (stage_text pdfResult) trace1) as Hsource.
  destruct (adaptivePatch env _ (stage_text pdfResult) trace1)
    as [[pdfMeta pdfText] trace2].
  cbn [fst] in Hsource.
  destruct (truthy (trim pdfText)).
  - intros [= <-]. eexists _, _, _, _, _, (Some _). split; [reflexivity|].
    exact Hsource.
  - apply serverFallback_built.
Qed.

Lemma readImage_built (env : Platform) (trace : Trace) (r : Response) :
  readImage env trace = Returns r -> Built r.
Proof.
  unfold readImage. destruct (dataUrlRejects env); [discriminate|].
  destruct (negb (loadTesseract env));
    [|destruct (imageRecognition env)];
    intros [= <-]; eexists _, _, _, _, _, (Some _);
    (split; [reflexivity|constructor]).
Qed.

Lemma readFileContent_built (env : Platform) (file : option File)
    (r : Response) :
  readFileContent env file = Returns r -> Built r.
Proof.
  unfold readFileContent. destruct file as [f|].
  2: { intros [= <-]. eexists _, _, _, _, _, None.
       split; [reflexivity|constructor]. }
  destruct (acquisition env) as [m| |bytes]; try discriminate.
  destruct (base64Throws env); [discriminate|].
  destruct (detectFileKind (Some f) bytes).
  - apply readPdf_built.
  - destruct (extractDocx (docxOutcome env) []) as [docx trace].
    intros [= <-]. eexists _, _, _, _, _, (Some _).
    split; [reflexivity|constructor].
  - intros [= <-]. eexists _, _, _, _, _, (Some _).
    split; [reflexivity|constructor].
  - apply readImage_built.
  - intros [= <-]. eexists _, _, _, _, _, None.
    split; [reflexivity|constructor].
  - intros [= <-]. eexists _, _, _, _, _, None.
    split; [reflexivity|constructor].
Qed.

(** X8.  In every result the pages of [meta.pages] are in cleaned form:
    white space collapsed and trimmed, hence without line breaks; this
    includes the pages written or padded by the adaptive OCR patch. *)
Theorem result_pages_clean (env : Platform) (file : option File)
    (r : Response) (pageList : list jsstring) :
  readFileContent env file = Returns r ->
  pages (meta r) = Some pageList ->
  Forall (fun p => trim (collapseWhitespace p) = p /\ (NEWLINE ∉ p)) pageList.
Proof.
  intros Hr Hp.
  apply readFileContent_built in Hr
    as (trace & kind & extractor & text & usedOcr & extra & -> & Hsource).
  destruct extra as [pageMeta|]; [|discriminate Hp].
  cbn in Hp. injection Hp as <-.
  apply PageSource_invariants in Hsource as [Hclean _].
  eapply Forall_impl; [exact Hclean|]. intros p Hp.
  split; [exact Hp|]. rewrite <- Hp. apply clean_no_newline.
Qed.

Lemma result_pages_clean_witness :
  exists r,
    readFileContent patchingPlatform (Some pdfFile) = Returns r
    /\ pages (meta r) = Some [cyrillicPage; lit "scanned words"]
    /\ Forall (fun p => trim (collapseWhitespace p) = p /\ (NEWLINE ∉ p))
              [cyrillicPage; lit "scanned words"].
Proof.
  destruct (readFileContent patchingPlatform (Some pdfFile)) as [r|e] eqn:E;
    [|vm_compute in E; discriminate E].
  assert (Hp : pages (meta r) = Some [cyrillicPage; lit "scanned words"]).
  { vm_compute in E. injection E as <-. reflexivity. }
  exists r. split; [reflexivity|]. split; [exact Hp|].
  exact (result_pages_clean patchingPlatform (Some pdfFile) r _ E Hp).
Defined.

(** X9.  In every result that has at least one page, [meta.pageCount] is
    the number of pages in [meta.pages], also after the adaptive OCR patch
    lengthened the page array. *)
Theorem result_pageCount (env : Platform) (file : option File)
    (r : Response) (pageList : list jsstring) :
  readFileContent env file = Returns r ->
  pages (meta r) = Some pageList ->
  pageList <> [] ->
  pageCount (meta r) = Some (length pageList).
Proof.
  intros Hr Hp Hne.
  apply readFileContent_built in Hr
    as (trace & kind & extractor & text & usedOcr & extra & -> & Hsource).
  destruct extra as [pageMeta|]; [|discriminate Hp].
  cbn in Hp. injection Hp as <-. cbn.
  apply PageSource_invariants in Hsource as [_ Hcount].
  now rewrite Hcount.
Qed.

Lemma result_pageCount_witness :
  exists r,
    readFileContent patchingPlatform (Some pdfFile) = Returns r
    /\ pages (meta r) = Some [cyrillicPage; lit "scanned words"]
    /\ pageCount (meta r) = Some 2.
Proof.
  destruct (readFileContent patchingPlatform (Some pdfFile)) as [r|e] eqn:E;
    [|vm_compute in E; discriminate E].
  assert (Hp : pages (meta r) = Some [cyrillicPage; lit "scanned words"]).
  { vm_compute in E. injection E as <-. reflexivity. }
  exists r. split; [reflexivity|]. split; [exact Hp|].
  apply (result_pageCount patchingPlatform (Some pdfFile) r _ E Hp).
  discriminate.
Defined.

(** ** The PDF branch: text and pages *)

Lemma renderPdfWithPdfjs_stage (outcome : PdfjsOutcome) (trace : Trace) :
  let result := (renderPdfWithPdfjs outcome trace).1 in
  stage_text result = trim (join [NEWLINE] (stage_pages result))
  /\ Forall (fun p => p <> [] /\ trim (collapseWhitespace p) = p)
            (stage_pages result).
Proof.
  destruct outcome as [m|pageBlocks]; cbn.
  - split; [reflexivity|constructor].
  - split; [reflexivity|].
    apply Forall_forall. intros p Hp.
    apply list_elem_of_In, filter_In in Hp as [Hin Ht].
    apply in_map_iff in Hin as (blocks & <- & _).
    split; [now apply truthy_true|]. unfold pageTextOf. apply clean_idempotent.
Qed.

Lemma buildPageMeta_stage_pages (pageList : list jsstring) (layout : option nat) :
  Forall (fun p => p <> [] /\ trim (collapseWhitespace p) = p) pageList ->
  pm_pages (buildPageMeta (trim (join [NEWLINE] pageList))
                          (map JsStr pageList) layout)
  = pageList.
Proof.
  intros Hclean. unfold buildPageMeta. cbn [pm_pages].
  destruct pageList as [|p pageList]; [reflexivity|].
  now apply normalizePageSegments_fixed.
Qed.

(** X11.  For a PDF whose structural text (after the adaptive patch) is not
    empty, the returned text is the pages of [meta.pages] joined by line
    breaks and trimmed: text and pages never drift apart, with or without
    patched pages. *)
Theorem pdf_text_joins_pages (env : Platform) (file : File) (bytes : buffer) :
  acquisition env = Acquired bytes ->
  base64Throws env = false ->
  detectFileKind (Some file) bytes = Kpdf ->
  let structural := renderPdfWithPdfjs (pdfjsOutcome env) [] in
  let pdfMeta :=
    buildPageMeta (stage_text structural.1)
                  (map JsStr (stage_pages structural.1))
                  (layoutCount (stage_layout structural.1)) in
  let patched := adaptivePatch env pdfMeta (stage_text structural.1) structural.2 in
  trim patched.1.2 <> [] ->
  exists r pageList,
    readFileContent env (Some file) = Returns r
    /\ pages (meta r) = Some pageList
    /\ text r = trim (join [NEWLINE] pageList).
Proof.
  intros Hacq Hb64 Hkind. cbn zeta.
  unfold readFileContent. rewrite Hacq, Hb64, Hkind. unfold readPdf.
  destruct (renderPdfWithPdfjs_stage (pdfjsOutcome env) []) as [Htext Hclean].
  destruct (renderPdfWithPdfjs (pdfjsOutcome env) []) as [pdfResult trace1].
  cbn [fst snd] in *.
  pose proof (buildPageMeta_stage_pages (stage_pages pdfResult)
                (layoutCount (stage_layout pdfResult)) Hclean) as Hpages.
  rewrite <- Htext in Hpages.
  destruct (adaptivePatch_cases env
              (buildPageMeta (stage_text pdfResult)
                 (map JsStr (stage_pages pdfResult))
                 (layoutCount (stage_layout pdfResult)))
              (stage_text pdfResult) trace1)
    as [[trace' ->]|(patches & pageList & patched & trace' & _ & _ & _ & ->)];
    cbn [fst snd]; intros Hne; apply truthy_true in Hne; rewrite Hne.
  - eexists _, _. split; [reflexivity|].
    cbn [text meta pages chooseText buildResponse fmap option_fmap option_map].
    split; [reflexivity|].
    rewrite Hpages, Htext. apply trim_idempotent.
  - eexists _, _. split; [reflexivity|].
    cbn [text meta pages chooseText buildResponse fmap option_fmap option_map
         pm_pages].
    split; reflexivity.
Qed.

Lemma pdf_text_joins_pages_witness :
  exists r,
    readFileContent patchingPlatform (Some pdfFile) = Returns r
    /\ pages (meta r) = Some [cyrillicPage; lit "scanned words"]
    /\ text r = cyrillicPage ++ [NEWLINE] ++ lit "scanned words".
Proof.
  destruct (pdf_text_joins_pages patchingPlatform pdfFile pdfBytes
              eq_refl eq_refl eq_refl)
    as (r & pageList & Hr & Hp & Ht).
  - vm_compute. discriminate.
  - exists r.
    assert (Hl : pageList = [cyrillicPage; lit "scanned words"]).
    { vm_compute in Hr. injection Hr as <-. cbn in Hp. now injection Hp as <-. }
    subst pageList. split; [exact Hr|]. split; [exact Hp|].
    rewrite Ht. vm_compute. reflexivity.
Defined.

Lemma ocrFallback_empty_text (env : Platform) (trace : Trace) :
  text (ocrFallback env trace) = [] ->
  extractor (meta (ocrFallback env trace)) = tag "pdf-unreadable"
  /\ pages (meta (ocrFallback env trace)) = None
  /\ usedOcr (meta (ocrFallback env trace)) = false.
Proof.
  unfold ocrFallback. destruct (ocrPdf env trace 10) as [ocr trace'].
  destruct (truthy (stage_text ocr)) eqn:E; cbn [andb].
  - destruct (40 <=? length (trim (stage_text ocr))).
    + cbn. intros H. rewrite H in E. discriminate E.
    + intros _. repeat split.
  - intros _. repeat split.
Qed.

Lemma serverFallback_empty_text (env : Platform) (trace : Trace)
    (r : Response) :
  serverFallback env trace = Returns r ->
  text r = [] ->
  extractor (meta r) = tag "pdf-unreadable"
  /\ pages (meta r) = None /\ usedOcr (meta r) = false.
Proof.
  unfold serverFallback.
  destruct (serverExtractText (server env) trace) as [[payload|] trace'];
    [|intros [= <-]; apply ocrFallback_empty_text].
  destruct (valueTruthy (payload_text payload)) eqn:Et;
    [|intros [= <-]; apply ocrFallback_empty_text].
  destruct (payload_text payload) as [serverText|]; [|discriminate].
  destruct (40 <=? length (trim serverText));
    [|intros [= <-]; apply ocrFallback_empty_text].
  destruct (buildPlainLayout _); [|discriminate].
  intros [= <-]. cbn. intros H. rewrite H in Et. discriminate Et.
Qed.

Lemma readPdf_empty_text (env : Platform) (trace : Trace) (r : Response) :
  readPdf env trace = Returns r ->
  text r = [] ->
  extractor (meta r) = tag "pdf-unreadable"
  /\ pages (meta r) = None /\ usedOcr (meta r) = false.
Proof.
  unfold readPdf.
  destruct (renderPdfWithPdfjs (pdfjsOutcome env) trace) as [pdfResult trace1].
  destruct (adaptivePatch env _ (stage_text pdfResult) trace1)
    as [[pdfMeta pdfText] trace2].
  destruct (truthy (trim pdfText)) eqn:E.
  - intros [= <-]. cbn. intros H. rewrite H in E. discriminate E.
  - apply (serverFallback_empty_text env trace2).
Qed.

(** X12.  A result of kind 'pdf' has empty text only as the 'pdf-unreadable'
    result: no page metadata, [usedOcr] false.  Every other PDF result
    carries text. *)
Theorem pdf_empty_text_is_unreadable (env : Platform) (file : option File)
    (r : Response) :
  readFileContent env file = Returns r ->
  kind r = Kpdf ->
  text r = [] ->
  extractor (meta r) = tag "pdf-unreadable"
  /\ pages (meta r) = None /\ usedOcr (meta r) = false.
Proof.
  unfold readFileContent. destruct file as [f|];
    [|intros [= <-]; discriminate].
  destruct (acquisition env) as [m| |bytes]; try discriminate.
  destruct (base64Throws env); [discriminate|].
  destruct (detectFileKind (Some f) bytes).
  - intros Hr _. now apply (readPdf_empty_text env []).
  - destruct (extractDocx (docxOutcome env) []) as [docx trace].
    intros [= <-]. discriminate.
  - intros [= <-]. discriminate.
  - unfold readImage. destruct (dataUrlRejects env); [discriminate|].
    destruct (negb (loadTesseract env));
      [|destruct (imageRecognition env)]; intros [= <-]; discriminate.
  - intros [= <-]. discriminate.
  - intros [= <-]. discriminate.
Qed.

Lemma pdf_empty_text_is_unreadable_witness :
  exists r,
    readFileContent barePlatform (Some pdfFile) = Returns r
    /\ extractor (meta r) = tag "pdf-unreadable"
    /\ pages (meta r) = None /\ usedOcr (meta r) = false.
Proof.
  eexists. split; [reflexivity|].
  apply (pdf_empty_text_is_unreadable barePlatform (Some pdfFile) _ eq_refl);
    reflexivity.
Defined.

(** X13.  A text file never makes [readFileContent] throw once its bytes
    are read: the result has the decoded text, extractor 'text', and
    [pageCount] 1 with the cleaned text as the only page; for a text without
    visible characters (an empty file) [pages] is empty while [pageCount] is
    still 1. *)
Theorem text_file_result (env : Platform) (file : File) (bytes : buffer) :
  acquisition env = Acquired bytes ->
  base64Throws env = false ->
  detectFileKind (Some file) bytes = Ktext ->
  exists r,
    readFileContent env (Some file) = Returns r
    /\ text r = decodeTextBuffer (decoder env) (Some bytes)
    /\ kind r = Ktext
    /\ extractor (meta r) = tag "text"
    /\ usedOcr (meta r) = false
    /\ pageCount (meta r) = Some 1
    /\ pages (meta r)
       = Some (if truthy (trim (collapseWhitespace (text r)))
               then [trim (collapseWhitespace (text r))] else []).
Proof.
  intros Hacq Hb64 Hkind.
  unfold readFileContent. rewrite Hacq, Hb64, Hkind.
  eexists. split; [reflexivity|].
  cbn [text kind meta extractor usedOcr pageCount pages chooseText
       buildResponse].
  repeat split.
  - unfold buildPageMeta, normalizePageSegments.
    cbn [fmap option_fmap option_map pm_pageCount map List.filter].
    destruct (truthy (trim (collapseWhitespace
                              (decodeTextBuffer (decoder env) (Some bytes)))));
      reflexivity.
  - unfold buildPageMeta, normalizePageSegments.
    cbn [fmap option_fmap option_map pm_pages map List.filter].
    destruct (truthy (trim (collapseWhitespace
                              (decodeTextBuffer (decoder env) (Some bytes)))));
      reflexivity.
Qed.

Lemma text_file_result_witness :
  exists r,
    readFileContent emptyTextPlatform (Some textFile) = Returns r
    /\ text r = [] /\ pageCount (meta r) = Some 1 /\ pages (meta r) = Some [].
Proof.
  destruct (text_file_result emptyTextPlatform textFile [] eq_refl eq_refl
                             eq_refl)
    as (r & Hr & Ht & _ & _ & _ & Hc & Hp).
  exists r. split; [exact Hr|].
  assert (Hempty : text r = []) by (rewrite Ht; reflexivity).
  rewrite Hempty in Hp. auto.
Defined.

(** ** Per-page OCR: the pages that are read *)

Lemma insertSorted_lt (x : nat) (l : list nat) :
  x ∉ l -> StronglySorted lt l -> StronglySorted lt (insertSorted Nat.ltb x l).
Proof.
  intros Hx Hl. induction l as [|y l IH]; cbn [insertSorted].
  - repeat constructor.
  - apply not_elem_of_cons in Hx as [Hxy Hx].
    apply StronglySorted_inv in Hl as [Hl Hy].
    destruct (Nat.ltb_spec y x) as [Hlt|Hge].
    + constructor; [now apply IH|].
      apply Forall_forall. intros z Hz.
      apply (proj1 (elem_of_Permutation_proper z _ _
                      (insertSorted_Permutation Nat.ltb x l))) in Hz.
      apply elem_of_cons in Hz as [->|Hz]; [assumption|].
      rewrite Forall_forall in Hy. now apply Hy.
    + constructor; [now constructor|].
      constructor; [lia|].
      eapply Forall_impl; [exact Hy|]. intros z Hz. cbn in Hz. lia.
Qed.

Lemma sortBy_lt (l : list nat) :
  NoDup l -> StronglySorted lt (sortBy Nat.ltb l).
Proof.
  induction 1 as [|x l Hx _ IH]; cbn [sortBy]; [constructor|].
  apply insertSorted_lt; [|assumption].
  intros Hin. apply Hx.
  now apply (proj1 (elem_of_Permutation_proper x _ _
                      (sortBy_Permutation Nat.ltb l))) in Hin.
Qed.

Lemma dedupeFrom_NoDup (xs : list nat) :
  forall seen,
    NoDup (dedupeFrom seen xs)
    /\ (forall x, x ∈ dedupeFrom seen xs -> x ∉ seen).
Proof.
  induction xs as [|y xs IH]; intros seen; cbn [dedupeFrom].
  - split; [constructor|]. intros x Hx. inversion Hx.
  - destruct (bool_decide (y ∈ seen)) eqn:E; [apply IH|].
    apply bool_decide_eq_false in E.
    destruct (IH (y :: seen)) as [Hnd Hseen]. split.
    + apply NoDup_cons. split; [|assumption].
      intros Hin. apply (Hseen y Hin). apply list_elem_of_here.
    + intros x Hx. apply elem_of_cons in Hx as [->|Hx]; [assumption|].
      intros Hin. apply (Hseen x Hx). now apply list_elem_of_further.
Qed.

(** The targets of [ocrPdfPages]: the page numbers from 1 on, each once, in
    increasing order. *)
Lemma ocrTargets_sorted (pagesToProcess : list nat) :
  StronglySorted lt (ocrTargets pagesToProcess)
  /\ (forall n, n ∈ ocrTargets pagesToProcess <->
                n ∈ pagesToProcess /\ 1 <= n).
Proof.
  unfold ocrTargets. split.
  - apply sortBy_lt. apply dedupeFrom_NoDup.
  - intros n.
    rewrite (elem_of_Permutation_proper n _ _ (sortBy_Permutation Nat.ltb _)).
    split.
    + intros H. apply dedupeFrom_subset in H.
      apply list_elem_of_In, filter_In in H as [H1 H2].
      split; [now apply list_elem_of_In|now apply Nat.leb_le].
    + intros [H1 H2].
      assert (Hf : n ∈ List.filter (fun page => 1 <=? page) pagesToProcess).
      { apply list_elem_of_In, filter_In. split;
          [now apply list_elem_of_In|now apply Nat.leb_le]. }
      revert Hf. generalize (List.filter (fun page => 1 <=? page) pagesToProcess).
      intros xs. assert (Hseen : n ∉ ([] : list nat)) by inversion 1.
      revert Hseen. generalize ([] : list nat).
      induction xs as [|y xs IH]; intros seen Hseen Hin; [inversion Hin|].
      cbn [dedupeFrom]. destruct (bool_decide (y ∈ seen)) eqn:E.
      * apply bool_decide_eq_true in E.
        apply elem_of_cons in Hin as [->|Hin]; [contradiction|].
        now apply IH.
      * apply elem_of_cons in Hin as [->|Hin]; [apply list_elem_of_here|].
        destruct (decide (n = y)) as [->|Hne]; [apply list_elem_of_here|].
        apply list_elem_of_further. apply IH; [|assumption].
        intros H. apply elem_of_cons in H as [H|H]; [contradiction|].
        contradiction.
Qed.

Lemma ocrText_clean (dataText : option jsstring) :
  trim (collapseWhitespace (ocrText dataText)) = ocrText dataText.
Proof.
  unfold ocrText. destruct dataText as [s|]; [|reflexivity].
  destruct (truthy s); [apply clean_idempotent|reflexivity].
Qed.

Lemma ocrPageStep_fold (doc : list OcrPage) (targets : list nat) :
  forall (results : Patches) trace,
    StronglySorted lt (map fst results ++ targets) ->
    Forall (fun n => 1 <= n) targets ->
    Forall (goodPatch doc) results ->
    let results' := (fold_left (ocrPageStep doc) targets (results, trace)).1 in
    StronglySorted lt (map fst results')
    /\ Forall (goodPatch doc) results'
    /\ (forall n, n ∈ map fst results' -> n ∈ map fst results \/ n ∈ targets).
Proof.
  induction targets as [|k targets IH]; intros results trace Hs Hpos Hgood.
  - cbn. rewrite app_nil_r in Hs. repeat split; auto.
  - cbn [fold_left]. apply Forall_cons in Hpos as [Hk Hpos].
    assert (Hskip : StronglySorted lt (map fst results ++ targets)).
    { apply StronglySorted_app in Hs as (H1 & H2 & H3).
      apply StronglySorted_app. split; [|split; [assumption|]].
      - intros x1 x2 Hx1 Hx2. apply H1; [assumption|].
        now apply list_elem_of_further.
      - now apply StronglySorted_inv in H3 as [H3 _]. }
    assert (Hstep : exists trace1,
               ocrPageStep doc (results, trace) k = (results, trace1)
               \/ exists t, goodPatch doc (k, t)
                            /\ ocrPageStep doc (results, trace) k
                               = (results ++ [(k, t)], trace1)).
    { unfold ocrPageStep. destruct (Nat.ltb_spec (length doc) k) as [Hout|Hin];
        [eauto|].
      destruct (doc !! (k - 1)) as [[m| |m|dataText]|]; eauto.
      destruct (truthy (ocrText dataText)) eqn:Et; eauto.
      exists trace. right. exists (ocrText dataText). split; [|reflexivity].
      split; [cbn; lia|]. split; [now apply truthy_true|apply ocrText_clean]. }
    destruct Hstep as (trace1 & [Hst|(t & Hgt & Hst)]); rewrite Hst.
    + destruct (IH results trace1 Hskip Hpos Hgood) as (H1 & H2 & H3).
      repeat split; auto. intros n Hn. destruct (H3 n Hn) as [H|H];
        [now left|right; now apply list_elem_of_further].
    + assert (Hs' : StronglySorted lt (map fst (results ++ [(k, t)]) ++ targets)).
      { rewrite map_app, <- app_assoc. exact Hs. }
      assert (Hgood' : Forall (goodPatch doc) (results ++ [(k, t)])).
      { apply Forall_app. split; [assumption|].
        constructor; [exact Hgt|constructor]. }
      destruct (IH (results ++ [(k, t)]) trace1 Hs' Hpos Hgood')
        as (H1 & H2 & H3).
      repeat split; auto. intros n Hn. destruct (H3 n Hn) as [H|H].
      * rewrite map_app in H. apply elem_of_app in H as [H|H]; [now left|].
        right. cbn in H. apply list_elem_of_singleton in H as ->.
        apply list_elem_of_here.
      * right. now apply list_elem_of_further.
Qed.

Lemma ocrPdfPages_patches (env : Platform) (pagesToProcess : list nat)
    (trace : Trace) :
  let patches := (ocrPdfPages env pagesToProcess trace).1 in
  let doc := match ocrSetup env with DocumentOpened doc => doc | _ => [] end in
  StronglySorted lt (map fst patches)
  /\ Forall (goodPatch doc) patches
  /\ (forall n, n ∈ map fst patches -> n ∈ pagesToProcess).
Proof.
  cbn zeta.
  assert (Hnone : forall (doc : list OcrPage) (t : Trace),
             StronglySorted lt (map fst (([] : Patches), t).1)
             /\ Forall (goodPatch doc) (([] : Patches), t).1
             /\ (forall n, n ∈ map fst (([] : Patches), t).1 ->
                           n ∈ pagesToProcess)).
  { intros doc t. cbn. repeat split; try constructor. intros n Hn.
    inversion Hn. }
  unfold ocrPdfPages.
  destruct (length pagesToProcess =? 0); [apply Hnone|].
  destruct (negb (canvas env)); [apply Hnone|].
  destruct (length (ocrTargets pagesToProcess) =? 0); [apply Hnone|].
  destruct (ocrSetup env) as [m|m|doc]; [apply Hnone| |];
    (destruct (negb (loadTesseract env)); [apply Hnone|]); [apply Hnone|].
  destruct (ocrTargets_sorted pagesToProcess) as [Hsorted Hmem].
  assert (Hpos : Forall (fun n => 1 <= n) (ocrTargets pagesToProcess)).
  { apply Forall_forall. intros n Hn. now apply Hmem in Hn. }
  pose proof (ocrPageStep_fold doc (ocrTargets pagesToProcess) [] trace
                Hsorted Hpos (List.Forall_nil _)) as H.
  cbn zeta in H. destruct H as (H1 & H2 & H3).
  assert (H : StronglySorted lt
                (map fst (fold_left (ocrPageStep doc)
                            (ocrTargets pagesToProcess) ([], trace)).1)
              /\ Forall (goodPatch doc)
                        (fold_left (ocrPageStep doc)
                           (ocrTargets pagesToProcess) ([], trace)).1
              /\ (forall n,
                    n ∈ map fst (fold_left (ocrPageStep doc)
                                   (ocrTargets pagesToProcess) ([], trace)).1 ->
                    n ∈ pagesToProcess)).
  { split; [exact H1|]. split; [exact H2|]. intros n Hn.
    destruct (H3 n Hn) as [H|H]; [inversion H|now apply Hmem in H]. }
  clear H1 H2 H3.
  match goal with
  | |- context [match ?run with pair _ _ => _ end] =>
      change (StronglySorted lt (map fst run.1)
              /\ Forall (goodPatch doc) run.1
              /\ (forall n, n ∈ map fst run.1 -> n ∈ pagesToProcess)) in H;
      destruct run as [results trace']
  end.
  exact H.
Qed.

(** X14.  The pages that [ocrPdfPages] returns are keyed by page numbers in
    strictly increasing order, each taken from the requested pages and
    lying between 1 and the number of pages of the document; each text is
    not empty and already in cleaned form. *)
Theorem ocrPdfPages_result (env : Platform) (pagesToProcess : list nat)
    (trace : Trace) :
  let patches := (ocrPdfPages env pagesToProcess trace).1 in
  let numPages :=
    match ocrSetup env with DocumentOpened doc => length doc | _ => 0 end in
  StronglySorted lt (map fst patches)
  /\ Forall (fun patch =>
               (patch.1 ∈ pagesToProcess)
               /\ 1 <= patch.1 <= numPages
               /\ patch.2 <> []
               /\ trim (collapseWhitespace patch.2) = patch.2) patches.
Proof.
  cbn zeta.
  destruct (ocrPdfPages_patches env pagesToProcess trace) as (H1 & H2 & H3).
  split; [exact H1|].
  apply Forall_forall. intros patch Hp.
  rewrite Forall_forall in H2. destruct (H2 patch Hp) as (Hb & Hne & Hc).
  split; [|split; [|split]]; try assumption.
  - apply H3. apply list_elem_of_In, in_map, list_elem_of_In. exact Hp.
  - destruct (ocrSetup env); cbn [length] in Hb; assumption.
Qed.

(** ** Full-document OCR *)

Lemma ocrPdfLoop_length (doc : list OcrPage) :
  forall pageIndex texts trace,
    match (ocrPdfLoop pageIndex doc texts trace).1 with
    | inr texts' => length texts' <= length texts + length doc
    | inl _ => True
    end.
Proof.
  induction doc as [|page doc IH]; intros pageIndex texts trace.
  - cbn. lia.
  - destruct page as [m| |m|dataText]; cbn [ocrPdfLoop length].
    + exact I.
    + specialize (IH (S pageIndex) texts trace).
      destruct (ocrPdfLoop _ doc texts trace).1; [exact I|lia].
    + specialize (IH (S pageIndex) (texts ++ [[]])
                     (pushTrace trace "ocr" (PageError pageIndex m) "warn")).
      destruct (ocrPdfLoop _ doc _ _).1; [exact I|].
      rewrite length_app in IH. cbn [length] in IH. lia.
    + specialize (IH (S pageIndex) (texts ++ [ocrText dataText]) trace).
      destruct (ocrPdfLoop _ doc _ _).1; [exact I|].
      rewrite length_app in IH. cbn [length] in IH. lia.
Qed.

Lemma normalizePageSegments_length (segments : list JsValue)
    (fallbackText : jsstring) :
  length (normalizePageSegments segments fallbackText)
  <= Nat.max (length segments) 1.
Proof.
  unfold normalizePageSegments.
  match goal with |- context [0 <? length ?x] => set (cleaned := x) end.
  assert (Hc : length cleaned <= length segments).
  { unfold cleaned. etransitivity; [apply filter_length_le|].
    now rewrite length_map. }
  destruct (0 <? length cleaned); [lia|].
  destruct (truthy _); cbn [length]; lia.
Qed.

(** X15.  Full-document OCR reads at most [pageLimit] pages (10 in
    [readFileContent]): it returns at most [min(pageLimit, numPages)] pages,
    and its result does not change when the document is cut off after page
    [pageLimit]. *)
Theorem ocrPdf_page_limit (env : Platform) (trace : Trace) (pageLimit : nat)
    (doc : list OcrPage) :
  (ocrSetup env = DocumentOpened doc ->
   length (stage_pages (ocrPdf env trace pageLimit).1)
   <= Nat.min pageLimit (length doc))
  /\ ocrPdf (withOcrDocument env (take pageLimit doc)) trace pageLimit
     = ocrPdf (withOcrDocument env doc) trace pageLimit.
Proof.
  split.
  - intros Hdoc. unfold ocrPdf. rewrite Hdoc.
    destruct (negb (loadTesseract env)); [cbn; lia|].
    pose proof (ocrPdfLoop_length (take (Nat.min pageLimit (length doc)) doc)
                                  1 [] trace) as Hlen.
    destruct (ocrPdfLoop 1 (take (Nat.min pageLimit (length doc)) doc) []
                         trace) as [[m|texts] trace'];
      cbn [fst snd stage_pages emptyStage length] in *; [lia|].
    rewrite length_take in Hlen.
    destruct texts as [|t texts]; [cbn; lia|].
    etransitivity; [apply normalizePageSegments_length|].
    rewrite length_map. cbn [length] in *. lia.
  - unfold ocrPdf, withOcrDocument, loadTesseract.
    cbn [ocrSetup canvas tesseractScript].
    rewrite length_take, take_take.
    now replace (Nat.min (Nat.min pageLimit (Nat.min pageLimit (length doc)))
                         pageLimit)
      with (Nat.min pageLimit (length doc)) by lia.
Qed.

(** ** The adaptive patch applies every recognized page *)

Lemma StronglySorted_lt_NoDup (l : list nat) : StronglySorted lt l -> NoDup l.
Proof.
  induction 1 as [|x l _ IH Hx]; [constructor|].
  apply NoDup_cons. split; [|assumption].
  intros Hin. rewrite Forall_forall in Hx. specialize (Hx x Hin). lia.
Qed.

Lemma patchStep_fold_applies (doc : list OcrPage) (patches : Patches) :
  forall pages patchedPages,
    NoDup (map fst patches) ->
    Forall (goodPatch doc) patches ->
    let st := fold_left patchStep patches (pages, patchedPages) in
    st.2 = patchedPages ++ map fst patches
    /\ Forall (fun patch => st.1 !! (patch.1 - 1) = Some patch.2) patches.
Proof.
  induction patches as [|[k t] patches IH]; intros pages patchedPages Hnd Hgood.
  - cbn. split; [now rewrite app_nil_r|constructor].
  - cbn [fold_left map fst] in *.
    apply NoDup_cons in Hnd as [Hk Hnd].
    apply Forall_cons in Hgood as [(Hb & Hne & Hc) Hgood]. cbn [fst snd] in *.
    destruct (patchStep_spec pages patchedPages k t)
      as (pages1 & Hst & Hlen & Hat & _); [now rewrite Hc|lia|].
    rewrite Hc in Hat. rewrite Hst.
    destruct (IH pages1 (patchedPages ++ [k]) Hnd Hgood) as [Hrec Hall].
    split; [now rewrite Hrec, <- app_assoc|].
    constructor; [|exact Hall]. cbn [fst snd].
    pose proof (patchStep_fold patches pages1 (patchedPages ++ [k])) as Hloop.
    cbn zeta in Hloop. destruct Hloop as (_ & Hframe & _).
    rewrite <- Hat. apply Hframe.
    + unfold jsstring, char in *. lia.
    + now replace (k - 1 + 1) with k by lia.
Qed.

(** X16.  The adaptive patch applies every page that per-page OCR returned:
    [ocrPatchedPages] lists exactly the recognized page numbers, in strictly
    increasing order, and each recognized text stands at its page's index in
    [pages]; without recognized pages there is no [ocrPatchedPages]. *)
Theorem adaptivePatch_applies_every_patch (env : Platform)
    (text pdfText : jsstring) (pagesInput : list JsValue)
    (layout : option nat) (trace : Trace) :
  let pdfMeta := buildPageMeta text pagesInput layout in
  let patches :=
    (ocrPdfPages env (lowQualityPages (pm_pages pdfMeta)) trace).1 in
  let pdfMeta' := (adaptivePatch env pdfMeta pdfText trace).1.1 in
  pm_ocrPatchedPages pdfMeta'
  = (if 0 <? length patches then Some (map fst patches) else None)
  /\ StronglySorted lt (map fst patches)
  /\ Forall (fun patch => pm_pages pdfMeta' !! (patch.1 - 1) = Some patch.2)
            patches.
Proof.
  intros pdfMeta patches pdfMeta'.
  destruct (ocrPdfPages_patches env (lowQualityPages (pm_pages pdfMeta)) trace)
    as (Hsorted & Hgood & _).
  fold patches in Hsorted, Hgood.
  split; [|split; [exact Hsorted|]].
  - unfold pdfMeta', adaptivePatch.
    destruct (lowQualityPages (pm_pages pdfMeta)) as [|n low] eqn:Elow.
    + reflexivity.
    + cbn [length Nat.ltb Nat.leb]. fold patches.
      rewrite (surjective_pairing (ocrPdfPages env (n :: low) trace)).
      fold patches.
      pose proof (patchStep_fold_applies _ patches (pm_pages pdfMeta) []
                    (StronglySorted_lt_NoDup _ Hsorted) Hgood) as [Hrec _].
      destruct (fold_left patchStep patches (pm_pages pdfMeta, []))
        as [pages patched].
      cbn [fst snd app] in Hrec. subst patched.
      rewrite length_map. destruct (length patches); reflexivity.
  - unfold pdfMeta', adaptivePatch.
    destruct (lowQualityPages (pm_pages pdfMeta)) as [|n low] eqn:Elow.
    + unfold patches. cbn. constructor.
    + cbn [length Nat.ltb Nat.leb].
      rewrite (surjective_pairing (ocrPdfPages env (n :: low) trace)).
      fold patches.
      pose proof (patchStep_fold_applies _ patches (pm_pages pdfMeta) []
                    (StronglySorted_lt_NoDup _ Hsorted) Hgood) as [_ Hall].
      destruct (fold_left patchStep patches (pm_pages pdfMeta, []))
        as [pages patched].
      cbn [fst snd] in Hall.
      destruct (length patched); exact Hall.
Qed.

(** ** Columns, tables and kinds: what is kept *)

Lemma roundCoord_mono (x y : num) : (x <= y)%Qc -> (roundCoord x <= roundCoord y)%Qc.
Proof.
  intros H. unfold roundCoord, fdiv, fmul. apply double_mono.
  assert (Hr : (round (double (x * ofNat 100)%Qc)
                <= round (double (y * ofNat 100)%Qc))%Z).
  { apply round_mono, double_mono. qc_unfold. lra. }
  rewrite Zle_Qle in Hr. qc_unfold. rewrite !ofZ_this. lra.
Qed.

Lemma concat_splitAtGaps (threshold : num) (centers : list CenterEntry) :
  concat (splitAtGaps threshold centers) = centers
  /\ Forall (fun cluster => cluster <> []) (splitAtGaps threshold centers).
Proof.
  induction centers as [|a rest [IH1 IH2]]; [split; [reflexivity|constructor]|].
  destruct rest as [|b rest].
  - cbn. split; [reflexivity|]. repeat constructor. discriminate.
  - rewrite splitAtGaps_step.
    destruct (gtb (center b - center a)%js threshold).
    + cbn [concat app]. rewrite IH1. split; [reflexivity|].
      constructor; [discriminate|assumption].
    + destruct (splitAtGaps threshold (b :: rest)) as [|c cs];
        [discriminate IH1|].
      cbn [concat app] in *. rewrite IH1. split; [reflexivity|].
      apply Forall_cons in IH2 as [_ IH2]. constructor; [discriminate|assumption].
Qed.

Lemma sum_list_lengths {A : Type} (ls : list (list A)) :
  sum_list (map length ls) = length (concat ls).
Proof.
  induction ls as [|l ls IH]; [reflexivity|].
  cbn. rewrite length_app. now rewrite <- IH.
Qed.

Lemma length_le_sum_list (ns : list nat) :
  Forall (fun n => 1 <= n) ns -> length ns <= sum_list ns.
Proof.
  induction 1 as [|n ns Hn _ IH]; [reflexivity|]. cbn. lia.
Qed.

Lemma sum_blockCount (clusters : list (list CenterEntry)) :
  forall f : nat -> list CenterEntry -> Column,
    (forall i cluster, blockCount (f i cluster) = Some (length cluster)) ->
    sum_list (map (fun column => from_option id 0 (blockCount column))
                  (imap f clusters))
    = length (concat clusters).
Proof.
  induction clusters as [|cluster clusters IH]; intros f Hf; [reflexivity|].
  rewrite imap_cons. cbn [map sum_list concat]. rewrite Hf. cbn [from_option id].
  rewrite length_app. f_equal. apply IH. intros i c. apply Hf.
Qed.

(** X17.  Column detection loses and invents no block: the [blockCount]s of
    the columns add up to the number of blocks, there is at least one column
    and never more columns than blocks, and no column starts left of 0 or,
    when there are blocks, ends right of the rounded page width. *)
Theorem detectColumns_counts (blocks : list TextBlock) (pageWidth : num) :
  let columns := detectColumns blocks pageWidth in
  sum_list (map (fun column => from_option id 0 (blockCount column)) columns)
  = length blocks
  /\ 1 <= length columns <= Nat.max 1 (length blocks)
  /\ Forall (fun column =>
               (0 <= col_start column)%Qc
               /\ (blocks <> [] ->
                   blockCount column <> Some 0
                   /\ (col_end column <= roundCoord pageWidth)%Qc)) columns.
Proof.
  cbn zeta. unfold detectColumns.
  destruct blocks as [|b blocks]; cbn [length Nat.eqb].
  - cbn. split; [reflexivity|]. split; [lia|].
    constructor; [|constructor].
    split; [vm_compute; discriminate|intros H; now destruct H].
  - rewrite clusterCenters_splitAtGaps.
    set (centers := sortBy byCenter (map centerOf (b :: blocks))).
    assert (Hlen : length centers = S (length blocks)).
    { unfold centers. rewrite sortBy_length, length_map. reflexivity. }
    destruct (concat_splitAtGaps (gapThreshold pageWidth) centers)
      as [Hconcat Hne].
    set (clusters := splitAtGaps (gapThreshold pageWidth) centers) in *.
    assert (Hsum : sum_list (map length clusters) = length centers).
    { now rewrite sum_list_lengths, Hconcat. }
    rewrite Hlen in Hsum.
    assert (Hpos : Forall (fun n => 1 <= n) (map length clusters)).
    { apply Forall_map. eapply Forall_impl; [exact Hne|].
      intros c Hc. cbn. destruct c; [contradiction|cbn; lia]. }
    split; [|split].
    + rewrite sum_blockCount by reflexivity. now rewrite Hconcat, Hlen.
    + rewrite length_imap.
      pose proof (length_le_sum_list _ Hpos) as Hcount.
      rewrite length_map in Hcount.
      destruct clusters as [|c cs]; [discriminate Hsum|].
      cbn [length] in *. lia.
    + apply Forall_forall. intros column Hin.
      apply elem_of_lookup_imap in Hin as (i & cluster & -> & Hi).
      unfold columnOf. cbn [col_start col_end blockCount]. split.
      * replace 0%Qc with (roundCoord (ofNat 0))
          by (apply Qc_is_canon; vm_compute; reflexivity).
        apply roundCoord_mono. apply max2_ge_l.
      * intros _. split.
        -- intros [= Hzero]. rewrite Forall_forall in Hne.
           apply (Hne cluster); [now apply list_elem_of_lookup_2 in Hi|].
           now destruct cluster.
        -- apply roundCoord_mono. apply min2_le_l.
Qed.

Lemma concat_runsFrom {A : Type} (p : A -> bool) (lines : list A) :
  forall current,
    Forall (fun x => p x = true) current ->
    concat (runsFrom p current lines) = current ++ List.filter p lines
    /\ Forall (fun run => run <> []) (runsFrom p current lines).
Proof.
  induction lines as [|x lines IH]; intros current Hcur; cbn [runsFrom List.filter].
  - destruct current as [|c current]; cbn.
    + split; [reflexivity|constructor].
    + rewrite !app_nil_r. split; [reflexivity|].
      repeat constructor. discriminate.
  - destruct (p x) eqn:E.
    + destruct (IH (current ++ [x])) as [H1 H2].
      { apply Forall_app. split; [assumption|]. now repeat constructor. }
      rewrite H1. split; [now rewrite <- app_assoc|assumption].
    + destruct (IH []) as [H1 H2]; [constructor|].
      rewrite concat_app, H1.
      destruct current as [|c current]; cbn [length Nat.ltb Nat.leb].
      * split; [reflexivity|assumption].
      * cbn [concat app]. rewrite app_nil_r. split; [reflexivity|].
        constructor; [discriminate|assumption].
Qed.

Lemma concat_rows (runs : list (list Line)) :
  forall f : nat -> list Line -> TableRegion,
    (forall i run, rows (f i run) = map rowOf run) ->
    concat (map rows (imap f runs)) = map rowOf (concat runs).
Proof.
  induction runs as [|run runs IH]; intros f Hf; [reflexivity|].
  rewrite imap_cons. cbn [map concat]. rewrite Hf, map_app. f_equal.
  apply IH. intros i r. apply Hf.
Qed.

(** X18.  Table detection keeps every qualifying line exactly once and in
    order: the rows of all tables, read one table after the other, are the
    rows of the lines that have at least [minColumns] blocks with text; no
    table is empty, and lines with fewer such blocks appear in no table. *)
Theorem detectTableRows_rows (lines : list Line) (minColumns : nat) :
  let tables := detectTableRows lines minColumns in
  concat (map rows tables)
  = map rowOf
      (List.filter
         (fun line =>
            minColumns <=? length (List.filter meaningful (line_blocks line)))
         lines)
  /\ Forall (fun table => rows table <> []) tables.
Proof.
  cbn zeta. rewrite detectTableRows_runsFrom.
  destruct (concat_runsFrom (Spec.tableLine minColumns) lines [])
    as [Hconcat Hne]; [constructor|].
  split.
  - rewrite concat_rows by reflexivity. now rewrite Hconcat.
  - apply Forall_forall. intros table Hin.
    apply elem_of_lookup_imap in Hin as (i & run & -> & Hi).
    cbn [tableOf rows]. rewrite Forall_forall in Hne.
    apply list_elem_of_lookup_2 in Hi. specialize (Hne run Hi).
    destruct run; [contradiction|discriminate].
Qed.

Lemma byteIs_take (buf : buffer) (i : nat) (b : N) :
  i < 2 -> byteIs (take 8 (take 2 buf)) i b = byteIs (take 8 buf) i b.
Proof.
  intros Hi. unfold byteIs, buffer in *.
  rewrite take_take, !lookup_take_lt by lia. reflexivity.
Qed.

(** X19.  Of the buffer, [detectFileKind] reads the first two bytes only: a
    buffer cut after two bytes gets the same kind.  The kind is never
    'unknown', which is kept for a missing file. *)
Theorem detectFileKind_two_bytes (file : option File) (buf : buffer) :
  detectFileKind file (take 2 buf) = detectFileKind file buf
  /\ detectFileKind file buf <> Kunknown.
Proof.
  unfold detectFileKind. rewrite !byteIs_take by lia. split; [reflexivity|].
  repeat match goal with
         | |- context [if ?c then _ else _] => destruct c
         end; discriminate.
Qed.

(** ** Snippets *)

(** X20.  A snippet is never longer than [limit + 1] code units and keeps
    the first [limit] code units of the text; cutting a snippet again with
    the same limit changes nothing. *)
Theorem trimSnippet_idempotent (text : jsstring) (limit : nat) :
  length (trimSnippet text limit) <= limit + 1
  /\ take limit (trimSnippet text limit) = take limit text
  /\ trimSnippet (trimSnippet text limit) limit = trimSnippet text limit.
Proof.
  unfold trimSnippet. destruct text as [|c text].
  { cbn. split; [lia|]. split; reflexivity. }
  cbn [truthy negb].
  destruct (Nat.leb_spec (length (c :: text)) limit) as [Hle|Hgt].
  - split; [lia|]. split; [reflexivity|].
    cbn [truthy negb]. apply Nat.leb_le in Hle. now rewrite Hle.
  - assert (Hlen : length (take limit (c :: text)) = limit)
      by (rewrite length_take; lia).
    split; [rewrite length_app, Hlen; cbn; lia|].
    split; [now rewrite take_app_length'|].
    destruct (take limit (c :: text) ++ [ELLIPSIS]) as [|d s] eqn:E.
    { apply (f_equal length) in E. rewrite length_app in E. cbn in E. lia. }
    cbn [truthy negb]. rewrite <- E.
    destruct (Nat.leb_spec (length (take limit (c :: text) ++ [ELLIPSIS]))
                           limit) as [Hle|_].
    + rewrite length_app, Hlen in Hle. cbn in Hle. lia.
    + now rewrite take_app_length'.
Qed.

(** ** Languages *)

Lemma removeWhitespace_collapse (s : jsstring) :
  forall inRun, removeWhitespace (collapseFrom inRun s) = removeWhitespace s.
Proof.
  unfold removeWhitespace.
  induction s as [|c s IH]; intros inRun; [reflexivity|].
  cbn [collapseFrom List.filter]. destruct (isSpace c) eqn:E; cbn [negb].
  - destruct inRun; [apply IH|]. cbn [List.filter].
    rewrite isSpace_SPACE. cbn [negb]. apply IH.
  - cbn [List.filter]. rewrite E. cbn [negb]. now rewrite IH.
Qed.

Lemma removeWhitespace_spaces (w : jsstring) :
  Forall (fun c => isSpace c = true) w -> removeWhitespace w = [].
Proof.
  unfold removeWhitespace. induction 1 as [|c w Hc _ IH]; [reflexivity|].
  cbn [List.filter]. now rewrite Hc.
Qed.

Lemma removeWhitespace_trim (s : jsstring) :
  removeWhitespace (trim s) = removeWhitespace s.
Proof.
  destruct (trim_split s) as (w1 & w2 & Hs & Hw1 & Hw2 & _).
  rewrite Hs at 2. unfold removeWhitespace. rewrite !List.filter_app.
  fold (removeWhitespace w1) (removeWhitespace w2) (removeWhitespace (trim s)).
  rewrite (removeWhitespace_spaces w1 Hw1), (removeWhitespace_spaces w2 Hw2).
  now rewrite app_nil_r.
Qed.

(** X21.  The detected language depends on the visible characters only:
    cleaning a text (collapsing white space and trimming) does not change
    its language, and the language is 'unknown' exactly for a text that is
    empty or all white space. *)
Theorem detectLanguageFromText_whitespace (text : jsstring) :
  detectLanguageFromText (trim (collapseWhitespace text))
  = detectLanguageFromText text
  /\ (detectLanguageFromText text = Lunknown
      <-> Forall (fun c => isSpace c = true) text).
Proof.
  split.
  - unfold detectLanguageFromText.
    unfold collapseWhitespace.
    now rewrite removeWhitespace_trim, removeWhitespace_collapse.
  - unfold detectLanguageFromText. split.
    + destruct (removeWhitespace text) as [|c cleaned] eqn:E.
      * intros _. unfold removeWhitespace in E.
        induction text as [|d text IH]; [constructor|].
        cbn [List.filter] in E. destruct (isSpace d) eqn:Ed;
          [|discriminate E].
        constructor; [exact Ed|now apply IH].
      * cbn [truthy negb].
        destruct (gtb _ _); [discriminate|]. destruct (gtb _ _); discriminate.
    + intros Hall. now rewrite (removeWhitespace_spaces text Hall).
Qed.

(** ** Grouping blocks into lines *)

Lemma fsub_self (a : num) : (a - a)%js = ofNat 0.
Proof.
  unfold fsub. replace (a - a)%Qc with 0%Qc by (unfold num in *; ring).
  reflexivity.
Qed.

Lemma nearLine_spec (block : TextBlock) (line : Line) :
  nearLine block line = true
  <-> (absNum (line_y line - bbox1 block)%js <= LINE_TOLERANCE)%Qc.
Proof. unfold nearLine. apply leb_le. Qed.

Lemma absNum_cases (x : num) :
  ((x < 0)%Qc /\ absNum x = (- x)%Qc) \/ ((0 <= x)%Qc /\ absNum x = x).
Proof.
  unfold absNum. destruct (ltb x (ofNat 0)) eqn:E.
  - left. apply ltb_lt in E. split; [exact E|reflexivity].
  - right. unfold ltb in E. apply bool_decide_eq_false in E.
    split; [|reflexivity]. change (ofNat 0) with 0%Qc in E. qc_order.
Qed.

(** A distance that the code finds greater than 6 is greater than 6:
    rounding keeps the order, and 6 is a binary64 number. *)
Lemma far_apart (y top : num) :
  (y <= top)%Qc ->
  ~ (absNum (y - top)%js <= LINE_TOLERANCE)%Qc ->
  apart y top.
Proof.
  intros Hle Hfar.
  assert (Hup : ((y - top)%js <= 0)%Qc).
  { change 0%Qc with (double (ofNat 0)). unfold fsub. apply double_mono.
    qc_unfold. lra. }
  split.
  - destruct (Qclt_le_dec (y + LINE_TOLERANCE) top) as [Hlt|Hge];
      [exact Hlt|exfalso].
    assert (Hlow : ((- LINE_TOLERANCE)%Qc <= (y - top)%js)%Qc).
    { replace (- LINE_TOLERANCE)%Qc with (double (- LINE_TOLERANCE)%Qc)
        by (apply Qc_is_canon; vm_compute; reflexivity).
      unfold fsub. apply double_mono. unfold LINE_TOLERANCE in *.
      qc_unfold. lra. }
    apply Hfar.
    destruct (absNum_cases (y - top)%js) as [[_ ->]|[_ ->]];
      unfold LINE_TOLERANCE in *; qc_unfold; lra.
  - destruct (Qclt_le_dec LINE_TOLERANCE (absNum (y - top)%js))
      as [Hlt|Hge]; [exact Hlt|contradiction].
Qed.

(** A distance that the code finds within 6 is less than the next number
    after 6. *)
Lemma near_slack (y top : num) :
  (absNum (y - top)%js <= LINE_TOLERANCE)%Qc ->
  (top - y < AFTER_TOLERANCE)%Qc.
Proof.
  intros Hnear.
  destruct (Qclt_le_dec (top - y) AFTER_TOLERANCE) as [Hlt|Hge];
    [exact Hlt|exfalso].
  assert (Hup : ((y - top)%js <= (- AFTER_TOLERANCE)%Qc)%Qc).
  { replace (- AFTER_TOLERANCE)%Qc with (double (- AFTER_TOLERANCE)%Qc)
      by (apply Qc_is_canon; vm_compute; reflexivity).
    unfold fsub. apply double_mono. qc_unfold. lra. }
  assert (H6 : (LINE_TOLERANCE < AFTER_TOLERANCE)%Qc)
    by (apply ltb_lt; vm_compute; reflexivity).
  assert (H0 : (0 < LINE_TOLERANCE)%Qc)
    by (apply ltb_lt; vm_compute; reflexivity).
  destruct (absNum_cases (y - top)%js) as [[_ E]|[Hpos _]].
  - rewrite E in Hnear. qc_unfold. lra.
  - qc_unfold. lra.
Qed.

Lemma addToLine_cases (block : TextBlock) (lines : list Line) :
  (addToLine block lines = None
   /\ Forall (fun line => nearLine block line = false) lines)
  \/ (exists pre line post,
        lines = pre ++ line :: post
        /\ nearLine block line = true
        /\ addToLine block lines = Some (pre ++ extendLine line block :: post)).
Proof.
  induction lines as [|line lines IH]; [left; split; [reflexivity|constructor]|].
  cbn [addToLine]. destruct (nearLine block line) eqn:E.
  - right. exists [], line, lines. auto.
  - destruct IH as [[-> Hall]|(pre & l & post & -> & Hn & ->)].
    + left. split; [reflexivity|now constructor].
    + right. exists (line :: pre), l, post. auto.
Qed.

Lemma lineIds_snoc (n : nat) :
  lineIds (n + 1) = lineIds n ++ [lit "line-" ++ decimal (n + 1)].
Proof.
  unfold lineIds. replace (n + 1) with (S n) at 1 by lia.
  now rewrite seq_S, map_app.
Qed.

Lemma tolerance_nonneg : (0 <= LINE_TOLERANCE)%Qc.
Proof. vm_compute. discriminate. Qed.

Lemma extendLine_ok (line : Line) (block : TextBlock) :
  lineOk line ->
  (line_y line <= bbox1 block)%Qc ->
  nearLine block line = true ->
  lineOk (extendLine line block) /\ line_y (extendLine line block) = line_y line.
Proof.
  intros [Hcov (b0 & Hb0 & Hy0)] Hle Hnear.
  assert (Hy : min2 (line_y line) (bbox1 block) = line_y line).
  { unfold min2. apply leb_le in Hle. now rewrite Hle. }
  apply nearLine_spec in Hnear.
  split; [|exact Hy]. unfold lineOk, extendLine.
  cbn [line_blocks line_y]. rewrite Hy. split.
  - apply Forall_app. split.
    + eapply Forall_impl; [exact Hcov|].
      intros b (H1 & H2 & H3 & H4 & H5). unfold lineCovers.
      cbn [line_y line_x1 line_x2 line_maxY]. rewrite ?Hy.
      pose proof (min2_le_l (line_x1 line) (bbox0 block)).
      pose proof (max2_ge_l (line_x2 line) (bbox2 block)).
      pose proof (max2_ge_l (line_maxY line) (bbox3 block)).
      repeat split; try assumption; qc_order.
    + constructor; [|constructor]. unfold lineCovers.
      cbn [line_y line_x1 line_x2 line_maxY]. rewrite ?Hy.
      pose proof (min2_le_r (line_x1 line) (bbox0 block)).
      pose proof (max2_ge_r (line_x2 line) (bbox2 block)).
      pose proof (max2_ge_r (line_maxY line) (bbox3 block)).
      repeat split; assumption.
  - exists b0. split; [|exact Hy0]. apply elem_of_app. now left.
Qed.

Lemma groupStep_grouped (lines : list Line) (done : list TextBlock)
    (block : TextBlock) :
  Grouped lines done ->
  Forall (fun line => (line_y line <= bbox1 block)%Qc) lines ->
  Grouped (groupStep lines block) (done ++ [block])
  /\ Forall (fun line => (line_y line <= bbox1 block)%Qc)
            (groupStep lines block).
Proof.
  intros (Hperm & Hok & Hsorted & Hids) Hbelow. unfold groupStep.
  destruct (addToLine_cases block lines)
    as [[-> Hfar]|(pre & line & post & -> & Hnear & ->)].
  - set (new := mkLine _ _ _ _ _ _). split; [split; [|split; [|split]]|].
    + rewrite map_app, concat_app.
      change (concat (map line_blocks [new])) with [block].
      now apply Permutation_app_tail.
    + apply Forall_app. split; [exact Hok|]. constructor; [|constructor].
      split.
      * constructor; [|constructor]. unfold lineCovers, new.
        cbn [line_y line_x1 line_x2 line_maxY]. rewrite fsub_self.
        pose proof tolerance_nonneg.
        repeat split; try (qc_unfold; lra).
        change (absNum (ofNat 0)) with (ofNat 0). exact H.
      * exists block. split; [apply list_elem_of_here|reflexivity].
    + rewrite map_app. apply StronglySorted_app.
      split; [|split; [exact Hsorted|repeat constructor]].
      intros y y' Hy Hy'. cbn in Hy'. apply list_elem_of_singleton in Hy' as ->.
      apply list_elem_of_In, in_map_iff in Hy as (l & <- & Hl).
      apply list_elem_of_In in Hl.
      rewrite Forall_forall in Hfar, Hbelow.
      specialize (Hfar l Hl). specialize (Hbelow l Hl).
      apply far_apart; [exact Hbelow|].
      intros Hnear. apply nearLine_spec in Hnear. congruence.
    + rewrite map_app, length_app, Hids. cbn [map length].
      now rewrite lineIds_snoc.
    + apply Forall_app. split; [exact Hbelow|].
      constructor; [|constructor]. unfold new. cbn [line_y]. qc_order.
  - apply Forall_app in Hok as [Hpre Hok].
    apply Forall_cons in Hok as [Hline Hpost].
    apply Forall_app in Hbelow as [Bpre Hbelow].
    apply Forall_cons in Hbelow as [Bline Bpost].
    destruct (extendLine_ok line block Hline Bline Hnear) as [Hnew Hy].
    split; [split; [|split; [|split]]|].
    + rewrite map_app, concat_app in Hperm |- *. cbn [map concat] in *.
      cbn [extendLine line_blocks]. rewrite <- Hperm.
      rewrite <- !app_assoc. apply Permutation_app_head.
      apply Permutation_app_head. apply Permutation_app_comm.
    + apply Forall_app. split; [exact Hpre|]. now constructor.
    + rewrite map_app in Hsorted |- *. cbn [map] in *. now rewrite Hy.
    + rewrite map_app, length_app in Hids |- *. cbn [map length] in *.
      exact Hids.
    + apply Forall_app. split; [exact Bpre|]. constructor; [|exact Bpost].
      now rewrite Hy.
Qed.

Lemma groupStep_fold (blocks : list TextBlock) :
  forall lines done,
    StronglySorted (keyLe bbox1) blocks ->
    Grouped lines done ->
    Forall (fun line => Forall (fun b => (line_y line <= bbox1 b)%Qc) blocks)
           lines ->
    Grouped (fold_left groupStep blocks lines) (done ++ blocks).
Proof.
  induction blocks as [|block blocks IH]; intros lines done Hsorted Hg Hbelow.
  - cbn. now rewrite app_nil_r.
  - cbn [fold_left]. apply StronglySorted_inv in Hsorted as [Hsorted Hblock].
    assert (Hb : Forall (fun line => (line_y line <= bbox1 block)%Qc) lines).
    { eapply Forall_impl; [exact Hbelow|]. intros line Hl.
      now apply Forall_cons in Hl as [Hl _]. }
    destruct (groupStep_grouped lines done block Hg Hb) as [Hg' Hb'].
    replace (done ++ block :: blocks) with ((done ++ [block]) ++ blocks)
      by now rewrite <- app_assoc.
    apply IH; [exact Hsorted|exact Hg'|].
    eapply Forall_impl; [exact Hb'|]. intros line Hl.
    eapply Forall_impl; [exact Hblock|]. intros b Hbb. unfold keyLe in Hbb.
    cbn beta in *. qc_order.
Qed.

Lemma groupBlocksIntoLines_grouped (blocks : list TextBlock) :
  exists lines,
    groupBlocksIntoLines blocks = map finishLine lines
    /\ Grouped lines (sortBy byY blocks).
Proof.
  unfold groupBlocksIntoLines. destruct blocks as [|b blocks].
  - exists []. split; [reflexivity|]. cbn. repeat split; constructor.
  - cbn [length Nat.eqb]. eexists. split; [reflexivity|].
    apply (groupStep_fold (sortBy byY (b :: blocks)) [] []).
    + apply (sortBy_sorted bbox1).
    + repeat split; constructor.
    + constructor.
Qed.

(** X22.  Grouping into lines is a partition of the blocks: every block is
    in exactly one line; no line is empty; the blocks of a line are in
    increasing order of X and the line's text joins their texts with single
    spaces; the lines are named 'line-1', 'line-2', ... in order. *)
Theorem groupBlocksIntoLines_partition (blocks : list TextBlock) :
  let lines := map tl_line (groupBlocksIntoLines blocks) in
  Permutation (concat (map line_blocks lines)) blocks
  /\ Forall (fun line =>
               line_blocks line <> []
               /\ StronglySorted (fun a b => (bbox0 a <= bbox0 b)%Qc)
                                 (line_blocks line)) lines
  /\ Forall (fun textLine =>
               tl_text textLine
               = join [SPACE] (map block_text (line_blocks (tl_line textLine))))
            (groupBlocksIntoLines blocks)
  /\ map line_id lines = lineIds (length lines).
Proof.
  cbn zeta.
  destruct (groupBlocksIntoLines_grouped blocks)
    as (lines & -> & Hperm & Hok & _ & Hids).
  rewrite !map_map. cbn [finishLine tl_line].
  split; [|split; [|split]].
  - rewrite <- (sortBy_Permutation byY blocks), <- Hperm.
    clear. induction lines as [|line lines IH]; [reflexivity|].
    cbn [map concat line_blocks]. apply Permutation_app; [|exact IH].
    apply sortBy_Permutation.
  - apply Forall_map. eapply Forall_impl; [exact Hok|].
    intros line [_ (b & Hb & _)]. cbn [line_blocks]. split.
    + intros Hnil.
      apply (proj2 (elem_of_Permutation_proper b _ _
                      (sortBy_Permutation byX (line_blocks line)))) in Hb.
      rewrite Hnil in Hb. inversion Hb.
    + apply (sortBy_sorted bbox0).
  - apply Forall_map. apply Forall_forall. intros line _. reflexivity.
  - rewrite length_map, <- Hids. apply map_ext. reflexivity.
Qed.

(** X23.  Every line is a horizontal band: its [y] is the top of one of its
    blocks; every block of the line starts at or below [y], at a distance
    that the code computes as at most 6 (so less than the next binary64
    number after 6), and lies inside the line's extent [x1 .. x2] and above
    [maxY]; from each line to every later one the [y]s increase by more than
    6, and the code computes their distance as more than 6. *)
Theorem groupBlocksIntoLines_bands (blocks : list TextBlock) :
  let lines := map tl_line (groupBlocksIntoLines blocks) in
  Forall (fun line =>
            Forall (fun b =>
                      (line_y line <= bbox1 b)%Qc
                      /\ (absNum (line_y line - bbox1 b)%js <= ofNat 6)%Qc
                      /\ (bbox1 b - line_y line < AFTER_TOLERANCE)%Qc
                      /\ (line_x1 line <= bbox0 b)%Qc
                      /\ (bbox2 b <= line_x2 line)%Qc
                      /\ (bbox3 b <= line_maxY line)%Qc) (line_blocks line)
            /\ exists b, b ∈ line_blocks line /\ bbox1 b = line_y line) lines
  /\ StronglySorted (fun y y' => (y + ofNat 6 < y')%Qc
                                 /\ (ofNat 6 < absNum (y - y')%js)%Qc)
                    (map line_y lines).
Proof.
  cbn zeta.
  destruct (groupBlocksIntoLines_grouped blocks)
    as (lines & -> & _ & Hok & Hsorted & _).
  rewrite !map_map. cbn [finishLine tl_line]. split.
  - apply Forall_map. eapply Forall_impl; [exact Hok|].
    intros line [Hcov (b & Hb & Hy)]. cbn [line_blocks line_y line_x1 line_x2
                                           line_maxY]. split.
    + apply Forall_forall. intros c Hc.
      apply (proj1 (elem_of_Permutation_proper c _ _
                      (sortBy_Permutation byX (line_blocks line)))) in Hc.
      rewrite Forall_forall in Hcov.
      destruct (Hcov c Hc) as (H1 & H2 & H3 & H4 & H5).
      repeat split; try assumption. now apply near_slack.
    + exists b. split; [|exact Hy].
      now apply (proj2 (elem_of_Permutation_proper b _ _
                          (sortBy_Permutation byX (line_blocks line)))).
  - replace (map (fun x => line_y (tl_line (finishLine x))) lines)
      with (map line_y lines); [exact Hsorted|].
    apply map_ext. reflexivity.
Qed.

(** ** Public identifiers *)

Lemma dashOthers_idChars (s : jsstring) :
  forall inRun, Forall (fun c => isIdChar c = true) (dashOthers inRun s).
Proof.
  induction s as [|c s IH]; intros inRun; cbn [dashOthers]; [constructor|].
  destruct (isIdChar c) eqn:E; [now constructor|].
  destruct inRun; [apply IH|]. constructor; [reflexivity|apply IH].
Qed.

Lemma dashOthers_fixed (s : jsstring) :
  Forall (fun c => isIdChar c = true) s ->
  forall inRun, dashOthers inRun s = s.
Proof.
  induction 1 as [|c s Hc _ IH]; intros inRun; [reflexivity|].
  cbn [dashOthers]. rewrite Hc. now rewrite IH.
Qed.

Lemma squeezeDashes_idChars (s : jsstring) :
  Forall (fun c => isIdChar c = true) s ->
  forall inRun, Forall (fun c => isIdChar c = true) (squeezeDashes inRun s).
Proof.
  induction 1 as [|c s Hc _ IH]; intros inRun; cbn [squeezeDashes];
    [constructor|].
  destruct (c =? DASH)%N; [destruct inRun|].
  - apply IH.
  - constructor; [reflexivity|apply IH].
  - constructor; [exact Hc|apply IH].
Qed.

Lemma squeezeDashes_noDashPair (s : jsstring) :
  forall inRun,
    noDashPair (squeezeDashes inRun s)
    /\ (inRun = true -> head (squeezeDashes inRun s) <> Some DASH).
Proof.
  induction s as [|c s IH]; intros inRun; cbn [squeezeDashes].
  - split; [exact I|discriminate].
  - destruct (N.eqb_spec c DASH) as [->|Hne].
    + destruct inRun.
      * apply IH.
      * split; [|discriminate]. cbn [noDashPair].
        destruct (IH true) as [H1 H2]. split; [|exact H1].
        intros _. now apply H2.
    + split.
      * cbn [noDashPair]. split; [contradiction|apply IH].
      * intros _ [= H]. contradiction.
Qed.

Lemma squeezeDashes_fixed (s : jsstring) :
  noDashPair s ->
  forall inRun,
    (inRun = true -> head s <> Some DASH) -> squeezeDashes inRun s = s.
Proof.
  induction s as [|c s IH]; intros Hs inRun Hhead; [reflexivity|].
  cbn [squeezeDashes]. destruct Hs as [Hc Hs].
  destruct (N.eqb_spec c DASH) as [->|Hne].
  - destruct inRun; [now destruct Hhead|].
    f_equal. apply IH; [exact Hs|]. intros _. now apply Hc.
  - f_equal. apply IH; [exact Hs|discriminate].
Qed.

Lemma dropLastDash_spec (s : jsstring) :
  noDashPair s ->
  noDashPair (dropLastDash s)
  /\ last (dropLastDash s) <> Some DASH
  /\ (head (dropLastDash s) = head s \/ dropLastDash s = [])
  /\ (Forall (fun c => isIdChar c = true) s ->
      Forall (fun c => isIdChar c = true) (dropLastDash s)).
Proof.
  induction s as [|c s IH]; intros Hs.
  - cbn. repeat split; auto; discriminate.
  - destruct Hs as [Hc Hs]. destruct s as [|d s].
    + cbn [dropLastDash]. destruct (N.eqb_spec c DASH) as [->|Hne].
      * cbn. repeat split; auto; try discriminate.
      * cbn. repeat split; auto; try discriminate;
          try (intros [= H]; contradiction).
    + destruct (IH Hs) as (H1 & H2 & H3 & H4).
      change (dropLastDash (c :: d :: s)) with (c :: dropLastDash (d :: s)).
      split; [|split; [|split]].
      * cbn [noDashPair]. split; [|exact H1]. intros Hdash.
        destruct H3 as [-> | ->]; [now apply Hc|discriminate].
      * destruct (dropLastDash (d :: s)) as [|e t] eqn:E.
        -- cbn. intros [= ->].
           destruct s as [|e s]; [|discriminate E].
           cbn [dropLastDash] in E.
           destruct (N.eqb_spec d DASH) as [Hd|Hne]; [|discriminate E].
           apply (Hc eq_refl). cbn. now rewrite Hd.
        -- rewrite last_cons_cons. exact H2.
      * now left.
      * intros Hall. apply Forall_cons in Hall as [Hcc Hall].
        constructor; [exact Hcc|now apply H4].
Qed.

Lemma dropLastDash_fixed (s : jsstring) :
  last s <> Some DASH -> dropLastDash s = s.
Proof.
  induction s as [|c s IH]; intros Hl; [reflexivity|].
  destruct s as [|d s].
  - cbn [dropLastDash]. destruct (N.eqb_spec c DASH) as [->|Hne];
      [now destruct Hl|reflexivity].
  - change (dropLastDash (c :: d :: s)) with (c :: dropLastDash (d :: s)).
    f_equal. apply IH. now rewrite last_cons_cons in Hl.
Qed.

Lemma stripEdgeDashes_spec (s : jsstring) :
  Forall (fun c => isIdChar c = true) s ->
  noDashPair s ->
  stripEdgeDashes s = [] \/ safeId (stripEdgeDashes s).
Proof.
  intros Hall Hs. unfold stripEdgeDashes. destruct s as [|c s]; [now left|].
  destruct (N.eqb_spec c DASH) as [->|Hne].
  - destruct Hs as [Hc Hs]. apply Forall_cons in Hall as [_ Hall].
    destruct (dropLastDash_spec s Hs) as (H1 & H2 & H3 & H4).
    destruct (dropLastDash s) as [|d t] eqn:E; [now left|right].
    unfold safeId. split; [discriminate|]. split; [now apply H4|].
    split; [exact H1|]. split; [|exact H2].
    destruct H3 as [H3|H3]; [|discriminate H3]. rewrite H3. now apply Hc.
  - destruct (dropLastDash_spec (c :: s) Hs) as (H1 & H2 & H3 & H4).
    destruct (dropLastDash (c :: s)) as [|d t] eqn:E; [now left|right].
    unfold safeId. split; [discriminate|]. split; [now apply H4|].
    split; [exact H1|]. split; [|exact H2].
    destruct H3 as [H3|H3]; [|discriminate H3]. rewrite H3.
    intros [= H]. contradiction.
Qed.

Lemma decimalFuel_digits (fuel : nat) :
  forall n acc,
    Forall (fun c => isDigit c = true) acc ->
    Forall (fun c => isDigit c = true) (decimalFuel fuel n acc)
    /\ (0 < fuel -> decimalFuel fuel n acc <> []).
Proof.
  induction fuel as [|fuel IH]; intros n acc Hacc; cbn [decimalFuel].
  - split; [exact Hacc|lia].
  - assert (Hd : isDigit (digitChar (n mod 10)) = true).
    { unfold isDigit, digitChar.
      pose proof (Nat.mod_upper_bound n 10). 
      apply andb_true_iff. rewrite !N.leb_le. lia. }
    destruct (n / 10 =? 0).
    + split; [now constructor|discriminate].
    + destruct (IH (n / 10) (digitChar (n mod 10) :: acc)) as [H1 H2];
        [now constructor|].
      split; [exact H1|]. intros _.
      destruct fuel as [|fuel]; [discriminate|]. apply H2. lia.
Qed.

Lemma decimal_digits (n : nat) :
  Forall (fun c => isDigit c = true) (decimal n) /\ decimal n <> [].
Proof.
  unfold decimal. destruct (decimalFuel_digits (S n) n [] (List.Forall_nil _))
    as [H1 H2].
  split; [exact H1|]. apply H2. lia.
Qed.

Lemma isDigit_idChar (c : char) :
  isDigit c = true -> isIdChar c = true /\ c <> DASH.
Proof.
  unfold isDigit, isIdChar, DASH.
  rewrite andb_true_iff, !N.leb_le. intros [H1 H2]. split; [|lia].
  rewrite !orb_true_iff, !andb_true_iff, !N.leb_le. auto 10.
Qed.

Lemma noDashPair_without_dash (s : jsstring) :
  Forall (fun c => c <> DASH) s -> noDashPair s.
Proof.
  induction 1 as [|c s Hc _ IH]; [exact I|]. cbn [noDashPair].
  split; [contradiction|exact IH].
Qed.

Lemma fallbackId_safe (now : nat) : safeId (lit "document-" ++ decimal now).
Proof.
  destruct (decimal_digits now) as [Hdigits Hne].
  assert (Hid : Forall (fun c => isIdChar c = true) (decimal now)).
  { eapply Forall_impl; [exact Hdigits|]. intros c Hc.
    now apply isDigit_idChar in Hc. }
  assert (Hnd : Forall (fun c => c <> DASH) (decimal now)).
  { eapply Forall_impl; [exact Hdigits|]. intros c Hc.
    now apply isDigit_idChar in Hc. }
  set (digits := decimal now) in *. clearbody digits.
  unfold safeId. split; [|split; [|split; [|split]]].
  - now destruct digits.
  - apply Forall_app. split; [|exact Hid]. repeat constructor.
  - cbn. repeat split;
      try (intros Heq; discriminate Heq);
      try (now apply noDashPair_without_dash).
    intros _ Hh. destruct digits as [|d digits]; [contradiction|].
    apply Forall_cons in Hnd as [Hd _]. injection Hh as ->. now apply Hd.
  - discriminate.
  - destruct (last digits) as [c|] eqn:El;
      [|apply last_None in El; contradiction].
    apply last_Some in El as [front ->].
    rewrite app_assoc, last_snoc. intros [= ->].
    apply Forall_app in Hnd as [_ Hnd]. apply Forall_cons in Hnd as [Hc _].
    now apply Hc.
Qed.

Lemma sanitizePublicId_cases (now : nat) (value : JsValue) :
  safeId (sanitizePublicId now value).
Proof.
  unfold sanitizePublicId. destruct value as [s|b]; [|apply fallbackId_safe].
  destruct (negb (truthy s)); [apply fallbackId_safe|].
  destruct (stripEdgeDashes_spec
              (squeezeDashes false (dashOthers false (stripExtension (trim s)))))
    as [->|Hsafe].
  - apply squeezeDashes_idChars, dashOthers_idChars.
  - apply squeezeDashes_noDashPair.
  - apply fallbackId_safe.
  - destruct Hsafe as [Hne Hrest].
    destruct (stripEdgeDashes _) as [|c t] eqn:E; [contradiction|].
    now split.
Qed.

Lemma isIdChar_visible (c : char) :
  isIdChar c = true -> isSpace c = false /\ c <> DOT.
Proof.
  unfold isIdChar, isSpace, DOT.
  rewrite !orb_true_iff, !andb_true_iff, !N.leb_le, !N.eqb_eq.
  intros H. split; [|lia].
  repeat (apply orb_false_iff; split);
    try (apply andb_false_iff; rewrite !N.leb_gt; lia);
    try (apply N.eqb_neq; lia).
Qed.

Lemma untilDot_without_dot (s : jsstring) :
  Forall (fun c => c <> DOT) s -> untilDot s = (s, None).
Proof.
  induction 1 as [|c s Hc _ IH]; [reflexivity|].
  cbn [untilDot]. destruct (N.eqb_spec c DOT); [contradiction|].
  now rewrite IH.
Qed.

Lemma safeId_fixed (now : nat) (s : jsstring) :
  safeId s -> sanitizePublicId now (JsStr s) = s.
Proof.
  intros (Hne & Hall & Hpair & Hhead & Hlast). unfold sanitizePublicId.
  apply truthy_true in Hne. rewrite Hne. cbn [negb].
  assert (Hvisible : forall o : option char,
             (forall c, o = Some c -> c ∈ s) ->
             from_option isSpace false o = false).
  { intros [c|] Hc; [|reflexivity]. cbn.
    rewrite Forall_forall in Hall.
    now apply isIdChar_visible, Hall, Hc. }
  rewrite trim_fixed.
  2: { apply Hvisible. intros c Hc. now apply head_Some_elem_of. }
  2: { apply Hvisible. intros c Hc. now apply last_Some_elem_of. }
  assert (Hext : stripExtension s = s).
  { unfold stripExtension. rewrite untilDot_without_dot;
      [now destruct (rev s)|].
    apply Forall_rev. eapply Forall_impl; [exact Hall|].
    intros c Hc. now apply isIdChar_visible in Hc. }
  rewrite Hext, (dashOthers_fixed s Hall),
    (squeezeDashes_fixed s Hpair false) by discriminate.
  unfold stripEdgeDashes. destruct s as [|c s]; [discriminate Hne|].
  destruct (N.eqb_spec c DASH) as [->|_]; [now destruct Hhead|].
  now rewrite (dropLastDash_fixed (c :: s) Hlast).
Qed.

(** X24.  [sanitizePublicId] always returns a usable identifier: not empty,
    made of the code units [a-z A-Z 0-9 _ -] only, without two dashes in a
    row and without a dash at either end; sanitizing such an identifier
    again returns it unchanged. *)
Theorem sanitizePublicId_safe (now again : nat) (value : JsValue) :
  let id := sanitizePublicId now value in
  id <> []
  /\ Forall (fun c => isIdChar c = true) id
  /\ noDashPair id
  /\ head id <> Some DASH
  /\ last id <> Some DASH
  /\ sanitizePublicId again (JsStr id) = id.
Proof.
  cbn zeta. pose proof (sanitizePublicId_cases now value) as Hsafe.
  pose proof (safeId_fixed again _ Hsafe) as Hfixed.
  destruct Hsafe as (H1 & H2 & H3 & H4 & H5). auto 10.
Qed.

(** ** Wrapping text *)

Lemma splitRuns_pieces (p : char -> bool) (s : jsstring) :
  forall inRun,
    Forall (Forall (fun c => p c = false)) (splitRuns p inRun s)
    /\ concat (splitRuns p inRun s) = List.filter (fun c => negb (p c)) s
    /\ splitRuns p inRun s <> [].
Proof.
  induction s as [|c s IH]; intros inRun; cbn [splitRuns List.filter].
  - split; [repeat constructor|]. split; [reflexivity|discriminate].
  - destruct (p c) eqn:E; cbn [negb].
    + destruct inRun; [apply IH|].
      destruct (IH true) as (H1 & H2 & H3).
      split; [now constructor|]. split; [exact H2|discriminate].
    + destruct (IH false) as (H1 & H2 & H3).
      destruct (splitRuns p false s) as [|piece pieces]; [contradiction|].
      apply Forall_cons in H1 as [Hp Hps].
      split; [constructor; [now constructor|exact Hps]|].
      split; [|discriminate]. cbn [concat app] in *. now rewrite H2.
Qed.

Lemma concat_filter_truthy (pieces : list jsstring) :
  concat (List.filter truthy pieces) = concat pieces.
Proof.
  induction pieces as [|piece pieces IH]; [reflexivity|].
  cbn [List.filter]. destruct piece as [|c piece]; cbn [truthy concat app].
  - exact IH.
  - now rewrite IH.
Qed.

Lemma wordsOf_spec (paragraph : jsstring) :
  Forall (fun word => word <> [] /\ Forall (fun c => isSpace c = false) word)
         (wordsOf paragraph)
  /\ concat (wordsOf paragraph) = removeWhitespace paragraph.
Proof.
  unfold wordsOf. destruct (splitRuns_pieces isSpace paragraph false)
    as (H1 & H2 & _).
  split.
  - apply Forall_forall. intros word Hw.
    apply list_elem_of_In, filter_In in Hw as [Hin Ht].
    split; [now apply truthy_true|].
    rewrite Forall_forall in H1. now apply H1, list_elem_of_In.
  - now rewrite concat_filter_truthy, H2.
Qed.

Lemma removeWhitespace_app (s t : jsstring) :
  removeWhitespace (s ++ t) = removeWhitespace s ++ removeWhitespace t.
Proof. unfold removeWhitespace. apply List.filter_app. Qed.

Lemma removeWhitespace_word (word : jsstring) :
  Forall (fun c => isSpace c = false) word -> removeWhitespace word = word.
Proof.
  unfold removeWhitespace. induction 1 as [|c word Hc _ IH]; [reflexivity|].
  cbn [List.filter]. rewrite Hc. cbn [negb]. now rewrite IH.
Qed.

Section WrapTextFacts.
Context (measure : jsstring -> num) (maxWidth : num).

Lemma wrapWord_fold (words : list jsstring) :
  forall lines current,
    Forall (fun word => word <> []
                        /\ Forall (fun c => isSpace c = false) word) words ->
    Forall (wrapped measure maxWidth) lines ->
    wrapped measure maxWidth current ->
    let st := fold_left (wrapWord measure maxWidth) words (lines, current) in
    Forall (wrapped measure maxWidth) st.1
    /\ wrapped measure maxWidth st.2
    /\ (words <> [] -> st.2 <> [])
    /\ removeWhitespace (concat st.1 ++ st.2)
       = removeWhitespace (concat lines ++ current) ++ concat words.
Proof.
  induction words as [|word words IH]; intros lines current Hwords Hlines Hcur.
  - cbn. split; [exact Hlines|]. split; [exact Hcur|].
    split; [intros H; now destruct H|now rewrite app_nil_r].
  - apply Forall_cons in Hwords as [[Hne Hword] Hwords].
    cbn [fold_left concat].
    assert (Hvisible : removeWhitespace word = word)
      by now apply removeWhitespace_word.
    destruct (truthy current) eqn:Ec.
    + destruct (gtb (measure (current ++ [SPACE] ++ word)) maxWidth) eqn:Ew.
      * assert (Hstep : wrapWord measure maxWidth (lines, current) word
                        = (lines ++ [current], word))
          by (unfold wrapWord; now rewrite Ec, Ew).
        rewrite Hstep.
        destruct (IH (lines ++ [current]) word Hwords) as (H1 & H2 & H3 & H4).
        { apply Forall_app. split; [exact Hlines|now constructor]. }
        { right. now right. }
        cbn zeta in *. split; [exact H1|]. split; [exact H2|].
        split.
        -- intros _. destruct words as [|w ws]; [exact Hne|].
           apply H3. discriminate.
        -- etransitivity; [exact H4|].
           rewrite concat_app. cbn [concat]. rewrite app_nil_r.
           rewrite !removeWhitespace_app, Hvisible.
           now rewrite <- !app_assoc.
      * assert (Hstep : wrapWord measure maxWidth (lines, current) word
                        = (lines, current ++ [SPACE] ++ word))
          by (unfold wrapWord; now rewrite Ec, Ew).
        rewrite Hstep.
        destruct (IH lines (current ++ [SPACE] ++ word) Hwords Hlines)
          as (H1 & H2 & H3 & H4).
        { right. now left. }
        cbn zeta in *. split; [exact H1|]. split; [exact H2|].
        split.
        -- intros _. destruct words as [|w ws]; [now destruct current|].
           apply H3. discriminate.
        -- etransitivity; [exact H4|].
           rewrite !removeWhitespace_app, Hvisible.
           cbn. now rewrite <- !app_assoc.
    + assert (Hstep : wrapWord measure maxWidth (lines, current) word
                      = (lines, word))
        by (unfold wrapWord; rewrite Ec; now rewrite andb_false_r).
      rewrite Hstep.
      apply truthy_false in Ec. subst current.
      destruct (IH lines word Hwords Hlines) as (H1 & H2 & H3 & H4).
      { right. now right. }
      cbn zeta in *. split; [exact H1|]. split; [exact H2|].
      split.
      * intros _. destruct words as [|w ws]; [exact Hne|].
        apply H3. discriminate.
      * etransitivity; [exact H4|].
        rewrite !removeWhitespace_app, Hvisible.
        change (removeWhitespace []) with ([] : jsstring).
        now rewrite app_nil_r, <- app_assoc.
Qed.

Lemma wrapParagraph_spec (lines : list jsstring) (paragraph : jsstring) :
  Forall (wrapped measure maxWidth) lines ->
  let lines' := wrapParagraph measure maxWidth lines paragraph in
  Forall (wrapped measure maxWidth) lines'
  /\ lines' <> []
  /\ removeWhitespace (concat lines')
     = removeWhitespace (concat lines) ++ removeWhitespace paragraph.
Proof.
  intros Hlines. cbn zeta. unfold wrapParagraph.
  destruct (wordsOf_spec paragraph) as [Hwords Hconcat].
  destruct (wordsOf paragraph) as [|word words] eqn:E.
  - cbn [length Nat.eqb]. split; [|split].
    + apply Forall_app. split; [exact Hlines|]. repeat constructor.
    + now destruct lines.
    + rewrite concat_app. cbn [concat app] in *.
      now rewrite <- Hconcat, !app_nil_r.
  - cbn [length Nat.eqb].
    destruct (wrapWord_fold (word :: words) lines [] Hwords Hlines)
      as (H1 & H2 & H3 & H4); [now left|].
    cbn zeta in *.
    match goal with
    | |- context [match ?r with pair _ _ => _ end] => set (run := r)
    end.
    change (Forall (wrapped measure maxWidth) run.1) in H1.
    change (wrapped measure maxWidth run.2) in H2.
    change (word :: words <> [] -> run.2 <> []) in H3.
    change (removeWhitespace (concat run.1 ++ run.2)
            = removeWhitespace (concat lines ++ [])
              ++ concat (word :: words)) in H4.
    destruct run as [lines1 current].
    cbn [fst snd] in *. specialize (H3 ltac:(discriminate)).
    apply truthy_true in H3. rewrite H3.
    split; [|split].
    + apply Forall_app. split; [exact H1|now constructor].
    + now destruct lines1.
    + rewrite concat_app. cbn [concat]. rewrite app_nil_r, H4, app_nil_r.
      now rewrite Hconcat.
Qed.

Lemma wrapParagraph_fold (paragraphs : list jsstring) :
  forall lines,
    Forall (wrapped measure maxWidth) lines ->
    let lines' := fold_left (wrapParagraph measure maxWidth) paragraphs lines in
    Forall (wrapped measure maxWidth) lines'
    /\ (paragraphs <> [] -> lines' <> [])
    /\ removeWhitespace (concat lines')
       = removeWhitespace (concat lines)
         ++ removeWhitespace (concat paragraphs).
Proof.
  induction paragraphs as [|paragraph paragraphs IH]; intros lines Hlines.
  - cbn. split; [exact Hlines|].
    split; [intros H; now destruct H|now rewrite app_nil_r].
  - cbn [fold_left concat].
    destruct (wrapParagraph_spec lines paragraph Hlines) as (H1 & H2 & H3).
    cbn zeta in *.
    destruct (IH _ H1) as (G1 & G2 & G3). cbn zeta in *.
    split; [exact G1|]. split.
    + intros _. destruct paragraphs as [|q qs]; [exact H2|].
      apply G2. discriminate.
    + rewrite G3, H3, removeWhitespace_app. now rewrite <- app_assoc.
Qed.

Lemma removeWhitespace_paragraphs (text : jsstring) :
  removeWhitespace (concat (paragraphsOf text)) = removeWhitespace text.
Proof.
  unfold paragraphsOf.
  destruct (splitRuns_pieces (fun c => (c =? NEWLINE)%N) text false)
    as (_ & -> & _).
  unfold removeWhitespace. induction text as [|c text IH]; [reflexivity|].
  cbn [List.filter]. destruct (N.eqb_spec c NEWLINE) as [->|Hne]; cbn [negb].
  - exact IH.
  - cbn [List.filter]. now rewrite IH.
Qed.

(** X25.  [wrapText] never returns an empty array, and for a text that is
    not empty every line it returns is empty (a blank paragraph), not wider
    than [maxWidth], or a single word: only a word that is too wide by
    itself overflows. *)
Theorem wrapText_lines_fit (text : jsstring) :
  wrapText measure maxWidth text <> []
  /\ (text = [] -> wrapText measure maxWidth text = [NOT_RECOGNIZED])
  /\ (text <> [] ->
      Forall (fun line =>
                line = []
                \/ gtb (measure line) maxWidth = false
                \/ Forall (fun c => isSpace c = false) line)
             (wrapText measure maxWidth text)).
Proof.
  unfold wrapText.
  destruct (wrapParagraph_fold (paragraphsOf text) [] (List.Forall_nil _))
    as (H1 & H2 & _).
  cbn zeta in *.
  destruct text as [|c text]; cbn [truthy negb].
  - split; [discriminate|]. split; [reflexivity|contradiction].
  - destruct (fold_left _ (paragraphsOf (c :: text)) []) as [|l ls] eqn:E.
    + exfalso. apply H2; [|reflexivity].
      unfold paragraphsOf.
      now destruct (splitRuns_pieces (fun c => (c =? NEWLINE)%N)
                                     (c :: text) false) as (_ & _ & H).
    + cbn [length Nat.ltb Nat.leb]. split; [discriminate|].
      split; [discriminate|]. intros _. exact H1.
Qed.

(** X26.  Wrapping loses, adds and reorders no visible character: the lines
    of a text that is not empty, read one after the other without white
    space, are the text without white space. *)
Theorem wrapText_keeps_characters (text : jsstring) :
  text <> [] ->
  removeWhitespace (concat (wrapText measure maxWidth text))
  = removeWhitespace text.
Proof.
  intros Hne. unfold wrapText. apply truthy_true in Hne. rewrite Hne.
  cbn [negb].
  destruct (wrapParagraph_fold (paragraphsOf text) [] (List.Forall_nil _))
    as (_ & H2 & H3).
  cbn zeta in *.
  destruct (fold_left _ (paragraphsOf text) []) as [|l ls] eqn:E.
  - exfalso. apply H2; [|reflexivity].
    unfold paragraphsOf.
    now destruct (splitRuns_pieces (fun c => (c =? NEWLINE)%N) text false)
      as (_ & _ & H).
  - cbn [length Nat.ltb Nat.leb]. rewrite H3.
    cbn [concat]. apply removeWhitespace_paragraphs.
Qed.

End WrapTextFacts.

Lemma wrapText_keeps_characters_witness :
  wrapText (fun s => ofNat (length s)) (ofNat 5) (lit "ab cd  efghijk")
  = [lit "ab cd"; lit "efghijk"]
  /\ removeWhitespace (lit "ab cd" ++ lit "efghijk") = lit "abcdefghijk".
Proof.
  split; [vm_compute; reflexivity|].
  pose proof (wrapText_keeps_characters (fun s => ofNat (length s)) (ofNat 5)
                (lit "ab cd  efghijk")) as H.
  assert (Hrun : wrapText (fun s => ofNat (length s)) (ofNat 5)
                          (lit "ab cd  efghijk")
                 = [lit "ab cd"; lit "efghijk"]) by (vm_compute; reflexivity).
  rewrite Hrun in H. cbn [concat] in H. rewrite app_nil_r in H.
  rewrite H; [vm_compute; reflexivity|discriminate].
Defined.

(** ** Headings *)

Lemma isLetter_not_numbering (c : char) :
  isLetter c = true -> isNumbering c = false.
Proof.
  unfold isLetter, isNumbering, isLatin, isCyrillic, isDigit, isSpace.
  rewrite !orb_true_iff, !andb_true_iff, !N.leb_le, !N.eqb_eq. intros H.
  repeat (apply orb_false_iff; split);
    try (apply andb_false_iff; rewrite !N.leb_gt; lia);
    try (apply N.eqb_neq; lia).
Qed.

Lemma isUpper_letter (c : char) : isUpper c = true -> isLetter c = true.
Proof.
  unfold isUpper, isLetter, isLatin, isCyrillic.
  rewrite !orb_true_iff, !andb_true_iff, !N.leb_le, !N.eqb_eq. intros H.
  lia.
Qed.

Lemma countMatches_filter (p q : char -> bool) (s : jsstring) :
  (forall c, p c = true -> q c = true) ->
  countMatches p (List.filter q s) = countMatches p s.
Proof.
  intros Hpq. unfold countMatches.
  induction s as [|c s IH]; [reflexivity|]. cbn [List.filter].
  destruct (q c) eqn:Eq; cbn [List.filter].
  - destruct (p c); cbn [length]; now rewrite IH.
  - destruct (p c) eqn:Ep; [|exact IH].
    apply Hpq in Ep. congruence.
Qed.

Lemma countMatches_agree (p q : char -> bool) (s : jsstring) :
  Forall (fun c => p c = q c) s -> countMatches p s = countMatches q s.
Proof.
  unfold countMatches. induction 1 as [|c s Hc _ IH]; [reflexivity|].
  cbn [List.filter]. rewrite Hc. destruct (q c); cbn [length]; now rewrite IH.
Qed.

Lemma trim_without_spaces (s : jsstring) :
  Forall (fun c => isSpace c = false) s -> trim s = s.
Proof.
  intros Hs. apply trim_fixed.
  - destruct s as [|c s]; [reflexivity|]. now apply Forall_cons in Hs as [Hc _].
  - destruct (last s) as [c|] eqn:El; [|reflexivity].
    apply last_Some_elem_of in El. rewrite Forall_forall in Hs. now apply Hs.
Qed.

Lemma heading_cleaned (text : jsstring) :
  trim (List.filter (fun c => negb (isNumbering c)) text)
  = List.filter (fun c => negb (isNumbering c)) text.
Proof.
  apply trim_without_spaces. apply Forall_forall. intros c Hc.
  apply list_elem_of_In, filter_In in Hc as [_ Hc].
  apply negb_true_iff in Hc. unfold isNumbering in Hc.
  rewrite !orb_false_iff in Hc. tauto.
Qed.

(** X27.  A line made only of digits, white space, dots, colons and dashes
    (a page number, a date) is never marked as a heading, and a line with at
    least one letter whose letters are all capitals always is; the headings
    keep the text and the identifier of their lines, in order. *)
Theorem markHeadings_capitals (lines : list TextLine) :
  Forall (fun line =>
            (Forall (fun c => isNumbering c = true) (tl_text line) ->
             isHeadingText (tl_text line) = false)
            /\ (0 < countMatches isLetter (tl_text line) ->
                Forall (fun c => isLetter c = true -> isUpper c = true)
                       (tl_text line) ->
                isHeadingText (tl_text line) = true)) lines
  /\ map (fun heading => (heading_id heading, heading_text heading))
         (markHeadings lines)
     = map (fun line => (line_id (tl_line line), tl_text line))
           (List.filter (fun line => isHeadingText (tl_text line)) lines).
Proof.
  split; [|unfold markHeadings; now rewrite map_map].
  apply Forall_forall. intros line _. set (text := tl_text line).
  unfold isHeadingText. rewrite heading_cleaned.
  set (cleaned := List.filter (fun c => negb (isNumbering c)) text).
  split.
  - intros Hall.
    assert (Hc : cleaned = []).
    { unfold cleaned. clear -Hall. induction Hall as [|c s Hc _ IH];
        [reflexivity|].
      cbn [List.filter]. now rewrite Hc. }
    now rewrite Hc.
  - intros Hpos Hcaps.
    assert (Hletters : countMatches isLetter cleaned = countMatches isLetter text).
    { apply countMatches_filter. intros c Hc.
      apply negb_true_iff. now apply isLetter_not_numbering. }
    assert (Hupper : countMatches isUpper cleaned = countMatches isLetter cleaned).
    { apply countMatches_agree. apply Forall_forall. intros c Hc.
      apply list_elem_of_In, filter_In in Hc as [Hin _].
      rewrite Forall_forall in Hcaps.
      specialize (Hcaps c (proj2 (list_elem_of_In _ _) Hin)).
      destruct (isLetter c) eqn:El; [now apply Hcaps|].
      destruct (isUpper c) eqn:Eu; [|reflexivity].
      apply isUpper_letter in Eu. congruence. }
    destruct cleaned as [|c cleaned'] eqn:Ec.
    { cbn in Hletters. lia. }
    cbn [truthy negb]. rewrite Hupper, Hletters.
    unfold orElse. destruct (countMatches isLetter text) as [|n] eqn:En; [lia|].
    cbn [Nat.eqb].
    assert (Hratio : gtb (ofNat (S n) / ofNat (S n))%js (js 0.65) = true).
    { assert (Hone : (ofNat (S n) / ofNat (S n))%Qc = 1%Qc).
      { apply Qcmult_inv_r. intros H0. apply (f_equal this) in H0.
        pose proof (ofNat_lt 0 (S n) ltac:(lia)) as Hlt.
        rewrite H0 in Hlt. revert Hlt. vm_compute. discriminate. }
      unfold fdiv. rewrite Hone. vm_compute. reflexivity. }
    now rewrite Hratio.
Qed.

(** ** The trace of a result *)

Lemma ocrFallback_prefix (env : Platform) (t : Trace) :
  t `prefix_of` trace (meta (ocrFallback env t))
  /\ kind (ocrFallback env t) = Kpdf.
Proof.
  unfold ocrFallback.
  destruct (ocrPdf_extends env t 10) as (more & Hmore & _).
  destruct (ocrPdf env t 10) as [ocr t']. cbn [snd] in Hmore. subst t'.
  destruct (truthy (stage_text ocr) && (40 <=? length (trim (stage_text ocr))));
    cbn; (split; [|reflexivity]).
  - now exists more.
  - unfold pushTrace. rewrite <- app_assoc. now eexists.
Qed.

Lemma serverFallback_prefix (env : Platform) (t : Trace) (r : Response) :
  serverFallback env t = Returns r ->
  t `prefix_of` trace (meta r) /\ kind r = Kpdf.
Proof.
  unfold serverFallback.
  destruct (serverExtractText_pushes (server env) t) as (entry & Hpush & _).
  destruct (serverExtractText (server env) t) as [serverResult t'].
  cbn [snd] in Hpush. subst t'.
  assert (Hocr : forall r', Returns (ocrFallback env (t ++ [entry])) = Returns r' ->
                            t `prefix_of` trace (meta r') /\ kind r' = Kpdf).
  { intros r' [= <-].
    destruct (ocrFallback_prefix env (t ++ [entry])) as [Hp Hk].
    split; [|exact Hk]. etransitivity; [|exact Hp]. now exists [entry]. }
  destruct serverResult as [payload|]; [|apply Hocr].
  destruct (valueTruthy (payload_text payload)); [|apply Hocr].
  destruct (payload_text payload) as [serverText|]; [|discriminate].
  destruct (40 <=? length (trim serverText)); [|apply Hocr].
  destruct (buildPlainLayout _); [|discriminate].
  intros [= <-]. cbn. split; [|reflexivity]. now exists [entry].
Qed.

Lemma readPdf_prefix (env : Platform) (r : Response) :
  readPdf env [] = Returns r ->
  kind r = Kpdf
  /\ exists first rest,
       trace (meta r) = first :: rest /\ step first = "pdfjs"%string.
Proof.
  unfold readPdf.
  destruct (renderPdfWithPdfjs_pushes (pdfjsOutcome env) [])
    as (first & Hfirst & Hstep).
  destruct (renderPdfWithPdfjs (pdfjsOutcome env) []) as [pdfResult trace1].
  cbn [snd app] in Hfirst. subst trace1.
  destruct (adaptivePatch_extends env
              (buildPageMeta (stage_text pdfResult)
                 (map JsStr (stage_pages pdfResult))
                 (layoutCount (stage_layout pdfResult)))
              (stage_text pdfResult) [first]) as (more & Hmore & _).
  destruct (adaptivePatch env _ (stage_text pdfResult) [first])
    as [[pdfMeta pdfText] trace2].
  cbn [snd] in Hmore. subst trace2.
  destruct (truthy (trim pdfText)).
  - intros [= <-]. split; [reflexivity|]. exists first.
    destruct (negb (readable (evaluateSoftPdfAcceptance (trim pdfText))));
      cbn; eexists; split; try reflexivity; exact Hstep.
  - intros Hr. apply serverFallback_prefix in Hr as [[k Hk] Hkind].
    split; [exact Hkind|]. exists first. rewrite Hk. cbn.
    eexists. split; [reflexivity|exact Hstep].
Qed.

(** X28.  The trace of a result is never empty, and its first entry names
    the stage that the detected kind starts with: 'input' for a missing
    file, 'docx', 'text', 'pdfjs' for a PDF, 'image', 'binary'.  The later
    stages only add entries behind it. *)
Theorem trace_starts_with_stage (env : Platform) (file : option File)
    (r : Response) :
  readFileContent env file = Returns r ->
  exists first rest,
    trace (meta r) = first :: rest
    /\ step first
       = match kind r with
         | Kunknown => "input"
         | Kdocx => "docx"
         | Ktext => "text"
         | Kpdf => "pdfjs"
         | Kimage => "image"
         | Kbinary => "binary"
         end%string.
Proof.
  unfold readFileContent. destruct file as [f|].
  2: { intros [= <-]. eexists _, _. split; reflexivity. }
  destruct (acquisition env) as [m| |bytes]; try discriminate.
  destruct (base64Throws env); [discriminate|].
  destruct (detectFileKind (Some f) bytes).
  - intros Hr. apply readPdf_prefix in Hr as [-> Hr]. exact Hr.
  - destruct (docxOutcome env); cbn; intros [= <-];
      eexists _, _; split; reflexivity.
  - intros [= <-]. eexists _, _. split; reflexivity.
  - unfold readImage. destruct (dataUrlRejects env); [discriminate|].
    destruct (negb (loadTesseract env));
      [|destruct (imageRecognition env)]; intros [= <-];
      eexists _, _; split; reflexivity.
  - intros [= <-]. eexists _, _. split; reflexivity.
  - intros [= <-]. eexists _, _. split; reflexivity.
Qed.

Lemma trace_starts_with_stage_witness :
  exists r first rest,
    readFileContent patchingPlatform (Some pdfFile) = Returns r
    /\ trace (meta r) = first :: rest
    /\ step first = "pdfjs"%string.
Proof.
  destruct (readFileContent patchingPlatform (Some pdfFile)) as [r|e] eqn:E;
    [|vm_compute in E; discriminate E].
  destruct (trace_starts_with_stage patchingPlatform (Some pdfFile) r E)
    as (first & rest & Ht & Hs).
  exists r, first, rest. split; [reflexivity|]. split; [exact Ht|].
  rewrite Hs. vm_compute in E. injection E as <-. reflexivity.
Defined.

(** ** Binary64 arithmetic on concrete inputs *)

(** On all pairs of the sample operands, sums, differences, products and
    quotients are the ones of the Standard Library's specification of
    IEEE 754 binary64 arithmetic, and a decimal literal is the quotient of
    its numerator and denominator there. *)
Example arithmetic_agrees_with_SpecFloat :
  forallb (fun x => forallb (agreesOn x) sampleOperands) sampleOperands = true
  /\ valueOf (binary64OfDecimal 4 10) = js 0.4
  /\ valueOf (binary64OfDecimal 805 100) = js 8.05.
Proof.
  split; [vm_compute; reflexivity|].
  split; apply Qc_is_canon; vm_compute; reflexivity.
Qed.

(** The sum [36/80 + 20*0.4 + 9*0.05 + 31*0.1] is 12 in exact arithmetic
    and 11.999999999999998 as the code computes it: the text is not
    readable. *)
Example evaluateSoftPdfAcceptance_below_12 :
  let result := evaluateSoftPdfAcceptance softBoundaryText in
  length softBoundaryText = 36
  /\ score_of result = Finite (js 11.999999999999998)
  /\ readable result = false
  /\ reason result = "too-short"%string
  /\ (36 / 80 + 20 * 0.4 + 9 * 0.05 + 31 * 0.1 == 12)%Q.
Proof.
  cbn zeta. split; [reflexivity|].
  split; [f_equal; apply Qc_is_canon; vm_compute; reflexivity|].
  split; [vm_compute; reflexivity|]. split; [vm_compute; reflexivity|].
  reflexivity.
Qed.

(** [478 / 4000] is a number just below 0.1195, so three decimals of it are
    0.119, below the threshold 0.12; 480 letters reach 0.12. *)
Example computeQuality_478_letters :
  computeQuality latinPage478 = js 0.119
  /\ lowQualityPages [latinPage478] = [1]
  /\ lowQualityPages [latinPage478 ++ lit "aa"] = [].
Proof.
  split; [apply Qc_is_canon; vm_compute; reflexivity|].
  split; vm_compute; reflexivity.
Qed.

(** [1.005 * 100] is 100.49999999999999, which [Math.round] takes to 100. *)
Example roundCoord_1_005 : roundCoord (js 1.005) = ofNat 1.
Proof. apply Qc_is_canon. vm_compute. reflexivity. Qed.

(** The centers 11.04 and 59.040000000000006 are 48.00000000000001 apart,
    more than the threshold 48 of a page 600 wide: two columns.  The centers
    14.629999999999999 and 62.63 are 48 apart as the code computes it: one
    column. *)
Example detectColumns_at_the_threshold :
  map blockCount
      (detectColumns [blockSpanning (js 6.04) (js 16.04);
                      blockSpanning (js 54.04) (js 64.04)] (ofNat 600))
  = [Some 1; Some 1]
  /\ map blockCount
         (detectColumns [blockSpanning (js 2.74) (js 26.52);
                         blockSpanning (js 54.33) (js 70.93)] (ofNat 600))
     = [Some 2].
Proof. split; vm_compute; reflexivity. Qed.

(** The tops 2.05 and 8.05 are 6.000000000000001 apart as the code computes
    it: two lines.  The tops 0.07 and 6.07 are 6 apart as the code computes
    it, though the second number exceeds the first by more than 6: one
    line. *)
Example groupBlocksIntoLines_at_the_tolerance :
  length (groupBlocksIntoLines [blockWithTop (js 2.05); blockWithTop (js 8.05)])
  = 2
  /\ length (groupBlocksIntoLines
               [blockWithTop (js 0.07); blockWithTop (js 6.07)]) = 1
  /\ (js 0.07 + ofNat 6 < js 6.07)%Qc.
Proof.
  split; [vm_compute; reflexivity|]. split; [vm_compute; reflexivity|].
  apply ltb_lt. vm_compute. reflexivity.
Qed.

(** Two candidate texts whose scores are both 39.06 in exact arithmetic:
    the code computes 39.059999999999995 for the first and 39.06 for the
    second, so the second, later one replaces the first. *)
Example scoreTextCandidate_near_tie :
  scoreTextCandidate windows1251Reading = Finite (js 39.059999999999995)
  /\ scoreTextCandidate ibm866Reading = Finite (js 39.06)
  /\ snd (fold_left considerText [windows1251Reading; ibm866Reading]
                    (NegInfinity, []))
     = ibm866Reading
  /\ (93 / 50 + 62 * 0.6 == 123 / 50 + 61 * 0.6)%Q.
Proof.
  split; [f_equal; apply Qc_is_canon; vm_compute; reflexivity|].
  split; [f_equal; apply Qc_is_canon; vm_compute; reflexivity|].
  split; [vm_compute; reflexivity|]. reflexivity.
Qed.
